(** * Rainy-Thoughts-Notebook: rain-on-glass renderer and lightning scheduler

    A shallow embedding of
    - the fragment shader of [src/components/RainShader.tsx] (hash functions,
      droplet layers, height-field compositor, normal, background, lighting
      and grading),
    - the texture-loading effect of the [RainShader] component,
    - [src/services/audioService.ts] ([initAudio], [setGlobalVolume],
      [triggerThunder]),
    - the lightning effect of the [App] component ([scheduleLightning],
      [triggerLightningEvent]),
    - the note card of [src/components/Editor.tsx] (stored text, size and
      position, resizing and dragging, the word counter) and the note
      management of [App] ([addNote], [deleteNote], [bringToFront]),
    - [src/services/geminiService.ts] ([generateWritingPrompt],
      [generateStudyBackground]) with the prompt banner, and
    - the sliders of the settings panel ([Controls]).

    Numbers.  GLSL [float]s are modelled as real numbers ([R]): the shader
    uses [sin], [sqrt] and [floor], and every statement below is about the
    exact arithmetic, not about rounding.  JavaScript [number]s are modelled
    as rationals ([Q]): the scheduler and the audio service only add,
    multiply, compare and take [Math.max]/[Math.min], so the model stays
    executable.  [Math.random()] is a stream of draws carried in the state.
    Pixel coordinates are rationals as well; strings are [String.string];
    [localStorage] is a function from keys to optional strings. *)

From Stdlib Require Import Reals Psatz Lia List Bool ZArith QArith Qminmax.
From Stdlib Require Import Qround.
From Stdlib Require String Ascii.
Import ListNotations.

(* ================================================================== *)
(** * Part I: definitions                                              *)
(* ================================================================== *)

(** ** GLSL built-ins used by the fragment shader *)

Module Glsl.
Local Open Scope R_scope.

Record vec2 : Type := Vec2 { vx : R; vy : R }.
Record vec3 : Type := Vec3 { cx : R; cy : R; cz : R }.
Record vec4 : Type := Vec4 { rgb : vec3; alpha : R }.

(** A [sampler2D] read through [texture2D(sampler, coord, bias)]. *)
Definition sampler2D : Type := vec2 -> R -> vec4.

Definition texture2D (s : sampler2D) (coord : vec2) (bias : R) : vec4 :=
  s coord bias.

Definition floor (x : R) : R := IZR (Int_part x).

Definition fract (x : R) : R := x - floor x.

Definition clamp (x lo hi : R) : R := Rmin (Rmax x lo) hi.

(** [smoothstep(edge0, edge1, x)]: Hermite interpolation of the clamped
    ratio.  The shader also calls it with [edge0 > edge1]; the formula is
    the same. *)
Definition smoothstep (edge0 edge1 x : R) : R :=
  let t := clamp ((x - edge0) / (edge1 - edge0)) 0 1 in
  t * t * (3 - 2 * t).

Definition mix (a b t : R) : R := a * (1 - t) + b * t.

Definition vadd2 (a b : vec2) : vec2 := Vec2 (vx a + vx b) (vy a + vy b).
Definition vsub2 (a b : vec2) : vec2 := Vec2 (vx a - vx b) (vy a - vy b).
Definition vmul2 (a b : vec2) : vec2 := Vec2 (vx a * vx b) (vy a * vy b).
Definition vscale2 (a : vec2) (k : R) : vec2 := Vec2 (vx a * k) (vy a * k).
Definition length2 (a : vec2) : R := sqrt (vx a * vx a + vy a * vy a).
Definition dot2 (a b : vec2) : R := vx a * vx b + vy a * vy b.

Definition vadd3 (a b : vec3) : vec3 :=
  Vec3 (cx a + cx b) (cy a + cy b) (cz a + cz b).
Definition vsub3 (a b : vec3) : vec3 :=
  Vec3 (cx a - cx b) (cy a - cy b) (cz a - cz b).
Definition vscale3 (a : vec3) (k : R) : vec3 :=
  Vec3 (cx a * k) (cy a * k) (cz a * k).
Definition vadds3 (a : vec3) (k : R) : vec3 :=
  Vec3 (cx a + k) (cy a + k) (cz a + k).
Definition dot3 (a b : vec3) : R := cx a * cx b + cy a * cy b + cz a * cz b.
Definition length3 (a : vec3) : R := sqrt (dot3 a a).
Definition normalize3 (a : vec3) : vec3 := vscale3 a (/ length3 a).
Definition mix3 (a b : vec3) (t : R) : vec3 :=
  Vec3 (mix (cx a) (cx b) t) (mix (cy a) (cy b) t) (mix (cz a) (cz b) t).

(** [reflect(I, N) = I - 2 * dot(N, I) * N]. *)
Definition reflect (i n : vec3) : vec3 :=
  vsub3 i (vscale3 n (2 * dot3 n i)).

End Glsl.

(** ** The fragment shader of [RainShader.tsx] *)

Module Shader.
Import Glsl.
Local Open Scope R_scope.

(** The shader's uniforms, as declared at the top of [fragmentShader]. *)
Record Uniforms : Type := {
  uTime : R;
  uRainIntensity : R;
  uRainSpeed : R;
  uDropletSize : R;
  uBlurStrength : R;
  uBrightness : R;
  uContrast : R;
  uRefraction : R;
  uZoom : R;
  uLightning : R;
  uResolution : vec2;
  uBgTexture : sampler2D;
  uHasTexture : bool;
  uAutoFit : bool;
  uImgAspect : R
}.

(** [#define S(a, b, t) smoothstep(a, b, t)] *)
Definition S (a b t : R) : R := smoothstep a b t.

(** [vec3 N13(float p)] *)
Definition N13 (p : R) : vec3 :=
  let p3 := Vec3 (fract (p * 0.1031)) (fract (p * 0.11369))
                 (fract (p * 0.13787)) in
  (* p3 += dot(p3, p3.yzx + 19.19) *)
  let k := dot3 p3 (vadds3 (Vec3 (cy p3) (cz p3) (cx p3)) 19.19) in
  let p3 := vadds3 p3 k in
  Vec3 (fract ((cx p3 + cy p3) * cz p3))
       (fract ((cx p3 + cz p3) * cy p3))
       (fract ((cy p3 + cz p3) * cx p3)).

(** [float N(float t)] *)
Definition N (t : R) : R := fract (sin (t * 12345.564) * 7658.76).

(** [float Saw(float b, float t)] *)
Definition Saw (b t : R) : R := S 0 b t * S 1 b t.

(** [vec2 DropLayer2(vec2 uv, float t)]: returns (height, trailMask).
    The source reassigns [uv], [id], [x] and [y]; each assignment is a new
    binding here.  [droplets] is computed by the source and never used. *)
Definition DropLayer2 (u : Uniforms) (uv : vec2) (t : R) : vec2 :=
  let UV := uv in
  let uv_x := vx uv + sin (vy uv * 1.5) * 0.05 in
  let uv_y := vy uv + t * 0.75 in
  let a := Vec2 10 2.5 in
  let grid := vscale2 a 2 in
  let id_x := floor (uv_x * vx grid) in
  let colShift := N id_x in
  let uv_y := uv_y + colShift in
  let id_x := floor (uv_x * vx grid) in
  let id_y := floor (uv_y * vy grid) in
  let n := N13 (id_x * 35.2 + id_y * 2376.1) in
  let st := Vec2 (fract (uv_x * vx grid) - 0.5) (fract (uv_y * vy grid) - 0) in
  let randomSize := cz n in
  let sizeHierarchy := randomSize ^ 3 in
  let dropRadius := mix 0.2 0.65 sizeHierarchy * uDropletSize u in
  let x := cx n - 0.5 in
  let y := vy UV * 20 in
  let wiggle := sin (y + sin y + t * 2) * 0.05 in
  let x := x + wiggle * (0.5 - Rabs x) * (cz n - 0.5) in
  let ti := fract (t + cz n) in
  let slideSpeed := mix 0.85 0.95 sizeHierarchy in
  let y := (Saw slideSpeed ti - 0.5) * 0.9 + 0.5 in
  let p := Vec2 x y in
  let d := length2 (vmul2 (vsub2 st p) (Vec2 (vy a) (vx a))) in
  let mainDrop := S dropRadius 0 d in
  let heightMult := mix 0.3 1 sizeHierarchy in
  let mainDrop := mainDrop * heightMult in
  let r := sqrt (S 1 y (vy st)) in
  let cd := Rabs (vx st - x) in
  let trail := S (0.23 * r) (0.15 * r * r) cd in
  let trailFront := S (-0.02) 0.02 (vy st - y) in
  let trail := trail * (trailFront * r * r) in
  let y := vy UV in
  let trail2 := S (0.2 * r) 0 cd in
  let droplets :=
    Rmax 0 (sin (y * (1 - y) * 120) - vy st) * trail2 * trailFront * cz n in
  let y := fract (y * 10) + (vy st - 0.5) in
  let dd := length2 (vsub2 st (Vec2 x y)) in
  let dropletsHeight := S (0.2 * uDropletSize u) 0 dd in
  let combinedHeight :=
    mainDrop + dropletsHeight * trail2 * trailFront * heightMult in
  Vec2 combinedHeight trail.

(** [float StaticDrops(vec2 uv, float t)] *)
Definition StaticDrops (u : Uniforms) (uv : vec2) (t : R) : R :=
  let uv := vscale2 uv 40 in
  let id := Vec2 (floor (vx uv)) (floor (vy uv)) in
  let uv := Vec2 (fract (vx uv) - 0.5) (fract (vy uv) - 0.5) in
  let n := N13 (vx id * 107.45 + vy id * 3543.654) in
  let p := Vec2 ((cx n - 0.5) * 0.7) ((cy n - 0.5) * 0.7) in
  let d := length2 (vsub2 uv p) in
  let fade := Saw 0.025 (fract (t + cz n)) in
  let h := S (0.2 * uDropletSize u) 0 d in
  h * fract (cz n * 10) * fade.

(** The sum of the three layers, [s + m1.x * l1 + m2.x * l2], before the
    final smoothstep of [GetHeightAndTrail]. *)
Definition rawHeight (u : Uniforms) (uv : vec2) (t l0 l1 l2 : R) : R :=
  let s := StaticDrops u uv t * l0 in
  let m1 := DropLayer2 u uv t in
  let m2 := DropLayer2 u (vscale2 uv 1.85) t in
  s + vx m1 * l1 + vx m2 * l2.

(** [vec2 GetHeightAndTrail(vec2 uv, float t, float l0, float l1, float l2)] *)
Definition GetHeightAndTrail
  (u : Uniforms) (uv : vec2) (t l0 l1 l2 : R) : vec2 :=
  let s := StaticDrops u uv t * l0 in
  let m1 := DropLayer2 u uv t in
  let m2 := DropLayer2 u (vscale2 uv 1.85) t in
  let h := s + vx m1 * l1 + vx m2 * l2 in
  let h := smoothstep 0 1 h in
  let trail := Rmax (vy m1 * l1) (vy m2 * l2) in
  Vec2 h trail.

(** *** [void main()], section by section *)

(** [uv = (vUv - 0.5) / uZoom + 0.5] *)
Definition zoomedUV (u : Uniforms) (vUv : vec2) : vec2 :=
  Vec2 ((vx vUv - 0.5) / uZoom u + 0.5) ((vy vUv - 0.5) / uZoom u + 0.5).

(** [physUV = uv * vec2(uResolution.x / uResolution.y, 1.0)] *)
Definition physUV (u : Uniforms) (vUv : vec2) : vec2 :=
  let aspect := Vec2 (vx (uResolution u) / vy (uResolution u)) 1 in
  vmul2 (zoomedUV u vUv) aspect.

(** The "TUNING" block: the gains of the mist layer and of the two moving
    layers, all derived from [uRainIntensity]. *)
Definition staticDropsGain (u : Uniforms) : R := S 0 1 (uRainIntensity u) * 0.3.
Definition layer1Gain (u : Uniforms) : R := S 0 0.8 (uRainIntensity u).
Definition layer2Gain (u : Uniforms) : R := S 0.5 1 (uRainIntensity u) * 0.3.

(** [GetHeightAndTrail(p, T, staticDrops, layer1, layer2)] with
    [T = uTime * uRainSpeed], as [main] calls it three times. *)
Definition heightAndTrailAt (u : Uniforms) (p : vec2) : vec2 :=
  GetHeightAndTrail u p (uTime u * uRainSpeed u)
    (staticDropsGain u) (layer1Gain u) (layer2Gain u).

(** [normal = vec2(h - h_right, h - h_up) * 15.0 * uRefraction] with the
    texel offset [vec2(1.0 / uResolution.y, 0.0)]. *)
Definition surfaceNormal (u : Uniforms) (vUv : vec2) : vec2 :=
  let texel := Vec2 (1 / vy (uResolution u)) 0 in
  let h := vx (heightAndTrailAt u (physUV u vUv)) in
  let h_right := vx (heightAndTrailAt u (vadd2 (physUV u vUv) texel)) in
  let h_up :=
    vx (heightAndTrailAt u
          (vadd2 (physUV u vUv) (Vec2 (vy texel) (vx texel)))) in
  vscale2 (vscale2 (Vec2 (h - h_right) (h - h_up)) 15) (uRefraction u).

(** [refractionUV = uv - normal] *)
Definition refractionUV (u : Uniforms) (vUv : vec2) : vec2 :=
  vsub2 (zoomedUV u vUv) (surfaceNormal u vUv).

(** [focus = mix(uBlurStrength * 6.0, 0.0, S(0.0, 0.4, h + trail))] *)
Definition focusAt (u : Uniforms) (vUv : vec2) : R :=
  let center := heightAndTrailAt u (physUV u vUv) in
  mix (uBlurStrength u * 6) 0 (S 0 0.4 (vx center + vy center)).

(** The [if (uAutoFit)] block: the "cover" remapping of the texture
    coordinate. *)
Definition coverFit (u : Uniforms) (texUv : vec2) : vec2 :=
  if uAutoFit u then
    let screenAspect := vx (uResolution u) / vy (uResolution u) in
    if Rlt_dec (uImgAspect u) screenAspect then
      let r := screenAspect / uImgAspect u in
      Vec2 (vx texUv) ((vy texUv - 0.5) / r + 0.5)
    else
      let r := uImgAspect u / screenAspect in
      Vec2 ((vx texUv - 0.5) / r + 0.5) (vy texUv)
  else texUv.

(** The procedural "Cinematic Atmosphere" background (the [else] branch of
    [if (uHasTexture)]). *)
Definition proceduralSky (u : Uniforms) (vUv bgUV : vec2) : vec3 :=
  let t := uTime u * 1 in
  let colTop := Vec3 0.55 0.75 0.95 in
  let colMid := Vec3 0.98 0.72 0.55 in
  let colBot := Vec3 0.2 0.25 0.5 in
  let waveUV_x := vx bgUV + sin (vy bgUV * 2 + t * 0.8) * 0.1 in
  let waveUV_y := vy bgUV + cos (vx bgUV * 1.5 + t * 0.6) * 0.1 in
  let y := waveUV_y in
  let bg := mix3 colBot colMid (smoothstep (-0.2) 0.5 y) in
  let bg := mix3 bg colTop (smoothstep 0.4 1.1 y) in
  let posA := Vec2 (0.5 + sin (t * 0.3) * 0.7) (0.4 + cos (t * 0.2) * 0.4) in
  let distA := length2 (vmul2 (vsub2 bgUV posA) (Vec2 1 1.5)) in
  let glowA := smoothstep 0.6 0 distA in
  let bg := vadd3 bg (vscale3 (vscale3 (Vec3 1 0.8 0.4) glowA) 0.18) in
  let posB :=
    Vec2 (0.5 + cos (t * 0.4 + 2) * 0.6) (0.3 + sin (t * 0.3) * 0.3) in
  let distB := length2 (vmul2 (vsub2 bgUV posB) (Vec2 1 1.5)) in
  let glowB := smoothstep 0.5 0 distB in
  let bg := vadd3 bg (vscale3 (vscale3 (Vec3 1 0.4 0.5) glowB) 0.15) in
  let posC := Vec2 (0.5 + sin (t * 0.6) * 0.3) (0.8 + cos (t * 0.2) * 0.1) in
  let distC := length2 (vsub2 bgUV posC) in
  let glowC := smoothstep 0.45 0 distC in
  let glowC := glowC * (0.8 + 0.2 * sin (uTime u * 1.5)) in
  let bg := vadd3 bg (vscale3 (vscale3 (Vec3 0.85 0.95 1) glowC) 0.12) in
  let rays := sin (vx bgUV * 3 - uTime u * 2 + vy bgUV * 2) in
  let rays := rays + sin (vx bgUV * 2 + uTime u * 1) in
  let rays := smoothstep 0 1 rays in
  let bg := vadd3 bg (vscale3 (vscale3 (Vec3 1 1 0.9) rays) 0.06) in
  let noise := N (dot2 vUv (Vec2 12.9898 78.233) + uTime u) in
  vadds3 bg ((noise - 0.5) * 0.04).

(** The "Texture Sample" block: the background colour read at the
    coordinate [coord] with blur [focus]. *)
Definition background (u : Uniforms) (vUv coord : vec2) (focus : R) : vec3 :=
  if uHasTexture u then
    rgb (texture2D (uBgTexture u) (coverFit u coord) focus)
  else proceduralSky u vUv coord.

(** The "Lightning Flash" block. *)
Definition lightningFlash (u : Uniforms) (col : vec3) : vec3 :=
  if Rlt_dec 0 (uLightning u) then
    let flashCol := Vec3 0.8 0.9 1 in
    mix3 col flashCol (uLightning u * 0.6)
  else col.

(** The "Lighting" block: specular and fresnel terms masked to the drops,
    then the ambient-occlusion darkening. *)
Definition lighting (normal : vec2) (h : R) (col : vec3) : vec3 :=
  let lightDir := normalize3 (Vec3 (-0.5) 1 0.5) in
  let viewDir := Vec3 0 0 1 in
  let Nn := normalize3 (Vec3 (vx normal * 2) (vy normal * 2) 1) in
  let spec :=
    Rmax 0 (dot3 (reflect (vscale3 lightDir (-1)) Nn) viewDir) ^ 32 * 0.8 in
  let fresnel := (1 - Rmax 0 (dot3 Nn viewDir)) ^ 3 * 0.3 in
  let dropMask := smoothstep 0.01 0.1 h in
  let col := vadds3 col ((spec + fresnel) * dropMask) in
  vscale3 col (mix 1 0.9 (dropMask * length2 normal)).

(** [vig = 1.0 - length(vUv - 0.5) * 0.2; col *= vig] *)
Definition vignette (vUv : vec2) (col : vec3) : vec3 :=
  let vig := 1 - length2 (vsub2 vUv (Vec2 0.5 0.5)) * 0.2 in
  vscale3 col vig.

(** One channel of the "Grading" block:
    [col *= uBrightness; col = (col - 0.5) * uContrast + 0.5]. *)
Definition gradeChannel (u : Uniforms) (c : R) : R :=
  (c * uBrightness u - 0.5) * uContrast u + 0.5.

Definition grading (u : Uniforms) (col : vec3) : vec3 :=
  Vec3 (gradeChannel u (cx col)) (gradeChannel u (cy col))
       (gradeChannel u (cz col)).

(** [void main()]: the value written to [gl_FragColor] for the varying
    [vUv]. *)
Definition main (u : Uniforms) (vUv : vec2) : vec4 :=
  let center := heightAndTrailAt u (physUV u vUv) in
  let h := vx center in
  let normal := surfaceNormal u vUv in
  let col := background u vUv (refractionUV u vUv) (focusAt u vUv) in
  let col := lightningFlash u col in
  let col := lighting normal h col in
  let col := vignette vUv col in
  let col := grading u col in
  Vec4 col 1.

(** The ranges [src/types.ts] documents for the settings that reach the
    shader. *)
Definition documentedRanges (u : Uniforms) : Prop :=
  0 <= uRainIntensity u <= 1 /\ 0 <= uBlurStrength u <= 1 /\
  0.1 <= uRainSpeed u <= 3 /\ 0.5 <= uDropletSize u <= 2 /\
  0 <= uRefraction u <= 1.5 /\ 0.5 <= uZoom u <= 2 /\
  0 <= uBrightness u <= 2 /\ 0 <= uContrast u <= 2.

(** Vocabulary for the cover-fit statement (not in the source): where a
    quad coordinate lies on a [W x H] screen, and where a texture
    coordinate lies on an [iw x ih] image, both in pixels. *)
Definition screenPx (W H : R) (uv : vec2) : vec2 :=
  Vec2 (vx uv * W) (vy uv * H).
Definition imagePx (iw ih : R) (texUv : vec2) : vec2 :=
  Vec2 (vx texUv * iw) (vy texUv * ih).

(** Example inputs: a uniformly white texture, and the uniforms the
    defaults of [App] give on a 1920 x 1080 canvas with the rain switched
    off. *)
Definition whiteTexture : sampler2D := fun _ _ => Vec4 (Vec3 1 1 1) 1.

Definition dryUniforms (brightness contrast : R) : Uniforms :=
  {| uTime := 0; uRainIntensity := 0; uRainSpeed := 0.3;
     uDropletSize := 1.5; uBlurStrength := 0.07;
     uBrightness := brightness; uContrast := contrast;
     uRefraction := 1; uZoom := 1; uLightning := 0;
     uResolution := Vec2 1920 1080; uBgTexture := whiteTexture;
     uHasTexture := true; uAutoFit := true; uImgAspect := 1 |}.

Definition centre : vec2 := Vec2 0.5 0.5.

End Shader.

(** ** The texture-loading effect of the [RainShader] component *)

Module TextureLoad.
Local Open Scope Q_scope.

(** Background URLs, by number. *)
Definition Url : Type := nat.

(** The [THREE.Texture] handed to the [onLoad] callback: which URL it was
    loaded from and the size of [tex.image], when there is one.  (The
    filter, wrap and anisotropy fields the callback sets are constants and
    are left out.) *)
Record Texture : Type := {
  sourceUrl : Url;
  image : option (Q * Q)
}.

(** The props and state of the component that the effect and [useFrame]
    use, and the requests [TextureLoader.load] has started and that have
    not called back yet. *)
Record State : Type := {
  backgroundUrl : option Url;     (* settings.backgroundUrl *)
  texture : option Texture;       (* useState<THREE.Texture | null>(null) *)
  imgAspect : Q;                  (* useState(1.0) *)
  inFlight : list Url
}.

(** The callback given to [load]:
    [if (tex.image) setImgAspect(width / height); setTexture(tex)]. *)
Definition onLoad (tex : Texture) (st : State) : State :=
  {| backgroundUrl := backgroundUrl st;
     texture := Some tex;
     imgAspect := match image tex with
                  | Some (w, h) => w / h
                  | None => imgAspect st
                  end;
     inFlight := inFlight st |}.

(** The effect's body, run when [settings.backgroundUrl] has changed (and
    on the first render).  The effect returns no cleanup. *)
Definition textureEffect (st : State) : State :=
  match backgroundUrl st with
  | Some url =>
      {| backgroundUrl := backgroundUrl st; texture := texture st;
         imgAspect := imgAspect st; inFlight := inFlight st ++ [url] |}
  | None =>
      {| backgroundUrl := backgroundUrl st; texture := None;
         imgAspect := imgAspect st; inFlight := inFlight st |}
  end.

Definition sameUrl (a b : option Url) : bool :=
  match a, b with
  | Some x, Some y => Nat.eqb x y
  | None, None => true
  | _, _ => false
  end.

(** A render with a new [settings.backgroundUrl]. *)
Definition setBackgroundUrl (url : option Url) (st : State) : State :=
  let st' := {| backgroundUrl := url; texture := texture st;
                imgAspect := imgAspect st; inFlight := inFlight st |} in
  if sameUrl (backgroundUrl st) url then st' else textureEffect st'.

Fixpoint removeFirst (u : Url) (l : list Url) : list Url :=
  match l with
  | [] => []
  | x :: rest => if Nat.eqb x u then rest else x :: removeFirst u rest
  end.

Definition isInFlight (u : Url) (st : State) : bool :=
  existsb (Nat.eqb u) (inFlight st).

(** A request in flight finishes: [onLoad] runs with its texture. *)
Definition loadCompletes (u : Url) (img : option (Q * Q)) (st : State)
  : option State :=
  if isInFlight u st then
    Some (onLoad {| sourceUrl := u; image := img |}
            {| backgroundUrl := backgroundUrl st; texture := texture st;
               imgAspect := imgAspect st;
               inFlight := removeFirst u (inFlight st) |})
  else None.

Inductive Label : Type :=
| Select (url : option Url)                      (* pick or clear an image *)
| LoadCompletes (u : Url) (img : option (Q * Q)).

Definition step (l : Label) (st : State) : option State :=
  match l with
  | Select url => Some (setBackgroundUrl url st)
  | LoadCompletes u img => loadCompletes u img st
  end.

Fixpoint run (ls : list Label) (st : State) : option State :=
  match ls with
  | [] => Some st
  | l :: rest =>
      match step l st with
      | Some st' => run rest st'
      | None => None
      end
  end.

(** The component once mounted with [backgroundUrl = DEFAULT_BG = null]. *)
Definition mounted : State :=
  textureEffect
    {| backgroundUrl := None; texture := None; imgAspect := 1.0;
       inFlight := [] |}.

(** What [useFrame] passes to the shader: [uHasTexture] and the texture. *)
Definition uHasTexture (st : State) : bool :=
  match texture st with Some _ => true | None => false end.

End TextureLoad.

(** ** The page: JavaScript state shared by [audioService.ts] and [App] *)

Module Page.
Local Open Scope Q_scope.

(** [a <= b] and [a > b] on JavaScript numbers. *)
Definition leb (a b : Q) : bool := Qle_bool a b.
Definition gtb (a b : Q) : bool := negb (Qle_bool a b).

(** *** Audio elements and the module state of [audioService.ts] *)

Inductive Asset : Type :=
| RAIN_URL | FOREST_RAIN_URL | THUNDER_URL_1 | THUNDER_URL_2
| WIND_URL | MUSIC_URL.

(** The attributes of an [HTMLAudioElement] the service reads or writes
    ([crossOrigin] is set once and never read, and is left out). *)
Record HTMLAudioElement : Type := {
  src : Asset;
  loop : bool;
  paused : bool;
  volume : Q;
  playbackRate : Q;
  currentTime : Q
}.

(** [new Audio(src)] *)
Definition newAudio (a : Asset) : HTMLAudioElement :=
  {| src := a; loop := false; paused := true; volume := 1;
     playbackRate := 1; currentTime := 0 |}.

Definition setLoop (b : bool) (a : HTMLAudioElement) : HTMLAudioElement :=
  {| src := src a; loop := b; paused := paused a; volume := volume a;
     playbackRate := playbackRate a; currentTime := currentTime a |}.

Definition setVolume (v : Q) (a : HTMLAudioElement) : HTMLAudioElement :=
  {| src := src a; loop := loop a; paused := paused a; volume := v;
     playbackRate := playbackRate a; currentTime := currentTime a |}.

Definition setPlaybackRate (r : Q) (a : HTMLAudioElement) : HTMLAudioElement :=
  {| src := src a; loop := loop a; paused := paused a; volume := volume a;
     playbackRate := r; currentTime := currentTime a |}.

Definition setCurrentTime (t : Q) (a : HTMLAudioElement) : HTMLAudioElement :=
  {| src := src a; loop := loop a; paused := paused a; volume := volume a;
     playbackRate := playbackRate a; currentTime := t |}.

Definition setPaused (b : bool) (a : HTMLAudioElement) : HTMLAudioElement :=
  {| src := src a; loop := loop a; paused := b; volume := volume a;
     playbackRate := playbackRate a; currentTime := currentTime a |}.

(** [a.play()]: playback starts when the browser allows it; a rejected
    promise (caught by every caller) leaves the element paused. *)
Definition play (allowed : bool) (a : HTMLAudioElement) : HTMLAudioElement :=
  if allowed then setPaused false a else a.

(** The module-level variables of [audioService.ts]. *)
Record AudioState : Type := {
  rainAudio : option HTMLAudioElement;
  forestAudio : option HTMLAudioElement;
  windAudio : option HTMLAudioElement;
  musicAudio : option HTMLAudioElement;
  thunder1Audio : option HTMLAudioElement;
  thunder2Audio : option HTMLAudioElement;
  thunderPool : list HTMLAudioElement;
  isInitialized : bool;
  globalVolumeScalar : Q
}.

Definition THUNDER_POOL_SIZE : nat := 4.

(** The state when the module is loaded. *)
Definition audioAtLoad : AudioState :=
  {| rainAudio := None; forestAudio := None; windAudio := None;
     musicAudio := None; thunder1Audio := None; thunder2Audio := None;
     thunderPool := []; isInitialized := false; globalVolumeScalar := 1.0 |}.

(** *** The state of [App] that the audio and lightning effects use *)

(** The fields of [AppSettings] the two effects read. *)
Record AppSettings : Type := {
  stormIntensity : Q;
  isAudioPlaying : bool;
  audioVolume : Q
}.

(** The closures a [setTimeout] call of the program can be given.  The
    lightning loop closes over the [settings] of the render whose effect
    created it. *)
Inductive Callback : Type :=
| CbLightningLoop (captured : AppSettings)
    (* () => { triggerLightningEvent(); scheduleLightning(); } *)
| CbDoFlash (brightness : Q)
    (* doFlash, as the second flash of a double flash *)
| CbFlashOff
    (* () => setLightningVal(0) *)
| CbThunderPlay (freeNode : nat) (eventVolume rate : Q).
    (* the playback closure of triggerThunder; freeNode is the index of
       the pooled element it holds *)

(** A pending timer: its id, when [setTimeout] was called, the delay it
    was given and its callback. *)
Record Timer : Type := {
  timerId : nat;
  setAt : Q;
  delay : Q;
  callback : Callback
}.

(** A timer is due after its delay; a negative delay counts as 0. *)
Definition due (t : Timer) : Q := setAt t + Qmax 0 (delay t).

(** What an observer of the page sees happen (a trace kept for the
    statements; the program does not read it). *)
Inductive Event : Type :=
| EvFlash (brightness : Q)        (* doFlash ran: setLightningVal(brightness) *)
| EvThunderCall (distance : Q)    (* triggerThunder(distance) was called *)
| EvThunderPlay (node : nat) (volume rate : Q).  (* play() on a pool slot *)

Record World : Type := {
  now : Q;
  nextTimerId : nat;
  timers : list Timer;
  randomDraws : nat -> Q;      (* the values Math.random() will return *)
  randomPos : nat;
  autoplayAllowed : bool;
  audio : AudioState;
  settings : AppSettings;
  lightningVal : Q;
  lightningLoopRef : option nat;
  trace : list Event           (* latest first *)
}.

Definition withNow (v : Q) (w : World) : World :=
  {| now := v; nextTimerId := nextTimerId w; timers := timers w;
     randomDraws := randomDraws w; randomPos := randomPos w;
     autoplayAllowed := autoplayAllowed w; audio := audio w;
     settings := settings w; lightningVal := lightningVal w;
     lightningLoopRef := lightningLoopRef w; trace := trace w |}.

Definition withTimers (n : nat) (ts : list Timer) (w : World) : World :=
  {| now := now w; nextTimerId := n; timers := ts;
     randomDraws := randomDraws w; randomPos := randomPos w;
     autoplayAllowed := autoplayAllowed w; audio := audio w;
     settings := settings w; lightningVal := lightningVal w;
     lightningLoopRef := lightningLoopRef w; trace := trace w |}.

Definition withRandomPos (n : nat) (w : World) : World :=
  {| now := now w; nextTimerId := nextTimerId w; timers := timers w;
     randomDraws := randomDraws w; randomPos := n;
     autoplayAllowed := autoplayAllowed w; audio := audio w;
     settings := settings w; lightningVal := lightningVal w;
     lightningLoopRef := lightningLoopRef w; trace := trace w |}.

Definition withAutoplayAllowed (b : bool) (w : World) : World :=
  {| now := now w; nextTimerId := nextTimerId w; timers := timers w;
     randomDraws := randomDraws w; randomPos := randomPos w;
     autoplayAllowed := b; audio := audio w;
     settings := settings w; lightningVal := lightningVal w;
     lightningLoopRef := lightningLoopRef w; trace := trace w |}.

Definition withAudio (a : AudioState) (w : World) : World :=
  {| now := now w; nextTimerId := nextTimerId w; timers := timers w;
     randomDraws := randomDraws w; randomPos := randomPos w;
     autoplayAllowed := autoplayAllowed w; audio := a;
     settings := settings w; lightningVal := lightningVal w;
     lightningLoopRef := lightningLoopRef w; trace := trace w |}.

Definition withSettings (s : AppSettings) (w : World) : World :=
  {| now := now w; nextTimerId := nextTimerId w; timers := timers w;
     randomDraws := randomDraws w; randomPos := randomPos w;
     autoplayAllowed := autoplayAllowed w; audio := audio w;
     settings := s; lightningVal := lightningVal w;
     lightningLoopRef := lightningLoopRef w; trace := trace w |}.

Definition withLightningVal (v : Q) (w : World) : World :=
  {| now := now w; nextTimerId := nextTimerId w; timers := timers w;
     randomDraws := randomDraws w; randomPos := randomPos w;
     autoplayAllowed := autoplayAllowed w; audio := audio w;
     settings := settings w; lightningVal := v;
     lightningLoopRef := lightningLoopRef w; trace := trace w |}.

Definition withLightningLoopRef (r : option nat) (w : World) : World :=
  {| now := now w; nextTimerId := nextTimerId w; timers := timers w;
     randomDraws := randomDraws w; randomPos := randomPos w;
     autoplayAllowed := autoplayAllowed w; audio := audio w;
     settings := settings w; lightningVal := lightningVal w;
     lightningLoopRef := r; trace := trace w |}.

Definition emit (e : Event) (w : World) : World :=
  {| now := now w; nextTimerId := nextTimerId w; timers := timers w;
     randomDraws := randomDraws w; randomPos := randomPos w;
     autoplayAllowed := autoplayAllowed w; audio := audio w;
     settings := settings w; lightningVal := lightningVal w;
     lightningLoopRef := lightningLoopRef w; trace := e :: trace w |}.

(** *** Browser primitives *)

(** [Math.random()]: the next draw of the stream. *)
Definition random (w : World) : Q * World :=
  (randomDraws w (randomPos w), withRandomPos (S (randomPos w)) w).

(** [setTimeout(cb, delay)]: returns the new timer's id. *)
Definition setTimeout (cb : Callback) (d : Q) (w : World) : nat * World :=
  let id := nextTimerId w in
  (id, withTimers (S id)
         (timers w ++
          [{| timerId := id; setAt := now w; delay := d; callback := cb |}])
         w).

(** [clearTimeout(id)] *)
Definition clearTimeout (id : nat) (w : World) : World :=
  withTimers (nextTimerId w)
    (filter (fun t => negb (Nat.eqb (timerId t) id)) (timers w)) w.

(** *** Vocabulary of the statements *)

(** The draws of a world are those of [Math.random()]: in [[0,1)]. *)
Definition UnitDraws (w : World) : Prop :=
  forall n : nat, 0 <= randomDraws w n /\ randomDraws w n < 1.

(** Kinds of pending timers and of observed events. *)
Definition isLoop (t : Timer) : bool :=
  match callback t with CbLightningLoop _ => true | _ => false end.
Definition isDoFlash (t : Timer) : bool :=
  match callback t with CbDoFlash _ => true | _ => false end.
Definition isThunderPlay (t : Timer) : bool :=
  match callback t with CbThunderPlay _ _ _ => true | _ => false end.

Definition isFlashEv (e : Event) : bool :=
  match e with EvFlash _ => true | _ => false end.
Definition isThunderCallEv (e : Event) : bool :=
  match e with EvThunderCall _ => true | _ => false end.
Definition isThunderPlayEv (e : Event) : bool :=
  match e with EvThunderPlay _ _ _ => true | _ => false end.

Definition count {A : Type} (f : A -> bool) (l : list A) : nat :=
  length (filter f l).

(** The Armed timers of the lightning scheduler. *)
Definition loopTimers (w : World) : list Timer := filter isLoop (timers w).

End Page.

(** ** [src/services/audioService.ts] *)

Module AudioService.
Import Page.
Local Open Scope Q_scope.

(** The loop that fills the thunder pool:
    [for (let i = 0; i < THUNDER_POOL_SIZE; i++) { ... push(audio) }],
    with [n] iterations left. *)
Fixpoint pushThunderNodes
  (i n : nat) (pool : list HTMLAudioElement) : list HTMLAudioElement :=
  match n with
  | O => pool
  | S n' =>
      let src := if Nat.even i then THUNDER_URL_1 else THUNDER_URL_2 in
      let audio := setLoop false (newAudio src) in
      pushThunderNodes (S i) n' (pool ++ [audio])
  end.

(** [initAudio()] *)
Definition initAudio (w : World) : World :=
  let a := audio w in
  if isInitialized a then w
  else
    let ambient (url : Asset) : HTMLAudioElement :=
      (* new Audio(url); loop = true; volume = 0 ("Start Muted");
         play() from startPlayback *)
      play (autoplayAllowed w) (setVolume 0 (setLoop true (newAudio url))) in
    withAudio
      {| rainAudio := Some (ambient RAIN_URL);
         forestAudio := Some (ambient FOREST_RAIN_URL);
         windAudio := Some (ambient WIND_URL);
         musicAudio := Some (ambient MUSIC_URL);
         thunder1Audio := Some (setLoop true (newAudio THUNDER_URL_1));
         thunder2Audio := Some (setLoop true (newAudio THUNDER_URL_2));
         thunderPool := pushThunderNodes 0 THUNDER_POOL_SIZE (thunderPool a);
         isInitialized := true;
         globalVolumeScalar := globalVolumeScalar a |} w.

(** [setGlobalVolume(volume)].  [forestAudio] is written without a null
    check; it is set exactly when [rainAudio] is. *)
Definition setGlobalVolume (v : Q) (w : World) : World :=
  let a := audio w in
  let g := Qmax 0 (Qmin 1 v) in
  match rainAudio a, musicAudio a with
  | Some rain, Some music =>
      withAudio
        {| rainAudio := Some (setVolume (g * 0.7) rain);
           forestAudio := option_map (setVolume (g * 0.6)) (forestAudio a);
           windAudio := option_map (setVolume (g * 0.4)) (windAudio a);
           musicAudio := Some (setVolume (g * 0.15) music);
           thunder1Audio := thunder1Audio a;
           thunder2Audio := thunder2Audio a;
           thunderPool := thunderPool a;
           isInitialized := isInitialized a;
           globalVolumeScalar := g |} w
  | _, _ =>
      withAudio
        {| rainAudio := rainAudio a;
           forestAudio := forestAudio a;
           windAudio := windAudio a;
           musicAudio := musicAudio a;
           thunder1Audio := thunder1Audio a;
           thunder2Audio := thunder2Audio a;
           thunderPool := thunderPool a;
           isInitialized := isInitialized a;
           globalVolumeScalar := g |} w
  end.

(** The index [Array.prototype.find] stops at. *)
Fixpoint findIndex {A : Type} (f : A -> bool) (l : list A) : option nat :=
  match l with
  | [] => None
  | x :: rest =>
      if f x then Some O
      else match findIndex f rest with
           | Some i => Some (S i)
           | None => None
           end
  end.

(** [thunderPool.find(a => a.paused) || thunderPool[0]], as the index of
    the element found. *)
Definition freeNodeIndex (pool : list HTMLAudioElement) : nat :=
  match findIndex paused pool with
  | Some i => i
  | None => O
  end.

(** [triggerThunder(distance)] *)
Definition triggerThunder (distance : Q) (w : World) : World :=
  let a := audio w in
  if negb (isInitialized a) || leb (globalVolumeScalar a) 0.05 then w
  else
    let freeNode := freeNodeIndex (thunderPool a) in
    let (r1, w) := random w in
    let delayMs := distance * 4000 + r1 * 500 in
    let eventVolume :=
      Qmax 0.1 ((1.0 - distance) * 0.8) * globalVolumeScalar a in
    let (r2, w) := random w in
    let rate := 1.1 - distance * 0.5 + r2 * 0.1 in
    snd (setTimeout (CbThunderPlay freeNode eventVolume rate) delayMs w).

Fixpoint replaceAt {A : Type} (i : nat) (x : A) (l : list A) : list A :=
  match l, i with
  | [], _ => []
  | _ :: rest, O => x :: rest
  | y :: rest, S i' => y :: replaceAt i' x rest
  end.

Definition withThunderPool (pool : list HTMLAudioElement) (w : World) : World :=
  let a := audio w in
  withAudio
    {| rainAudio := rainAudio a; forestAudio := forestAudio a;
       windAudio := windAudio a; musicAudio := musicAudio a;
       thunder1Audio := thunder1Audio a; thunder2Audio := thunder2Audio a;
       thunderPool := pool; isInitialized := isInitialized a;
       globalVolumeScalar := globalVolumeScalar a |} w.

(** The closure [triggerThunder] hands to [setTimeout]:
    [freeNode.volume = eventVolume; freeNode.playbackRate = rate;
     freeNode.currentTime = 0; freeNode.play()].
    The [volume] setter of a media element throws outside [[0,1]], which
    ends the callback. *)
Definition thunderPlayback (freeNode : nat) (eventVolume rate : Q) (w : World)
  : World :=
  match nth_error (thunderPool (audio w)) freeNode with
  | None => w
  | Some node =>
      if leb 0 eventVolume && leb eventVolume 1 then
        let node := setVolume eventVolume node in
        let node := setPlaybackRate rate node in
        let node := setCurrentTime 0 node in
        let node := play (autoplayAllowed w) node in
        emit (EvThunderPlay freeNode eventVolume rate)
          (withThunderPool (replaceAt freeNode node (thunderPool (audio w))) w)
      else w
  end.

(** [resumeAudioContext()] *)
Definition resumeAudioContext (w : World) : World :=
  let a := audio w in
  let resume (o : option HTMLAudioElement) : option HTMLAudioElement :=
    option_map
      (fun e => if paused e then play (autoplayAllowed w) e else e) o in
  withAudio
    {| rainAudio := resume (rainAudio a); forestAudio := resume (forestAudio a);
       windAudio := resume (windAudio a); musicAudio := resume (musicAudio a);
       thunder1Audio := thunder1Audio a; thunder2Audio := thunder2Audio a;
       thunderPool := thunderPool a; isInitialized := isInitialized a;
       globalVolumeScalar := globalVolumeScalar a |} w.

End AudioService.

(** ** The audio and lightning effects of [App] *)

Module App.
Import Page AudioService.
Local Open Scope Q_scope.

(** The defaults of [useState<AppSettings>]. *)
Definition initialSettings : AppSettings :=
  {| stormIntensity := 0.0; isAudioPlaying := true; audioVolume := 1.0 |}.

(** [distance = Math.max(0, Math.min(1, raw - (bias * 0.3)))] *)
Definition strikeDistance (raw bias : Q) : Q :=
  Qmax 0 (Qmin 1 (raw - bias * 0.3)).

(** [brightness = (1.0 - distance) * 0.8 + 0.2] *)
Definition flashBrightness (distance : Q) : Q := (1.0 - distance) * 0.8 + 0.2.

(** [doFlash]:
    [setLightningVal(brightness);
     setTimeout(() => setLightningVal(0), 100 + Math.random() * 200)] *)
Definition doFlash (brightness : Q) (w : World) : World :=
  let w := emit (EvFlash brightness) (withLightningVal brightness w) in
  let (r, w) := random w in
  snd (setTimeout CbFlashOff (100 + r * 200) w).

(** [triggerLightningEvent], closed over the settings [s]. *)
Definition triggerLightningEvent (s : AppSettings) (w : World) : World :=
  let (skip, w) := random w in
  if gtb skip 0.8 then w
  else
    let bias := stormIntensity s in
    let (raw, w) := random w in
    let distance := strikeDistance raw bias in
    let brightness := flashBrightness distance in
    let (dbl, w) := random w in
    let isDouble := gtb dbl 0.7 in
    let w := doFlash brightness w in
    let w :=
      if isDouble then
        let (r, w) := random w in
        snd (setTimeout (CbDoFlash brightness) (150 + r * 150) w)
      else w in
    if isAudioPlaying s then
      triggerThunder distance (emit (EvThunderCall distance) w)
    else w.

(** [scheduleLightning], closed over the settings [s]. *)
Definition scheduleLightning (s : AppSettings) (w : World) : World :=
  if leb (stormIntensity s) 0.01 then w
  else
    let minDelay := 5000 in
    let variableDelay := (1.0 - stormIntensity s) * 40000 in
    let (r, w) := random w in
    let nextDelay := minDelay + r * variableDelay in
    let (id, w) := setTimeout (CbLightningLoop s) nextDelay w in
    withLightningLoopRef (Some id) w.

(** [if (lightningLoopRef.current) clearTimeout(lightningLoopRef.current)]:
    timer ids are positive, so a stored id is always truthy. *)
Definition stopLightningLoop (w : World) : World :=
  match lightningLoopRef w with
  | Some id => clearTimeout id w
  | None => w
  end.

(** The body of the lightning effect, run with the settings of the
    current render. *)
Definition lightningEffect (w : World) : World :=
  let s := settings w in
  let w := stopLightningLoop w in
  if gtb (stormIntensity s) 0 then scheduleLightning s w else w.

(** The cleanup the lightning effect returns. *)
Definition lightningCleanup (w : World) : World := stopLightningLoop w.

(** The "Audio Lifecycle" effect. *)
Definition audioEffect (w : World) : World :=
  let s := settings w in
  if isAudioPlaying s then setGlobalVolume (audioVolume s) (initAudio w)
  else setGlobalVolume 0 w.

(** The first render: both effects run. *)
Definition mount (w : World) : World := lightningEffect (audioEffect w).

(** A render after [updateSettings]: React compares each effect's
    dependencies with those of the previous render, runs the cleanups of
    the effects whose dependencies changed, then their bodies. *)
Definition updateSettings (s : AppSettings) (w : World) : World :=
  let old := settings w in
  let w := withSettings s w in
  let audioDeps :=
    negb (Bool.eqb (isAudioPlaying old) (isAudioPlaying s))
    || negb (Qeq_bool (audioVolume old) (audioVolume s)) in
  let lightningDeps :=
    negb (Qeq_bool (stormIntensity old) (stormIntensity s))
    || negb (Bool.eqb (isAudioPlaying old) (isAudioPlaying s)) in
  let w := if lightningDeps then lightningCleanup w else w in
  let w := if audioDeps then audioEffect w else w in
  if lightningDeps then lightningEffect w else w.

(** *** The event loop *)

(** What a timer does when it fires. *)
Definition runCallback (cb : Callback) (w : World) : World :=
  match cb with
  | CbLightningLoop s => scheduleLightning s (triggerLightningEvent s w)
  | CbDoFlash brightness => doFlash brightness w
  | CbFlashOff => withLightningVal 0 w
  | CbThunderPlay freeNode eventVolume rate =>
      thunderPlayback freeNode eventVolume rate w
  end.

(** The pending timer that is due first (the older one on a tie). *)
Fixpoint earliest (ts : list Timer) : option Timer :=
  match ts with
  | [] => None
  | t :: rest =>
      match earliest rest with
      | None => Some t
      | Some t' => if leb (due t) (due t') then Some t else Some t'
      end
  end.

(** What can happen to the page. *)
Inductive Label : Type :=
| UpdateSettings (s : AppSettings)   (* the user changes a control *)
| Elapse (dt : Q)                    (* time passes, no timer being due *)
| FireTimer                          (* the timer due first runs *)
| ThunderEnded (node : nat)          (* a pooled sound plays to its end *)
| UserGesture.                       (* first click or key press *)

Definition step (l : Label) (w : World) : option World :=
  match l with
  | UpdateSettings s => Some (updateSettings s w)
  | Elapse dt =>
      let free :=
        match earliest (timers w) with
        | Some t => leb (now w + dt) (due t)
        | None => true
        end in
      if leb 0 dt && free then Some (withNow (now w + dt) w) else None
  | FireTimer =>
      match earliest (timers w) with
      | Some t =>
          if leb (due t) (now w) then
            Some (runCallback (callback t) (clearTimeout (timerId t) w))
          else None
      | None => None
      end
  | ThunderEnded node =>
      match nth_error (thunderPool (audio w)) node with
      | Some a =>
          if paused a then None
          else Some (withThunderPool
                       (replaceAt node (setPaused true a)
                          (thunderPool (audio w))) w)
      | None => None
      end
  | UserGesture => Some (resumeAudioContext (withAutoplayAllowed true w))
  end.

Fixpoint run (ls : list Label) (w : World) : option World :=
  match ls with
  | [] => Some w
  | l :: rest =>
      match step l w with
      | Some w' => run rest w'
      | None => None
      end
  end.

(** The page before the first render, and once [App] has mounted. *)
Definition pageAtLoad (draws : nat -> Q) (allowed : bool) : World :=
  {| now := 0; nextTimerId := 1; timers := [];
     randomDraws := draws; randomPos := 0; autoplayAllowed := allowed;
     audio := audioAtLoad; settings := initialSettings;
     lightningVal := 0; lightningLoopRef := None; trace := [] |}.

Definition initialWorld (draws : nat -> Q) (allowed : bool) : World :=
  mount (pageAtLoad draws allowed).

(** [clamp(x, lo, hi)], as the specification writes the distance. *)
Definition clamp (x lo hi : Q) : Q := Qmin (Qmax x lo) hi.

Definition sumQ (l : list Q) : Q := fold_right Qplus 0 l.

(** The [n] equally likely values [0/n, 1/n, ..., (n-1)/n] of a
    [Math.random()] of resolution [1/n]. *)
Definition gridDraws (n : nat) : list Q :=
  map (fun k => inject_Z (Z.of_nat k) / inject_Z (Z.of_nat n)) (seq 0 n).

(** The expected distance of a strike at storm intensity [bias] under that
    uniform draw. *)
Definition meanDistance (n : nat) (bias : Q) : Q :=
  sumQ (map (fun raw => strikeDistance raw bias) (gridDraws n))
  / inject_Z (Z.of_nat n).

(** Example streams of draws: the listed values, then 1/2 for ever. *)
Definition drawsOf (l : list Q) : nat -> Q := fun n => nth n l 0.5.

(** Example settings: a storm intensity with the audio on at full volume. *)
Definition storm (v : Q) : AppSettings :=
  {| stormIntensity := v; isAudioPlaying := true; audioVolume := 1 |}.

(** Example worlds: where the labels [ls] lead from the mounted page
    (autoplay allowed) under the draws [draws]. *)
Definition runFrom (draws : list Q) (ls : list Label) : World :=
  match run ls (initialWorld (drawsOf draws) true) with
  | Some w => w
  | None => pageAtLoad (drawsOf draws) true
  end.

(** [armedWorld]: the user sets the storm to 10%; with the draw 1/2 the
    timer is armed for 23000 ms; one second passes. *)
Definition armedWorld : World :=
  runFrom [] [UpdateSettings (storm 0.1); Elapse 1000].

(** [struckWorld]: the storm is at 50%; the timer fires after 5000 ms, the
    strike is not skipped (distance 0.35, brightness 0.72), it is a double
    flash whose second flash is due 150 ms later, and thunder is scheduled
    1400 ms later; 50 ms after the strike the moment is [struckWorld]. *)
Definition struckDraws : list Q := [0; 0.5; 0.5; 0.9; 0.5; 0; 0; 0; 0].

Definition struckWorld : World :=
  runFrom struckDraws
    [UpdateSettings (storm 0.5); Elapse 5000; FireTimer; Elapse 50].

(** What happens after the storm is set to 0 in [struckWorld]: the second
    flash at 5150 ms, the ends of both flashes, the thunder at 6400 ms. *)
Definition afterZero : list Label :=
  [Elapse 100; FireTimer; Elapse 50; FireTimer; Elapse 150; FireTimer;
   Elapse 1050; FireTimer].

Definition quietedWorld : World :=
  match run (UpdateSettings (storm 0) :: afterZero) struckWorld with
  | Some w => w
  | None => struckWorld
  end.

(** Invariants of the page.  The thunder pool has its four slots exactly
    when the service is initialised, and the global volume scalar is in
    [[0,1]]. *)
Definition AudioInv (a : AudioState) : Prop :=
  (if isInitialized a then length (thunderPool a) = THUNDER_POOL_SIZE
   else thunderPool a = []) /\
  0 <= globalVolumeScalar a /\ globalVolumeScalar a <= 1.

(** The timer [scheduleLightning] arms in the world [w] for the settings
    [s]: delay [5000 + random * (1 - stormIntensity) * 40000]. *)
Definition armedTimer (s : AppSettings) (w : World) : Timer :=
  {| timerId := nextTimerId w; setAt := now w;
     delay := 5000 + randomDraws w (randomPos w)
                     * ((1.0 - stormIntensity s) * 40000);
     callback := CbLightningLoop s |}.

(** Every Armed timer is the one [lightningLoopRef] holds. *)
Definition Tracked (w : World) : Prop :=
  Forall (fun t => lightningLoopRef w = Some (timerId t)) (loopTimers w).

(** Every Armed timer is the one [lightningLoopRef] holds, and it closes
    over the storm intensity and audio flag of the current settings, the
    intensity being above the 0.01 threshold of [scheduleLightning]. *)
Definition LoopInv (w : World) : Prop :=
  Forall
    (fun t =>
       lightningLoopRef w = Some (timerId t) /\
       match callback t with
       | CbLightningLoop s =>
           stormIntensity s == stormIntensity (settings w) /\
           isAudioPlaying s = isAudioPlaying (settings w) /\
           0.01 < stormIntensity s
       | _ => True
       end)
    (loopTimers w).

(** The ids of the pending timers are below the id the next [setTimeout]
    will return. *)
Definition Fresh (w : World) : Prop :=
  Forall (fun t => (timerId t < nextTimerId w)%nat) (timers w).

Definition Inv (w : World) : Prop :=
  UnitDraws w /\ AudioInv (audio w) /\ LoopInv w /\ Fresh w.

(** A piece of code is benign for the scheduler when it leaves the
    settings, the stored timer id, the draws to come and the Armed timers
    as they are. *)
Definition Benign (w w' : World) : Prop :=
  settings w' = settings w /\
  lightningLoopRef w' = lightningLoopRef w /\
  randomDraws w' = randomDraws w /\
  loopTimers w' = loopTimers w.

(** Counters over the trace and the pending timers: flashes seen plus
    second flashes still pending, thunder playbacks started plus playbacks
    still pending, and calls of [triggerThunder]. *)
Definition flashesSeen (w : World) : nat := count isFlashEv (trace w).
Definition flashesPending (w : World) : nat := count isDoFlash (timers w).
Definition thunderPlaysSeen (w : World) : nat :=
  count isThunderPlayEv (trace w).
Definition thunderPlaysPending (w : World) : nat :=
  count isThunderPlay (timers w).
Definition thunderCalls (w : World) : nat := count isThunderCallEv (trace w).

(** A label that does not raise the storm intensity above the threshold
    of [scheduleLightning]. *)
Definition quietLabel (l : Label) : Prop :=
  match l with
  | UpdateSettings s => stormIntensity s <= 0.01
  | _ => True
  end.

(** The worlds the page can be in. *)
Definition Reachable (w : World) : Prop :=
  exists (draws : nat -> Q) (allowed : bool) (ls : list Label),
    (forall n : nat, 0 <= draws n /\ draws n < 1) /\
    run ls (initialWorld draws allowed) = Some w.

End App.

(** ** Vocabulary for further statements about the shader *)

Module ShaderTerms.
Import Glsl Shader.
Local Open Scope R_scope.

(** A coordinate of the unit square, a colour with channels in [[0,1]]. *)
Definition inUnitSquare (p : vec2) : Prop :=
  0 <= vx p <= 1 /\ 0 <= vy p <= 1.

Definition unitColour (c : vec3) : Prop :=
  0 <= cx c <= 1 /\ 0 <= cy c <= 1 /\ 0 <= cz c <= 1.

(** Uniforms that differ from [u] in the rain intensity only. *)
Definition withRain (rain : R) (u : Uniforms) : Uniforms :=
  {| uTime := uTime u; uRainIntensity := rain; uRainSpeed := uRainSpeed u;
     uDropletSize := uDropletSize u; uBlurStrength := uBlurStrength u;
     uBrightness := uBrightness u; uContrast := uContrast u;
     uRefraction := uRefraction u; uZoom := uZoom u;
     uLightning := uLightning u; uResolution := uResolution u;
     uBgTexture := uBgTexture u; uHasTexture := uHasTexture u;
     uAutoFit := uAutoFit u; uImgAspect := uImgAspect u |}.

End ShaderTerms.

(** ** Vocabulary for further statements about the page *)

Module PageTerms.
Import Page AudioService App.
Local Open Scope Q_scope.

(** What a pending timer of the page looks like: an Armed timer has the
    delay [5000 + r * (1 - stormIntensity) * 40000] of a draw [r]; a
    second flash has a brightness in [[0.2, 1]] and comes 150 to 300 ms
    after the first; a flash ends after 100 to 300 ms; a thunder playback
    addresses a slot of the pool with a volume in [(0, 0.8]] and a rate in
    [[0.6, 1.2)], at most 4.5 s after the strike. *)
Definition timerOk (t : Timer) : Prop :=
  match callback t with
  | CbLightningLoop s =>
      exists r : Q,
        0 <= r /\ r < 1 /\
        delay t == 5000 + r * ((1.0 - stormIntensity s) * 40000)
  | CbDoFlash b =>
      0.2 <= b /\ b <= 1 /\ 150 <= delay t /\ delay t < 300
  | CbFlashOff => 100 <= delay t /\ delay t < 300
  | CbThunderPlay node v rate =>
      (node < THUNDER_POOL_SIZE)%nat /\ 0 < v /\ v <= 0.8 /\
      0.6 <= rate /\ rate < 1.2 /\ 0 <= delay t /\ delay t < 4500
  end.

(** [w'] has the pending timers of [w] and newly set ones, numbered from
    the next id of [w] on. *)
Definition Adds (w w' : World) : Prop :=
  exists added : list Timer,
    timers w' = timers w ++ added /\
    nextTimerId w' = (nextTimerId w + length added)%nat /\
    map timerId added = seq (nextTimerId w) (length added) /\
    Forall timerOk added.

(** No two pending timers share an id. *)
Definition Numbered (w : World) : Prop := NoDup (map timerId (timers w)).

Definition TimersOk (w : World) : Prop := Forall timerOk (timers w).

(** The id [lightningLoopRef] holds has been handed out, and a pending
    timer with that id is an Armed one. *)
Definition RefOk (w : World) : Prop :=
  match lightningLoopRef w with
  | Some id =>
      (id < nextTimerId w)%nat /\
      forall t : Timer, In t (timers w) -> timerId t = id -> isLoop t = true
  | None => True
  end.

Definition Sound (w : World) : Prop := Numbered w /\ TimersOk w /\ RefOk w.

(** The flash level is 0, or it is in [[0.2, 1]] and the timer that ends
    the flash is pending. *)
Definition FlashOk (w : World) : Prop :=
  lightningVal w == 0 \/
  (0.2 <= lightningVal w /\ lightningVal w <= 1 /\
   exists t : Timer, In t (timers w) /\ callback t = CbFlashOff).

(** Above the threshold of [scheduleLightning] exactly one timer is
    Armed. *)
Definition Armed1 (w : World) : Prop :=
  0.01 < stormIntensity (settings w) -> exists t : Timer, loopTimers w = [t].

(** The ambient mix: the service is initialised, the global volume scalar
    is the clamped volume setting (0 with the audio switched off), and
    the four ambient tracks loop at 0.7, 0.6, 0.4 and 0.15 times the
    scalar; they play whenever the browser allows playback. *)
Definition ambientOk (allowed : bool) (k g : Q) (o : option HTMLAudioElement)
  : Prop :=
  match o with
  | Some a =>
      volume a = g * k /\ loop a = true /\
      (allowed = true -> paused a = false)
  | None => False
  end.

Definition Mixed (w : World) : Prop :=
  let a := audio w in
  let g := globalVolumeScalar a in
  isInitialized a = true /\
  g == (if isAudioPlaying (settings w)
        then Qmax 0 (Qmin 1 (audioVolume (settings w))) else 0) /\
  ambientOk (autoplayAllowed w) 0.7 g (rainAudio a) /\
  ambientOk (autoplayAllowed w) 0.6 g (forestAudio a) /\
  ambientOk (autoplayAllowed w) 0.4 g (windAudio a) /\
  ambientOk (autoplayAllowed w) 0.15 g (musicAudio a).

(** Example settings and world: the audio switched off at a storm
    intensity; and [struckWorld] with the audio then switched off, at the
    moment (6400 ms) the thunder of the strike is due. *)
Definition audioOff (v : Q) : AppSettings :=
  {| stormIntensity := v; isAudioPlaying := false; audioVolume := 1 |}.

Definition mutedLabels : list Label :=
  [UpdateSettings (storm 0.5); Elapse 5000; FireTimer; Elapse 50;
   UpdateSettings (audioOff 0.5);
   Elapse 100; FireTimer; Elapse 50; FireTimer; Elapse 150; FireTimer;
   Elapse 1050].

Definition mutedWorld : World := runFrom struckDraws mutedLabels.

(** [mutedStrikeWorld]: later, at 20050 ms, the timer re-armed when the
    audio was switched off is due; [afterMutedStrike]: it has fired. *)
Definition mutedStrikeWorld : World :=
  runFrom struckDraws (mutedLabels ++ [FireTimer; Elapse 13650]).

Definition afterMutedStrike : World :=
  runFrom struckDraws (mutedLabels ++ [FireTimer; Elapse 13650; FireTimer]).

End PageTerms.

(** ** [localStorage] *)

Module LocalStorage.
Import String.

(** The store maps keys to strings; [None] is JavaScript's [null]. *)
Definition Storage : Type := string -> option string.

Definition emptyStorage : Storage := fun _ => None.

Definition getItem (key : string) (store : Storage) : option string :=
  store key.

Definition setItem (key value : string) (store : Storage) : Storage :=
  fun k => if String.eqb k key then Some value else store k.

Definition removeItem (key : string) (store : Storage) : Storage :=
  fun k => if String.eqb k key then None else store k.

End LocalStorage.

(** ** [src/components/Editor.tsx] *)

Module Editor.
Import String LocalStorage.
Local Open Scope Q_scope.

(** [window.innerWidth] and [window.innerHeight]. *)
Record Window : Type := { innerWidth : Q; innerHeight : Q }.

Record Dimensions : Type := { width : Q; height : Q }.

Record Position : Type := { x : Q; y : Q }.

(** [a < b] on JavaScript numbers. *)
Definition ltb (a b : Q) : bool := Page.gtb b a.

(** [const isMobile = window.innerWidth < 768] *)
Definition isMobile (win : Window) : bool := ltb (innerWidth win) 768.

(** [const storageKey = `rainy-thoughts-content-${id}`] *)
Definition storageKey (id : string) : string :=
  ("rainy-thoughts-content-" ++ id)%string.

(** The key the component reads and writes:
    [id === 'main' ? 'rainy-thoughts-content' : storageKey]. *)
Definition contentKey (id : string) : string :=
  if String.eqb id "main" then "rainy-thoughts-content"%string
  else storageKey id.

(** The initialiser of [text], with the value it leaves in
    [hasLoadedFromStorage.current]. *)
Definition initialTextState
  (id : string) (typewriterMode : bool) (initialText : string)
  (store : Storage) : string * bool :=
  match getItem (contentKey id) store with
  | Some storedVal => (storedVal, true)
  | None =>
      if typewriterMode then (EmptyString, false) else (initialText, false)
  end.

(** The effect [localStorage.setItem(key, text)], run after the mount and
    after every change of [text]. *)
Definition saveText (id text : string) (store : Storage) : Storage :=
  setItem (contentKey id) text store.

(** The initialiser of [dimensions]. *)
Definition initialDimensions (win : Window) : Dimensions :=
  let w := if isMobile win then Qmin 450 (innerWidth win * 0.9) else 450 in
  let h := if isMobile win then Qmin 500 (innerHeight win * 0.6) else 500 in
  {| width := w; height := h |}.

(** [a ?? b] *)
Definition nullish (a : option Q) (b : Q) : Q :=
  match a with Some v => v | None => b end.

(** The initialiser of [position]. *)
Definition initialPosition (win : Window) (initialX initialY : option Q)
  : Position :=
  let w := if isMobile win then Qmin 450 (innerWidth win * 0.9) else 450 in
  let h := if isMobile win then Qmin 500 (innerHeight win * 0.6) else 500 in
  if isMobile win then
    {| x := (innerWidth win - w) / 2;
       y := nullish initialY ((innerHeight win - h) / 2) |}
  else
    {| x := nullish initialX ((innerWidth win - w) / 2);
       y := nullish initialY ((innerHeight win - h) / 2) |}.

(** [handleResize]: the new dimensions, computed from the [dimensions] the
    handler closes over, and the new position, computed from the previous
    one ([setPosition(prev => ...)]). *)
Definition handleResize
  (id : string) (hasMoved : bool) (win : Window)
  (dimensions : Dimensions) (prev : Position) : Dimensions * Position :=
  let newW :=
    if isMobile win then Qmin 450 (innerWidth win * 0.9)
    else Qmin (width dimensions) (innerWidth win - 40) in
  let newH :=
    if isMobile win then Qmin 500 (innerHeight win * 0.6)
    else Qmin (height dimensions) (innerHeight win - 100) in
  let pos :=
    if isMobile win then
      let x1 := (innerWidth win - newW) / 2 in
      let y1 :=
        if Page.gtb (y prev + newH) (innerHeight win - 80)
        then innerHeight win - newH - 80 else y prev in
      let y2 := if ltb y1 60 then 60 else y1 in
      {| x := x1; y := y2 |}
    else if String.eqb id "main" && negb hasMoved then
      {| x := (innerWidth win - newW) / 2;
         y := (innerHeight win - newH) / 2 |}
    else
      let x1 :=
        if Page.gtb (x prev + newW) (innerWidth win - 20)
        then innerWidth win - newW - 20 else x prev in
      let x2 := if ltb x1 20 then 20 else x1 in
      let y1 :=
        if Page.gtb (y prev + newH) (innerHeight win - 20)
        then innerHeight win - newH - 20 else y prev in
      let y2 := if ltb y1 60 then 60 else y1 in
      {| x := x2; y := y2 |} in
  ({| width := newW; height := newH |}, pos).

(** The state the pointer handlers use. *)
Record Card : Type := {
  dimensions : Dimensions;
  position : Position;
  hasMoved : bool;
  isResizing : bool;
  isDragging : bool;
  dragOffset : Position          (* dragOffset.current *)
}.

(** [startDrag(clientX, clientY)] ([onFocus] aside). *)
Definition startDrag (clientX clientY : Q) (c : Card) : Card :=
  {| dimensions := dimensions c; position := position c;
     hasMoved := true; isResizing := isResizing c; isDragging := true;
     dragOffset := {| x := clientX - x (position c);
                      y := clientY - y (position c) |} |}.

(** [startResize] ([onFocus] aside). *)
Definition startResize (c : Card) : Card :=
  {| dimensions := dimensions c; position := position c;
     hasMoved := true; isResizing := true; isDragging := isDragging c;
     dragOffset := dragOffset c |}.

(** [handleMove(clientX, clientY)]; [rect] is the top-left corner
    [getBoundingClientRect()] reports for the card. *)
Definition handleMove
  (win : Window) (rect : Position) (clientX clientY : Q) (c : Card) : Card :=
  if isResizing c then
    let newWidth :=
      Qmax 300 (Qmin (innerWidth win - 20) (clientX - x rect)) in
    let newHeight :=
      Qmax 200 (Qmin (innerHeight win - 20) (clientY - y rect)) in
    {| dimensions := {| width := newWidth; height := newHeight |};
       position := position c; hasMoved := hasMoved c;
       isResizing := isResizing c; isDragging := isDragging c;
       dragOffset := dragOffset c |}
  else if isDragging c then
    {| dimensions := dimensions c;
       position := {| x := clientX - x (dragOffset c);
                      y := clientY - y (dragOffset c) |};
       hasMoved := hasMoved c; isResizing := isResizing c;
       isDragging := isDragging c; dragOffset := dragOffset c |}
  else c.

(** [onEnd] *)
Definition onEnd (c : Card) : Card :=
  {| dimensions := dimensions c; position := position c;
     hasMoved := hasMoved c; isResizing := false; isDragging := false;
     dragOffset := dragOffset c |}.

End Editor.

(** ** Note management of [App] *)

Module Notes.
Import String LocalStorage.
Local Open Scope Q_scope.

Record NoteData : Type := {
  id : string;
  x : Q;
  y : Q;
  text : option string;
  zIndex : Z
}.

(** The state [useState<NoteData[]>] and [useState(1)] hold. *)
Record NotesState : Type := { notes : list NoteData; topZ : Z }.

(** [isMobile ? Math.min(450, window.innerWidth * 0.9) : 450] *)
Definition cardWidth (win : Editor.Window) : Q :=
  if Editor.isMobile win then Qmin 450 (Editor.innerWidth win * 0.9) else 450.

Definition cardHeight (win : Editor.Window) : Q :=
  if Editor.isMobile win then Qmin 500 (Editor.innerHeight win * 0.6)
  else 500.

Definition welcomeText : string :=
  "Welcome to your quiet space.

The rain falls outside, but here you are safe.
Take a deep breath.

What is on your mind today?".

(** The lazy initialiser of [notes], with [topZ = 1]. *)
Definition initialNotes (win : Editor.Window) (store : Storage) : NotesState :=
  {| notes :=
       [{| id := "main";
           x := (Editor.innerWidth win - cardWidth win) / 2;
           y := (Editor.innerHeight win - cardHeight win) / 2;
           text := match getItem "rainy-thoughts-content" store with
                   | None => Some welcomeText
                   | Some _ => None
                   end;
           zIndex := 1 |}];
     topZ := 1 |}.

(** [addNote(x, y)].  [seenTopZ] is the [topZ] of the render whose closure
    runs; [stamp] is [Date.now().toString()]. *)
Definition addNote
  (seenTopZ : Z) (win : Editor.Window) (stamp : string) (px py : Q)
  (st : NotesState) : NotesState :=
  let spawnX := Qmin px (Editor.innerWidth win - (cardWidth win + 20)) in
  let spawnY := Qmin py (Editor.innerHeight win - 200) in
  let newNote :=
    {| id := stamp; x := Qmax 20 spawnX; y := Qmax 50 spawnY;
       text := None; zIndex := (seenTopZ + 1)%Z |} in
  {| notes := notes st ++ [newNote]; topZ := (topZ st + 1)%Z |}.

(** [deleteNote(id)] *)
Definition deleteNote (target : string) (st : NotesState) (store : Storage)
  : NotesState * Storage :=
  let store' :=
    if String.eqb target "main"
    then removeItem "rainy-thoughts-content" store
    else removeItem ("rainy-thoughts-content-" ++ target)%string store in
  ({| notes := filter (fun n => negb (String.eqb (id n) target)) (notes st);
      topZ := topZ st |},
   store').

(** [bringToFront(id)] *)
Definition bringToFront (seenTopZ : Z) (target : string) (st : NotesState)
  : NotesState :=
  {| notes :=
       map (fun n =>
              if String.eqb (id n) target
              then {| id := id n; x := x n; y := y n; text := text n;
                      zIndex := (seenTopZ + 1)%Z |}
              else n)
           (notes st);
     topZ := (topZ st + 1)%Z |}.

End Notes.

(** ** [src/services/geminiService.ts] *)

Module Gemini.
Import String.
Local Open Scope string_scope.

(** How an awaited promise ended. *)
Inductive Awaited (A : Type) : Type :=
| Resolved (value : A)
| Rejected.
Arguments Resolved {A} value.
Arguments Rejected {A}.

Definition SCENE_PROMPTS : list string :=
  ["A view from inside a modern glass cabin deep in a lush, green Norwegian forest. Rain is streaking heavily against the floor-to-ceiling window. Outside is a sea of pine trees and ferns in mist. Inside is cozy, wood-paneled, and warm. Cinematic, photorealistic, 8k, moody.";
   "Looking out a massive rainy window onto a secluded zen garden filled with wet stones, moss, and maple trees. The perspective is from a low, comfortable seating area. Soft, cool natural light. Peaceful, meditative, highly detailed, 8k.";
   "A wide shot from inside a greenhouse converted into a reading room. Rain pouring on the glass roof and walls. Surrounded by dense, vibrant jungle plants outside the glass. Inside is dry and safe. Atmospheric, moody, nature-focused.";
   "A bedroom view overlooking a misty, rain-soaked valley in the Pacific Northwest. Endless evergreen trees fading into the fog. The window frame is dark wood. Rain droplets focus on the glass. Secluded, quiet, cinematic.";
   "A modern study with a corner glass window looking out at a rainy birch forest in autumn. Wet leaves, grey sky, white tree trunks. The interior reflection is subtle. Melancholic, beautiful, high resolution."]%list.

(** [a || b] on a string that may be [undefined]: the empty string is
    falsy. *)
Definition orElse (a : option string) (b : string) : string :=
  match a with
  | Some s => if String.eqb s EmptyString then b else s
  | None => b
  end.

(** [generateWritingPrompt()].  [configured] tells whether the client [ai]
    exists; [response] is how [generateContent] ended, with the [text] of
    the response. *)
Definition generateWritingPrompt
  (configured : bool) (response : Awaited (option string)) : string :=
  if negb configured then "Soft rain drifts through quiet thoughts."
  else
    match response with
    | Resolved text => orElse text "Soft rain whispers secrets to the quiet earth."
    | Rejected => "Listen to the rain and let your thoughts drift."
    end.

(** [SCENE_PROMPTS[Math.floor(Math.random() * SCENE_PROMPTS.length)]] for
    the draw [r]; [None] is [undefined]. *)
Definition randomPrompt (r : Q) : option string :=
  let i := Qfloor (r * inject_Z (Z.of_nat (List.length SCENE_PROMPTS))) in
  if (i <? 0)%Z then None else nth_error SCENE_PROMPTS (Z.to_nat i).

Record InlineData : Type := { mimeType : string; data : string }.

(** A part of the response; [inlineData] may be absent. *)
Record Part : Type := { inlineData : option InlineData }.

(** The [for] loop over the parts: the data URL of the first part that
    has inline data. *)
Fixpoint firstInline (parts : list Part) : option string :=
  match parts with
  | nil => None
  | part :: rest =>
      match inlineData part with
      | Some d => Some ("data:" ++ mimeType d ++ ";base64," ++ data d)
      | None => firstInline rest
      end
  end.

(** [generateStudyBackground()].  Without a client, [ai.models] throws
    inside the [try]; [response] is how [generateContent] ended, with
    [candidates?.[0]?.content?.parts]. *)
Definition generateStudyBackground
  (configured : bool) (response : Awaited (option (list Part)))
  : option string :=
  if negb configured then None
  else
    match response with
    | Resolved (Some parts) => firstInline parts
    | Resolved None => firstInline nil
    | Rejected => None
    end.

(** [generateNewScene] of [App]: the [backgroundUrl] setting after the
    call, given the result [bgUrl] of [generateStudyBackground]. *)
Definition generateNewScene
  (isSceneLoading : bool) (bgUrl : option string)
  (backgroundUrl : option string) : option string :=
  if isSceneLoading then backgroundUrl
  else
    match bgUrl with
    | Some u => if String.eqb u EmptyString then backgroundUrl else Some u
    | None => backgroundUrl
    end.

End Gemini.

(** ** The prompt banner: [handleSpark], [handlePrompt], the [prompt] effect *)

Module PromptBanner.
Import String.

(** [aiPrompt] and [showEditor] of [App], [showPrompt] of the main
    [Editor], [isGenerating] of [Controls]. *)
Record State : Type := {
  aiPrompt : option string;
  showEditor : bool;
  showPrompt : bool;
  isGenerating : bool
}.

Definition atLoad : State :=
  {| aiPrompt := None; showEditor := true; showPrompt := false;
     isGenerating := false |}.

(** [if (prompt)]: a string that is neither [null] nor empty. *)
Definition truthy (p : option string) : bool :=
  match p with
  | Some s => negb (String.eqb s EmptyString)
  | None => false
  end.

Definition samePrompt (a b : option string) : bool :=
  match a, b with
  | Some s, Some t => String.eqb s t
  | None, None => true
  | _, _ => false
  end.

(** [handlePrompt(prompt)] of [App], followed by the render it causes:
    the effect of the main [Editor] that depends on [prompt] runs when
    the prompt has changed, and shows the banner if the prompt is truthy
    (its 45 s timer is [promptTimeout]). *)
Definition handlePrompt (prompt : string) (st : State) : State :=
  let changed := negb (samePrompt (aiPrompt st) (Some prompt)) in
  {| aiPrompt := Some prompt;
     showEditor := if negb (showEditor st) then true else showEditor st;
     showPrompt :=
       if changed && truthy (Some prompt) then true else showPrompt st;
     isGenerating := isGenerating st |}.

(** The timer of the effect fires: [setShowPrompt(false)]. *)
Definition promptTimeout (st : State) : State :=
  {| aiPrompt := aiPrompt st; showEditor := showEditor st;
     showPrompt := false; isGenerating := isGenerating st |}.

(** [handleSpark] of [Controls], from the click to the end of the
    [await]: nothing happens while a generation is running. *)
Definition handleSpark
  (configured : bool) (response : Gemini.Awaited (option string))
  (st : State) : State :=
  if isGenerating st then st
  else handlePrompt (Gemini.generateWritingPrompt configured response) st.

(** The banner is on screen. *)
Definition bannerVisible (st : State) : bool :=
  showEditor st && showPrompt st && truthy (aiPrompt st).

End PromptBanner.

(** ** Vocabulary for statements about the notes and the texture *)

Module UiTerms.
Import String.

(** No note lies above [topZ]. *)
Definition Layered (st : Notes.NotesState) : Prop :=
  Forall (fun n => (Notes.zIndex n <= Notes.topZ st)%Z) (Notes.notes st).

(** Nothing is loading, and the texture on screen is the one of the
    selected image (none when no image is selected). *)
Definition Settled (st : TextureLoad.State) : Prop :=
  TextureLoad.inFlight st = [] /\
  match TextureLoad.backgroundUrl st with
  | Some u =>
      exists t : TextureLoad.Texture,
        TextureLoad.texture st = Some t /\ TextureLoad.sourceUrl t = u
  | None => TextureLoad.texture st = None
  end.

(** The user selects [sel] and lets the load it starts, if any, finish
    (with image size [img]) before doing anything else. *)
Definition selectAndWait
  (sel : option TextureLoad.Url) (img : option (Q * Q))
  (st : TextureLoad.State) : option TextureLoad.State :=
  let st1 := TextureLoad.setBackgroundUrl sel st in
  match TextureLoad.inFlight st1 with
  | [] => Some st1
  | u :: _ => TextureLoad.loadCompletes u img st1
  end.

End UiTerms.

(** ** [Controls]: the sliders of the settings panel *)

Module Controls.
Local Open Scope Q_scope.

(** The numeric fields of [AppSettings] ([src/types.ts]). *)
Inductive Field : Type :=
| rainIntensity | glassBlur | rainSpeed | rainDropletSize | stormIntensity
| refraction | zoom | brightness | contrast
| editorOpacity | editorBlur | editorRadius | editorNoise | editorShadow
| editorSaturation | audioVolume.

Definition Field_eqb (f g : Field) : bool :=
  match f, g with
  | rainIntensity, rainIntensity | glassBlur, glassBlur
  | rainSpeed, rainSpeed | rainDropletSize, rainDropletSize
  | stormIntensity, stormIntensity | refraction, refraction
  | zoom, zoom | brightness, brightness | contrast, contrast
  | editorOpacity, editorOpacity | editorBlur, editorBlur
  | editorRadius, editorRadius | editorNoise, editorNoise
  | editorShadow, editorShadow | editorSaturation, editorSaturation
  | audioVolume, audioVolume => true
  | _, _ => false
  end.

(** The numeric part of the settings object. *)
Definition Settings : Type := Field -> Q.

(** The defaults of [useState<AppSettings>] in [App]. *)
Definition defaults : Settings :=
  fun f =>
    match f with
    | rainIntensity => 0.26 | glassBlur => 0.07 | rainSpeed => 0.3
    | rainDropletSize => 1.5 | stormIntensity => 0.0
    | refraction => 1.0 | zoom => 1.0
    | brightness => 1.1 | contrast => 1.0
    | editorOpacity => 30 | editorBlur => 5 | editorRadius => 32
    | editorNoise => 15 | editorShadow => 50 | editorSaturation => 100
    | audioVolume => 1.0
    end.

(** The range the comment of [src/types.ts] gives for a field
    ([audioVolume] has none). *)
Definition documented (f : Field) : option (Q * Q) :=
  match f with
  | rainIntensity => Some (0, 1) | glassBlur => Some (0, 1)
  | rainSpeed => Some (0.1, 3.0) | rainDropletSize => Some (0.5, 2.0)
  | stormIntensity => Some (0, 1)
  | refraction => Some (0, 1.5) | zoom => Some (0.5, 2.0)
  | brightness => Some (0, 2) | contrast => Some (0, 2)
  | editorOpacity => Some (0, 100) | editorBlur => Some (0, 50)
  | editorRadius => Some (0, 50) | editorNoise => Some (0, 100)
  | editorShadow => Some (0, 100) | editorSaturation => Some (0, 200)
  | audioVolume => None
  end.

(** [updateSettings({ field: value })]: [{ ...prev, ...newSettings }]. *)
Definition updateSettings (f : Field) (value : Q) (prev : Settings)
  : Settings :=
  fun g => if Field_eqb g f then value else prev g.

(** The sliders, by their labels. *)
Inductive Slider : Type :=
| RainIntensity | DropSize | Storm | GlassBlur | Speed | Volume
| Refraction | Zoom | Brightness | Contrast
| Opacity | Blur | Radius | Noise | Shadow.

(** [min] and [max] of the range input. *)
Definition min (s : Slider) : Q :=
  match s with
  | DropSize => 0.5 | Speed => 0.1 | Zoom => 50
  | _ => 0
  end.

Definition max (s : Slider) : Q :=
  match s with
  | RainIntensity => 100 | DropSize => 2.0 | Storm => 100
  | GlassBlur => 100 | Speed => 3.0 | Volume => 100
  | Refraction => 200 | Zoom => 200
  | Brightness => 2.0 | Contrast => 2.0
  | Opacity => 100 | Blur => 50 | Radius => 50 | Noise => 50
  | Shadow => 100
  end.

(** The field a slider writes. *)
Definition field (s : Slider) : Field :=
  match s with
  | RainIntensity => rainIntensity | DropSize => rainDropletSize
  | Storm => stormIntensity | GlassBlur => glassBlur | Speed => rainSpeed
  | Volume => audioVolume | Refraction => refraction | Zoom => zoom
  | Brightness => brightness | Contrast => contrast
  | Opacity => editorOpacity | Blur => editorBlur | Radius => editorRadius
  | Noise => editorNoise | Shadow => editorShadow
  end.

(** The [onChange] of a slider, for the value [v] of the range input. *)
Definition onChange (s : Slider) (v : Q) (prev : Settings) : Settings :=
  match s with
  | RainIntensity | Storm | GlassBlur | Volume | Refraction | Zoom =>
      updateSettings (field s) (v / 100) prev
  | _ => updateSettings (field s) v prev
  end.

(** A value is within the range [src/types.ts] documents for its field. *)
Definition withinDocumented (f : Field) (q : Q) : Prop :=
  match documented f with
  | Some (lo, hi) => lo <= q /\ q <= hi
  | None => True
  end.

End Controls.

(** ** The word counter of the note card *)

Module WordCount.

Section Words.

(** The characters of the text and the class [\s] of the regular
    expression. *)
Variable char : Type.
Variable isSpace : char -> bool.

(** [text.split(/\s+/)]: the pieces between the maximal runs of white
    space; [cur] is the piece being read (reversed) and [inRun] tells
    whether the previous character was white space. *)
Fixpoint splitFrom (cur : list char) (inRun : bool) (text : list char)
  : list (list char) :=
  match text with
  | [] => [rev cur]
  | c :: rest =>
      if isSpace c then
        if inRun then splitFrom [] true rest
        else rev cur :: splitFrom [] true rest
      else splitFrom (c :: cur) false rest
  end.

Definition split (text : list char) : list (list char) :=
  splitFrom [] false text.

(** [text.split(/\s+/).filter(w => w.length > 0).length] *)
Definition wordCount (text : list char) : nat :=
  length (filter (fun w => Nat.ltb 0 (length w)) (split text)).

(** The number of places where a word starts: a character that is not
    white space, at the start of the text or after white space. *)
Fixpoint wordStarts (afterSpace : bool) (text : list char) : nat :=
  match text with
  | [] => 0
  | c :: rest =>
      if isSpace c then wordStarts true rest
      else (if afterSpace then 1 else 0) + wordStarts false rest
  end.

End Words.

End WordCount.

(* ================================================================== *)
(** * Part II: properties                                              *)
(* ================================================================== *)

(** ** Ranges of the GLSL built-ins *)

Module GlslFacts.
Import Glsl.
Local Open Scope R_scope.

Lemma fract_range (x : R) : 0 <= fract x < 1.
Proof.
  unfold fract, floor.
  destruct (base_fp x) as [Hge Hlt].
  unfold frac_part in Hge, Hlt.
  split; lra.
Qed.

Lemma clamp01_range (x : R) : 0 <= clamp x 0 1 <= 1.
Proof.
  unfold clamp, Rmin, Rmax.
  destruct (Rle_dec x 0); destruct (Rle_dec _ 1); lra.
Qed.

Lemma clamp01_nonpos (x : R) : x <= 0 -> clamp x 0 1 = 0.
Proof.
  intros Hx. unfold clamp, Rmin, Rmax.
  destruct (Rle_dec x 0); destruct (Rle_dec _ 1); lra.
Qed.

Lemma hermite_range (t : R) : 0 <= t <= 1 -> 0 <= t * t * (3 - 2 * t) <= 1.
Proof.
  intros [H0 H1]. split.
  - apply Rmult_le_pos; [apply Rmult_le_pos|]; lra.
  - assert (0 <= (1 - t) * (1 - t) * (1 + 2 * t)).
    { apply Rmult_le_pos; [apply Rmult_le_pos|]; lra. }
    nra.
Qed.

Lemma smoothstep_range (e0 e1 x : R) : 0 <= smoothstep e0 e1 x <= 1.
Proof.
  unfold smoothstep. apply hermite_range, clamp01_range.
Qed.

(** At its first edge [smoothstep] is 0, whatever the second edge. *)
Lemma smoothstep_at_edge0 (e0 e1 : R) : smoothstep e0 e1 e0 = 0.
Proof.
  unfold smoothstep.
  replace ((e0 - e0) / (e1 - e0)) with 0 by (unfold Rdiv; ring).
  rewrite clamp01_nonpos by lra. ring.
Qed.

(** Below the first edge of an increasing pair [smoothstep] is 0. *)
Lemma smoothstep_below (e0 e1 x : R) :
  e0 < e1 -> x <= e0 -> smoothstep e0 e1 x = 0.
Proof.
  intros He Hx. unfold smoothstep.
  rewrite clamp01_nonpos; [ring|].
  unfold Rdiv.
  assert (0 < / (e1 - e0)) by (apply Rinv_0_lt_compat; lra).
  nra.
Qed.

Lemma mix_range (a b t lo hi : R) :
  lo <= a <= hi -> lo <= b <= hi -> 0 <= t <= 1 -> lo <= mix a b t <= hi.
Proof. unfold mix. intros. nra. Qed.

Lemma sqrt_unit_range (x : R) : 0 <= x <= 1 -> 0 <= sqrt x <= 1.
Proof.
  intros [H0 H1]. split; [apply sqrt_pos|].
  rewrite <- sqrt_1. apply sqrt_le_1; lra.
Qed.

Lemma pow3_unit_range (x : R) : 0 <= x <= 1 -> 0 <= x ^ 3 <= 1.
Proof.
  intros [H0 H1]. split; [apply pow_le; lra|].
  simpl. assert (0 <= x * x <= 1) by nra. nra.
Qed.

Lemma unit_mul (a b : R) : 0 <= a <= 1 -> 0 <= b <= 1 -> 0 <= a * b <= 1.
Proof. intros [Ha0 Ha1] [Hb0 Hb1]. split; nra. Qed.

Lemma length2_zero : length2 (Vec2 0 0) = 0.
Proof.
  unfold length2; simpl.
  replace (0 * 0 + 0 * 0) with 0 by ring. apply sqrt_0.
Qed.

End GlslFacts.

(** ** The fragment shader: hash functions, layers, compositor, main *)

Module ShaderProps.
Import Glsl Shader GlslFacts.
Local Open Scope R_scope.

(** Replace every [S a b c] of the goal by a variable known to lie in
    [[0,1]]. *)
Ltac abstract_S :=
  repeat match goal with
  | |- context [S ?a ?b ?c] =>
      let H := fresh "HS" in
      let s := fresh "s" in
      pose proof (smoothstep_range a b c) as H;
      change (smoothstep a b c) with (S a b c) in H;
      set (s := S a b c) in *; clearbody s
  end.

Lemma N13_range (p : R) :
  0 <= cx (N13 p) < 1 /\ 0 <= cy (N13 p) < 1 /\ 0 <= cz (N13 p) < 1.
Proof.
  unfold N13; cbn [cx cy cz]. repeat split; apply fract_range.
Qed.

Lemma N_range (t : R) : 0 <= N t < 1.
Proof. unfold N. apply fract_range. Qed.

Lemma Saw_range (b t : R) : 0 <= Saw b t <= 1.
Proof. unfold Saw. abstract_S. nra. Qed.

Lemma heightMult_range (p : R) : 0.3 <= mix 0.3 1 (cz (N13 p) ^ 3) <= 1.
Proof.
  destruct (N13_range p) as (_ & _ & Hz).
  apply mix_range; try lra. apply pow3_unit_range; lra.
Qed.

(** One moving layer: the height is at most 2 (main drop plus trail
    droplets, each at most the height multiplier), the trail mask at
    most 1. *)
Lemma DropLayer2_range (u : Uniforms) (uv : vec2) (t : R) :
  0 <= vx (DropLayer2 u uv t) <= 2 /\ 0 <= vy (DropLayer2 u uv t) <= 1.
Proof.
  unfold DropLayer2; cbv zeta; cbn [vx vy].
  match goal with
  | |- context [mix 0.3 1 (cz (N13 ?p) ^ 3)] =>
      pose proof (heightMult_range p) as Hm;
      set (hm := mix 0.3 1 (cz (N13 p) ^ 3)) in *; clearbody hm
  end.
  split.
  - abstract_S.
    assert (Hh : 0 <= hm <= 1) by lra.
    pose proof (unit_mul _ _ HS Hh).
    pose proof (unit_mul _ _ (unit_mul _ _ (unit_mul _ _ HS0 HS1) HS2) Hh).
    lra.
  - match goal with
    | |- context [sqrt ?x] =>
        let Hr := fresh "Hr" in
        assert (Hr : 0 <= sqrt x <= 1)
          by (apply sqrt_unit_range, smoothstep_range);
        set (r := sqrt x) in *; clearbody r
    end.
    abstract_S.
    apply unit_mul; [assumption|].
    apply unit_mul; [apply unit_mul|]; assumption.
Qed.

Lemma StaticDrops_range (u : Uniforms) (uv : vec2) (t : R) :
  0 <= StaticDrops u uv t <= 1.
Proof.
  unfold StaticDrops; cbv zeta.
  match goal with
  | |- context [fract (cz ?n * 10)] =>
      pose proof (fract_range (cz n * 10)) as Hf;
      set (f := fract (cz n * 10)) in *; clearbody f
  end.
  match goal with
  | |- context [Saw ?b ?x] =>
      pose proof (Saw_range b x) as Hs; set (fade := Saw b x) in *;
      clearbody fade
  end.
  abstract_S.
  apply unit_mul; [apply unit_mul|]; try assumption. lra.
Qed.

Lemma staticDropsGain_range (u : Uniforms) : 0 <= staticDropsGain u <= 0.3.
Proof. unfold staticDropsGain. abstract_S. lra. Qed.

Lemma layer1Gain_range (u : Uniforms) : 0 <= layer1Gain u <= 1.
Proof. unfold layer1Gain. abstract_S. lra. Qed.

Lemma layer2Gain_range (u : Uniforms) : 0 <= layer2Gain u <= 0.3.
Proof. unfold layer2Gain. abstract_S. lra. Qed.

(** The compositor's height is the smoothstep of [rawHeight]. *)
Lemma GetHeightAndTrail_height (u : Uniforms) (uv : vec2) (t l0 l1 l2 : R) :
  vx (GetHeightAndTrail u uv t l0 l1 l2) =
  smoothstep 0 1 (rawHeight u uv t l0 l1 l2).
Proof. reflexivity. Qed.

Lemma rawHeight_range (u : Uniforms) (uv : vec2) (t l0 l1 l2 : R) :
  0 <= l0 <= 0.3 -> 0 <= l1 <= 1 -> 0 <= l2 <= 0.3 ->
  0 <= rawHeight u uv t l0 l1 l2 <= 2.9.
Proof.
  intros H0 H1 H2. unfold rawHeight; cbv zeta.
  pose proof (StaticDrops_range u uv t) as Hs.
  destruct (DropLayer2_range u uv t) as [Ha _].
  destruct (DropLayer2_range u (vscale2 uv 1.85) t) as [Hb _].
  set (s := StaticDrops u uv t) in *; clearbody s.
  set (a := vx (DropLayer2 u uv t)) in *; clearbody a.
  set (b := vx (DropLayer2 u (vscale2 uv 1.85) t)) in *; clearbody b.
  split; nra.
Qed.

Lemma trail_range (u : Uniforms) (uv : vec2) (t l0 l1 l2 : R) :
  0 <= l1 <= 1 -> 0 <= l2 <= 1 ->
  0 <= vy (GetHeightAndTrail u uv t l0 l1 l2) <= 1.
Proof.
  intros H1 H2. unfold GetHeightAndTrail; cbv zeta; cbn [vx vy].
  destruct (DropLayer2_range u uv t) as [_ Ha].
  destruct (DropLayer2_range u (vscale2 uv 1.85) t) as [_ Hb].
  set (a := vy (DropLayer2 u uv t)) in *; clearbody a.
  set (b := vy (DropLayer2 u (vscale2 uv 1.85) t)) in *; clearbody b.
  unfold Rmax. destruct (Rle_dec (a * l1) (b * l2)); split; nra.
Qed.

(** *** Which uniforms the layers read *)

Lemma DropLayer2_frame (u1 u2 : Uniforms) (uv : vec2) (t : R) :
  uDropletSize u1 = uDropletSize u2 ->
  DropLayer2 u1 uv t = DropLayer2 u2 uv t.
Proof. intros H. unfold DropLayer2. rewrite H. reflexivity. Qed.

Lemma StaticDrops_frame (u1 u2 : Uniforms) (uv : vec2) (t : R) :
  uDropletSize u1 = uDropletSize u2 ->
  StaticDrops u1 uv t = StaticDrops u2 uv t.
Proof. intros H. unfold StaticDrops. rewrite H. reflexivity. Qed.

(** C1. The hash functions [N13] and [N] are functions of their seed alone
    (they take no uniform and no state), with values in [[0,1)^3] and
    [[0,1)]; and the height-field compositor [GetHeightAndTrail] is a
    function of [(uv, t)], the layer gains and the droplet-size setting
    alone: two calls made under any two uniform environments that agree on
    [uDropletSize] (whatever [uTime], the flash value or any other frame
    state are) return the same pair. *)
Theorem C1_hashes_and_compositor_deterministic :
  (forall p : R,
     0 <= cx (N13 p) < 1 /\ 0 <= cy (N13 p) < 1 /\ 0 <= cz (N13 p) < 1) /\
  (forall t : R, 0 <= N t < 1) /\
  (forall (u1 u2 : Uniforms) (uv : vec2) (t l0 l1 l2 : R),
     uDropletSize u1 = uDropletSize u2 ->
     GetHeightAndTrail u1 uv t l0 l1 l2 = GetHeightAndTrail u2 uv t l0 l1 l2).
Proof.
  split; [exact N13_range|]. split; [exact N_range|].
  intros u1 u2 uv t l0 l1 l2 H.
  unfold GetHeightAndTrail.
  rewrite (StaticDrops_frame u1 u2 uv t H).
  rewrite (DropLayer2_frame u1 u2 uv t H).
  rewrite (DropLayer2_frame u1 u2 (vscale2 uv 1.85) t H).
  reflexivity.
Qed.

(** Two frames of the dry example that differ in time, flash and grading
    give the same height and trail at the centre. *)
Lemma C1_witness :
  GetHeightAndTrail (dryUniforms 1.1 1) centre 2 0.3 1 0.3 =
  GetHeightAndTrail
    {| uTime := 7; uRainIntensity := 1; uRainSpeed := 3;
       uDropletSize := 1.5; uBlurStrength := 1;
       uBrightness := 2; uContrast := 2;
       uRefraction := 0; uZoom := 2; uLightning := 1;
       uResolution := Vec2 800 600; uBgTexture := whiteTexture;
       uHasTexture := false; uAutoFit := false; uImgAspect := 2 |}
    centre 2 0.3 1 0.3.
Proof.
  apply (proj2 (proj2 C1_hashes_and_compositor_deterministic)).
  reflexivity.
Defined.

(** *** Rain switched off *)

Lemma gains_without_rain (u : Uniforms) :
  uRainIntensity u = 0 ->
  staticDropsGain u = 0 /\ layer1Gain u = 0 /\ layer2Gain u = 0.
Proof.
  intros H. unfold staticDropsGain, layer1Gain, layer2Gain, S. rewrite H.
  rewrite !smoothstep_at_edge0.
  rewrite (smoothstep_below 0.5 1 0) by lra.
  repeat split; ring.
Qed.

Lemma GetHeightAndTrail_no_gain (u : Uniforms) (p : vec2) (t : R) :
  GetHeightAndTrail u p t 0 0 0 = Vec2 0 0.
Proof.
  unfold GetHeightAndTrail; cbv zeta.
  rewrite !Rmult_0_r, !Rplus_0_r, smoothstep_at_edge0.
  f_equal. unfold Rmax. destruct (Rle_dec 0 0); reflexivity.
Qed.

Lemma heightAndTrailAt_without_rain (u : Uniforms) (p : vec2) :
  uRainIntensity u = 0 -> heightAndTrailAt u p = Vec2 0 0.
Proof.
  intros H. unfold heightAndTrailAt.
  destruct (gains_without_rain u H) as (-> & -> & ->).
  apply GetHeightAndTrail_no_gain.
Qed.

Lemma surfaceNormal_without_rain (u : Uniforms) (vUv : vec2) :
  uRainIntensity u = 0 -> surfaceNormal u vUv = Vec2 0 0.
Proof.
  intros H. unfold surfaceNormal; cbv zeta.
  rewrite !(heightAndTrailAt_without_rain u _ H).
  unfold vscale2; cbn [vx vy]. f_equal; ring.
Qed.

Lemma refractionUV_without_rain (u : Uniforms) (vUv : vec2) :
  uRainIntensity u = 0 -> refractionUV u vUv = zoomedUV u vUv.
Proof.
  intros H. unfold refractionUV.
  rewrite (surfaceNormal_without_rain u vUv H).
  unfold vsub2, zoomedUV; cbn [vx vy]. f_equal; ring.
Qed.

Lemma focusAt_without_rain (u : Uniforms) (vUv : vec2) :
  uRainIntensity u = 0 -> focusAt u vUv = uBlurStrength u * 6.
Proof.
  intros H. unfold focusAt; cbv zeta.
  rewrite (heightAndTrailAt_without_rain u _ H); cbn [vx vy].
  unfold S. replace (0 + 0) with 0 by ring.
  rewrite smoothstep_at_edge0. unfold mix. ring.
Qed.

(** Where the height and the normal vanish the lighting block changes
    nothing. *)
Lemma lighting_flat (col : vec3) : lighting (Vec2 0 0) 0 col = col.
Proof.
  unfold lighting; cbv zeta.
  rewrite (smoothstep_below 0.01 0.1 0) by lra.
  destruct col as [r g b].
  unfold vscale3, vadds3, mix; cbn [cx cy cz]. f_equal; ring.
Qed.

Lemma main_without_rain (u : Uniforms) (vUv : vec2) :
  uRainIntensity u = 0 ->
  main u vUv =
  Vec4 (grading u (vignette vUv (lightningFlash u
          (background u vUv (zoomedUV u vUv) (uBlurStrength u * 6))))) 1.
Proof.
  intros H. unfold main; cbv zeta.
  rewrite (heightAndTrailAt_without_rain u _ H),
          (surfaceNormal_without_rain u vUv H),
          (refractionUV_without_rain u vUv H),
          (focusAt_without_rain u vUv H).
  cbn [vx]. rewrite lighting_flat. reflexivity.
Qed.

(** The dry example at the centre of the screen: the white texture, no
    flash, vignette 1, so each channel is the graded value of 1. *)
Lemma main_dry_centre (b k : R) :
  rgb (main (dryUniforms b k) centre) =
  Vec3 ((b - 0.5) * k + 0.5) ((b - 0.5) * k + 0.5) ((b - 0.5) * k + 0.5).
Proof.
  rewrite main_without_rain by reflexivity. cbn [rgb].
  unfold background, lightningFlash.
  cbn [uHasTexture uBgTexture uLightning dryUniforms].
  destruct (Rlt_dec 0 0) as [Hlt|_]; [lra|].
  unfold texture2D, whiteTexture; cbn [rgb].
  unfold vignette, centre, vsub2; cbn [vx vy].
  replace (0.5 - 0.5) with 0 by lra. rewrite length2_zero.
  unfold grading, gradeChannel, vscale3;
    cbn [cx cy cz uBrightness uContrast dryUniforms].
  f_equal; ring.
Qed.

Lemma background_dry (b k : R) (coord : vec2) (focus : R) :
  background (dryUniforms b k) centre coord focus = Vec3 1 1 1.
Proof. reflexivity. Qed.

(** C8 (as amended). With [uRainIntensity = 0] the three layer gains are 0,
    the height field and the trail mask are 0 at every surface coordinate,
    the finite-difference normal is 0, the sampling coordinate is the
    unrefracted [uv], and the rendered colour is the background sampled at
    that coordinate (blur [uBlurStrength * 6]) passed through the flash
    blend, the vignette and the brightness/contrast grading; the droplet
    lighting contributes nothing. *)
Theorem C8_no_rain_renders_graded_background (u : Uniforms) (vUv : vec2) :
  uRainIntensity u = 0 ->
  (staticDropsGain u = 0 /\ layer1Gain u = 0 /\ layer2Gain u = 0) /\
  (forall p : vec2, heightAndTrailAt u p = Vec2 0 0) /\
  surfaceNormal u vUv = Vec2 0 0 /\
  refractionUV u vUv = zoomedUV u vUv /\
  main u vUv =
  Vec4 (grading u (vignette vUv (lightningFlash u
          (background u vUv (zoomedUV u vUv) (uBlurStrength u * 6))))) 1.
Proof.
  intros H. split; [exact (gains_without_rain u H)|].
  split; [intros p; exact (heightAndTrailAt_without_rain u p H)|].
  split; [exact (surfaceNormal_without_rain u vUv H)|].
  split; [exact (refractionUV_without_rain u vUv H)|].
  exact (main_without_rain u vUv H).
Qed.

Lemma C8_witness :
  main (dryUniforms 1.1 1) centre =
  Vec4 (grading (dryUniforms 1.1 1) (vignette centre
          (lightningFlash (dryUniforms 1.1 1)
             (background (dryUniforms 1.1 1) centre
                (zoomedUV (dryUniforms 1.1 1) centre)
                (uBlurStrength (dryUniforms 1.1 1) * 6))))) 1.
Proof.
  apply (C8_no_rain_renders_graded_background (dryUniforms 1.1 1) centre).
  reflexivity.
Defined.

(** C8 as stated fails: with the rain off and the default brightness 1.1
    the rendered colour of a white background is 1.1 in every channel, not
    the background sample 1. *)
Lemma C8_rendered_colour_is_not_the_sample :
  uRainIntensity (dryUniforms 1.1 1) = 0 /\
  rgb (main (dryUniforms 1.1 1) centre) <>
  background (dryUniforms 1.1 1) centre
    (zoomedUV (dryUniforms 1.1 1) centre) (focusAt (dryUniforms 1.1 1) centre).
Proof.
  split; [reflexivity|].
  rewrite main_dry_centre, background_dry.
  intros Heq. apply (f_equal cx) in Heq. cbn [cx] in Heq. lra.
Qed.

(** *** Ranges *)

(** C2 (as amended). At every surface coordinate and time, for every value
    of the uniforms: the combined height before the final smoothstep lies
    in [[0, 2.9]] (0.3 for the mist layer, 2 for the first moving layer,
    0.6 for the second), the height after the smoothstep in [[0,1]], and
    the trail mask in [[0,1]].  The grading stage does not clamp: it maps a
    channel [c] to [(c * uBrightness - 0.5) * uContrast + 0.5], which lies
    in [[0,1]] when [c * uBrightness] does and [uContrast] is in [[0,1]]. *)
Theorem C2_height_trail_and_grading_ranges
  (u : Uniforms) (p : vec2) :
  let t := uTime u * uRainSpeed u in
  let l0 := staticDropsGain u in
  let l1 := layer1Gain u in
  let l2 := layer2Gain u in
  0 <= rawHeight u p t l0 l1 l2 <= 2.9 /\
  0 <= vx (heightAndTrailAt u p) <= 1 /\
  0 <= vy (heightAndTrailAt u p) <= 1 /\
  (forall c : R,
     0 <= c * uBrightness u <= 1 -> 0 <= uContrast u <= 1 ->
     0 <= gradeChannel u c <= 1).
Proof.
  cbv zeta.
  pose proof (staticDropsGain_range u) as H0.
  pose proof (layer1Gain_range u) as H1.
  pose proof (layer2Gain_range u) as H2.
  split; [apply rawHeight_range; assumption|].
  split; [unfold heightAndTrailAt; rewrite GetHeightAndTrail_height;
          apply smoothstep_range|].
  split; [unfold heightAndTrailAt; apply trail_range; lra|].
  intros c Hc Hk. unfold gradeChannel.
  set (x := c * uBrightness u) in *. clearbody x.
  split; nra.
Qed.

Lemma C2_witness :
  0 <= gradeChannel (dryUniforms 1 1) 0.5 <= 1.
Proof.
  apply (C2_height_trail_and_grading_ranges (dryUniforms 1 1) centre);
    cbn [uBrightness uContrast dryUniforms]; lra.
Defined.

(** C2 as stated fails in its last part: with every setting inside its
    documented range (brightness 2, contrast 2, rain off) the red channel
    written for the centre of a white background is 3.5. *)
Lemma C2_graded_channel_leaves_unit_range :
  documentedRanges (dryUniforms 2 2) /\
  ~ (0 <= cx (rgb (main (dryUniforms 2 2) centre)) <= 1).
Proof.
  split.
  - unfold documentedRanges, dryUniforms; cbn. repeat split; lra.
  - rewrite main_dry_centre. cbn [cx]. lra.
Qed.

(** *** Cover fit *)

Lemma coverFit_screen_wider (u : Uniforms) (texUv : vec2) :
  uAutoFit u = true ->
  uImgAspect u < vx (uResolution u) / vy (uResolution u) ->
  coverFit u texUv =
  Vec2 (vx texUv)
       ((vy texUv - 0.5) /
          (vx (uResolution u) / vy (uResolution u) / uImgAspect u) + 0.5).
Proof.
  intros Hfit Hlt. unfold coverFit. rewrite Hfit; cbv zeta.
  destruct (Rlt_dec _ _) as [_|Hn]; [reflexivity|contradiction].
Qed.

Lemma coverFit_image_wider (u : Uniforms) (texUv : vec2) :
  uAutoFit u = true ->
  vx (uResolution u) / vy (uResolution u) <= uImgAspect u ->
  coverFit u texUv =
  Vec2 ((vx texUv - 0.5) /
          (uImgAspect u / (vx (uResolution u) / vy (uResolution u))) + 0.5)
       (vy texUv).
Proof.
  intros Hfit Hle. unfold coverFit. rewrite Hfit; cbv zeta.
  destruct (Rlt_dec _ _) as [Hlt|_]; [lra|reflexivity].
Qed.

(** C7. With auto-fit on, a [W x H] screen and a [iw x ih] image (so
    [uImgAspect = iw / ih]): when the screen aspect exceeds the image
    aspect the horizontal texture coordinate is left as it is and only the
    vertical one is rescaled about 0.5; when the screen aspect is below the
    image aspect the vertical coordinate is left as it is and only the
    horizontal one is rescaled; and in every case one factor [k > 0]
    relates displacements on the screen (in pixels) to displacements on
    the image (in pixels) along both axes, i.e. the image is scaled
    isotropically. *)
Theorem C7_cover_fit_rescales_one_axis_isotropically
  (u : Uniforms) (W H iw ih : R) :
  uAutoFit u = true ->
  uResolution u = Vec2 W H -> uImgAspect u = iw / ih ->
  0 < W -> 0 < H -> 0 < iw -> 0 < ih ->
  let screenAspect := W / H in
  let imgAspect := iw / ih in
  (imgAspect < screenAspect ->
   forall texUv : vec2,
     vx (coverFit u texUv) = vx texUv /\
     vy (coverFit u texUv) =
       (vy texUv - 0.5) / (screenAspect / imgAspect) + 0.5) /\
  (screenAspect < imgAspect ->
   forall texUv : vec2,
     vy (coverFit u texUv) = vy texUv /\
     vx (coverFit u texUv) =
       (vx texUv - 0.5) / (imgAspect / screenAspect) + 0.5) /\
  (exists k : R, 0 < k /\
     forall a b : vec2,
       vsub2 (imagePx iw ih (coverFit u b)) (imagePx iw ih (coverFit u a)) =
       vscale2 (vsub2 (screenPx W H b) (screenPx W H a)) k).
Proof.
  intros Hfit Hres Himg HW HH Hiw Hih; cbv zeta.
  assert (Hsa : vx (uResolution u) / vy (uResolution u) = W / H)
    by (rewrite Hres; reflexivity).
  split; [|split].
  - intros Hlt texUv.
    rewrite coverFit_screen_wider by (rewrite ?Hsa, ?Himg; assumption).
    cbn [vx vy]. rewrite Hsa, Himg. split; reflexivity.
  - intros Hlt texUv.
    rewrite coverFit_image_wider
      by first [assumption | rewrite ?Hsa, ?Himg; lra].
    cbn [vx vy]. rewrite Hsa, Himg. split; reflexivity.
  - destruct (Rlt_dec (iw / ih) (W / H)) as [Hlt|Hge].
    + exists (iw / W). split; [apply Rdiv_lt_0_compat; assumption|].
      intros a b.
      rewrite !coverFit_screen_wider by (rewrite ?Hsa, ?Himg; assumption).
      rewrite Hsa, Himg.
      unfold imagePx, screenPx, vsub2, vscale2; cbn [vx vy].
      f_equal; field; repeat split; lra.
    + exists (ih / H). split; [apply Rdiv_lt_0_compat; assumption|].
      intros a b.
      rewrite !coverFit_image_wider
        by first [assumption | rewrite ?Hsa, ?Himg; lra].
      rewrite Hsa, Himg.
      unfold imagePx, screenPx, vsub2, vscale2; cbn [vx vy].
      f_equal; field; repeat split; lra.
Qed.

(** A 16:9 screen showing a square image keeps the horizontal coordinate
    and rescales the vertical one by 16/9. *)
Lemma C7_witness :
  vx (coverFit (dryUniforms 1 1) (Vec2 0.25 0.75)) = 0.25 /\
  vy (coverFit (dryUniforms 1 1) (Vec2 0.25 0.75)) =
    (0.75 - 0.5) / (1920 / 1080 / (1 / 1)) + 0.5.
Proof.
  refine (proj1 (C7_cover_fit_rescales_one_axis_isotropically
            (dryUniforms 1 1) 1920 1080 1 1 eq_refl eq_refl _ _ _ _ _)
            _ (Vec2 0.25 0.75));
    cbn [uImgAspect dryUniforms]; lra.
Defined.

End ShaderProps.

(** ** The texture-loading effect *)

Module TextureLoadProps.
Import TextureLoad.
Local Open Scope Q_scope.

Lemma isInFlight_In (u : Url) (st : State) :
  isInFlight u st = true <-> In u (inFlight st).
Proof.
  unfold isInFlight. rewrite existsb_exists. split.
  - intros (x & Hx & Heq). apply Nat.eqb_eq in Heq. subst. exact Hx.
  - intros H. exists u. split; [exact H|apply Nat.eqb_refl].
Qed.

(** Selecting another image, or none, cancels no request. *)
Lemma select_keeps_inFlight (url : option Url) (st : State) (u : Url) :
  In u (inFlight st) -> In u (inFlight (setBackgroundUrl url st)).
Proof.
  intros H. unfold setBackgroundUrl, textureEffect; cbn.
  destruct (sameUrl (backgroundUrl st) url); [exact H|].
  destruct url; cbn; [apply in_or_app; left|]; exact H.
Qed.

Lemma selections_keep_inFlight (sels : list (option Url)) :
  forall (st : State) (u : Url),
    In u (inFlight st) ->
    exists st', run (map Select sels) st = Some st' /\ In u (inFlight st').
Proof.
  induction sels as [|url sels IH]; intros st u H; cbn.
  - exists st. split; [reflexivity|exact H].
  - apply IH. apply select_keeps_inFlight. exact H.
Qed.

(** C9 (as amended). The effect cancels nothing and [onLoad] checks
    nothing: a request stays in flight through any sequence of later
    selections (switching to another image or clearing it), and when it
    completes its texture becomes the current texture whatever is selected
    at that moment, the selection itself being left as it is. *)
Theorem C9_completed_load_always_becomes_current
  (st : State) (u : Url) (sels : list (option Url)) (img : option (Q * Q)) :
  In u (inFlight st) ->
  exists st1 st2 : State,
    run (map Select sels) st = Some st1 /\
    step (LoadCompletes u img) st1 = Some st2 /\
    texture st2 = Some {| sourceUrl := u; image := img |} /\
    backgroundUrl st2 = backgroundUrl st1.
Proof.
  intros H.
  destruct (selections_keep_inFlight sels st u H) as (st1 & Hrun & Hin).
  apply isInFlight_In in Hin.
  exists st1. eexists. split; [exact Hrun|].
  cbn. unfold loadCompletes. rewrite Hin. repeat split.
Qed.

(** Image 1 is requested, the user switches to image 2 and then clears
    the background; image 1 still arrives and is shown. *)
Lemma C9_witness :
  exists st1 st2 : State,
    run (map Select [Some 2%nat; None]) (setBackgroundUrl (Some 1%nat) mounted)
      = Some st1 /\
    step (LoadCompletes 1%nat (Some (1920, 1080))) st1 = Some st2 /\
    texture st2 = Some {| sourceUrl := 1%nat; image := Some (1920, 1080) |} /\
    backgroundUrl st2 = backgroundUrl st1.
Proof.
  apply (C9_completed_load_always_becomes_current
           (setBackgroundUrl (Some 1%nat) mounted) 1%nat [Some 2%nat; None]).
  cbn. left. reflexivity.
Defined.

(** C9 as stated fails: image 1 is selected, then image 2 while image 1 is
    still loading; image 2 arrives first and image 1 after it.  The late
    texture of image 1 is not discarded: it is the current texture while
    image 2 is the selected one. *)
Lemma C9_late_texture_replaces_selected_one :
  option_map
    (fun st => (backgroundUrl st, option_map sourceUrl (texture st),
                uHasTexture st))
    (run [Select (Some 1%nat); Select (Some 2%nat);
          LoadCompletes 2%nat (Some (1920, 1080));
          LoadCompletes 1%nat (Some (1000, 1000))] mounted)
  = Some (Some 2%nat, Some 1%nat, true).
Proof. reflexivity. Qed.

End TextureLoadProps.

(** ** Comparisons, timers and draws *)

Module PageFacts.
Import Page.
Local Open Scope Q_scope.

Lemma leb_true (a b : Q) : leb a b = true <-> a <= b.
Proof. unfold leb. apply Qle_bool_iff. Qed.

Lemma leb_false (a b : Q) : leb a b = false <-> b < a.
Proof.
  unfold leb. split.
  - intros H. apply Qnot_le_lt. intros Hle.
    apply Qle_bool_iff in Hle. congruence.
  - intros H. destruct (Qle_bool a b) eqn:E; [|reflexivity].
    apply Qle_bool_iff in E. lra.
Qed.

Lemma gtb_true (a b : Q) : gtb a b = true <-> b < a.
Proof.
  unfold gtb. rewrite negb_true_iff. apply leb_false.
Qed.

Lemma gtb_false (a b : Q) : gtb a b = false <-> a <= b.
Proof.
  unfold gtb. rewrite negb_false_iff. apply leb_true.
Qed.

Lemma Qmax_0_min_1_range (x : Q) :
  0 <= Qmax 0 (Qmin 1 x) /\ Qmax 0 (Qmin 1 x) <= 1.
Proof.
  split; [apply Q.le_max_l|].
  apply Q.max_lub; [lra|apply Q.le_min_l].
Qed.

End PageFacts.

(** ** [triggerThunder] *)

Module AudioProps.
Import Page AudioService PageFacts.
Local Open Scope Q_scope.

(** C10. Whatever the distance, [triggerThunder] returns the world it was
    given (no timer set, no draw taken, no audio element or module
    variable written) when the audio system has not been initialised or
    the global volume scalar is at most 0.05. *)
Theorem C10_triggerThunder_dropped_when_uninitialised_or_quiet
  (distance : Q) (w : World) :
  isInitialized (audio w) = false \/ globalVolumeScalar (audio w) <= 0.05 ->
  triggerThunder distance w = w.
Proof.
  intros [H|H]; unfold triggerThunder; cbv zeta.
  - rewrite H. reflexivity.
  - apply leb_true in H. rewrite H. rewrite orb_true_r. reflexivity.
Qed.

(** With the master volume slider at 5% the service is initialised, the
    scalar is 0.05, and a strike at distance 1/2 schedules nothing. *)
Lemma C10_witness :
  triggerThunder 0.5
    (App.updateSettings
       {| stormIntensity := 0.5; isAudioPlaying := true; audioVolume := 0.05 |}
       (App.initialWorld (App.drawsOf []) true))
  = App.updateSettings
      {| stormIntensity := 0.5; isAudioPlaying := true; audioVolume := 0.05 |}
      (App.initialWorld (App.drawsOf []) true).
Proof.
  apply C10_triggerThunder_dropped_when_uninitialised_or_quiet.
  right. vm_compute. intros H. discriminate H.
Defined.

(** *** What [triggerThunder] leaves alone *)

Lemma triggerThunder_frame (distance : Q) (w : World) :
  audio (triggerThunder distance w) = audio w /\
  settings (triggerThunder distance w) = settings w /\
  lightningLoopRef (triggerThunder distance w) = lightningLoopRef w /\
  randomDraws (triggerThunder distance w) = randomDraws w /\
  trace (triggerThunder distance w) = trace w /\
  now (triggerThunder distance w) = now w /\
  autoplayAllowed (triggerThunder distance w) = autoplayAllowed w /\
  lightningVal (triggerThunder distance w) = lightningVal w.
Proof.
  unfold triggerThunder; cbv zeta.
  destruct (negb (isInitialized (audio w))
            || leb (globalVolumeScalar (audio w)) 0.05);
    cbn; repeat split; reflexivity.
Qed.

(** The timers [triggerThunder] adds: none, or one playback. *)
Lemma triggerThunder_timers (distance : Q) (w : World) :
  exists new : list Timer,
    timers (triggerThunder distance w) = timers w ++ new /\
    (length new <= 1)%nat /\
    Forall (fun t => isThunderPlay t = true) new.
Proof.
  unfold triggerThunder; cbv zeta.
  destruct (negb (isInitialized (audio w))
            || leb (globalVolumeScalar (audio w)) 0.05); cbn.
  - exists []. rewrite app_nil_r. repeat split; auto.
  - eexists [_]. repeat split; auto.
Qed.

End AudioProps.

(** ** The lightning scheduler *)

Module AppProps.
Import Page AudioService App PageFacts AudioProps.
Local Open Scope Q_scope.

(** *** The distance of a strike *)

Lemma strikeDistance_is_clamp (raw bias : Q) :
  strikeDistance raw bias == clamp (raw - bias * 0.3) 0 1.
Proof.
  unfold strikeDistance, clamp.
  set (x := raw - bias * 0.3).
  destruct (Q.max_spec 0 (Qmin 1 x)) as [[H1 ->]|[H1 ->]];
  destruct (Q.min_spec 1 x) as [[H2 H2']|[H2 H2']]; rewrite H2' in *;
  destruct (Q.max_spec x 0) as [[H3 H3']|[H3 H3']]; rewrite H3';
  destruct (Q.min_spec 0 1) as [[H4 H4']|[H4 H4']];
  destruct (Q.min_spec x 1) as [[H5 H5']|[H5 H5']];
  rewrite ?H4', ?H5'; lra.
Qed.

Lemma strikeDistance_antitone (raw b1 b2 : Q) :
  b1 <= b2 -> strikeDistance raw b2 <= strikeDistance raw b1.
Proof.
  intros H. unfold strikeDistance.
  apply Q.max_le_compat_l, Q.min_le_compat_l. lra.
Qed.

(** Where the draw is at least 1/2 the clamp is inactive at both storm
    intensities, and the distance at 0.9 is smaller by 0.24. *)
Lemma strikeDistance_strict (raw : Q) :
  1 # 2 <= raw -> raw < 1 -> strikeDistance raw 0.9 < strikeDistance raw 0.1.
Proof.
  intros H1 H2. unfold strikeDistance.
  destruct (Q.min_spec 1 (raw - 0.9 * 0.3)) as [[Ha Ha']|[Ha Ha']];
  destruct (Q.min_spec 1 (raw - 0.1 * 0.3)) as [[Hb Hb']|[Hb Hb']];
  rewrite Ha', Hb'; try lra.
  destruct (Q.max_spec 0 (raw - 0.9 * 0.3)) as [[Hc Hc']|[Hc Hc']];
  destruct (Q.max_spec 0 (raw - 0.1 * 0.3)) as [[Hd Hd']|[Hd Hd']];
  rewrite Hc', Hd'; lra.
Qed.

Lemma sumQ_cons (x : Q) (l : list Q) : sumQ (x :: l) = x + sumQ l.
Proof. reflexivity. Qed.

Lemma sumQ_app (l1 l2 : list Q) : sumQ (l1 ++ l2) == sumQ l1 + sumQ l2.
Proof.
  induction l1 as [|x l1 IH].
  - change (sumQ l2 == 0 + sumQ l2). lra.
  - change (x + sumQ (l1 ++ l2) == x + sumQ l1 + sumQ l2). rewrite IH. lra.
Qed.

Lemma sumQ_map_le {A : Type} (f g : A -> Q) (l : list A) :
  (forall x, In x l -> f x <= g x) -> sumQ (map f l) <= sumQ (map g l).
Proof.
  induction l as [|x l IH]; intros H.
  - apply Qle_refl.
  - assert (f x <= g x) by (apply H; left; reflexivity).
    assert (sumQ (map f l) <= sumQ (map g l))
      by (apply IH; intros y Hy; apply H; right; exact Hy).
    change (f x + sumQ (map f l) <= g x + sumQ (map g l)). lra.
Qed.

Lemma gridDraws_succ (n m : nat) :
  map (fun k => inject_Z (Z.of_nat k) / inject_Z (Z.of_nat n)) (seq 0 (S m)) =
  map (fun k => inject_Z (Z.of_nat k) / inject_Z (Z.of_nat n)) (seq 0 m)
  ++ [inject_Z (Z.of_nat m) / inject_Z (Z.of_nat n)].
Proof. rewrite seq_S, map_app. reflexivity. Qed.

(** The largest grid value [(n-1)/n] is at least 1/2 and below 1. *)
Lemma last_grid_draw (m : nat) :
  (1 <= m)%nat ->
  1 # 2 <= inject_Z (Z.of_nat m) / inject_Z (Z.of_nat (S m)) /\
  inject_Z (Z.of_nat m) / inject_Z (Z.of_nat (S m)) < 1.
Proof.
  intros Hm.
  assert (Hpos : 0 < inject_Z (Z.of_nat (S m))).
  { replace 0 with (inject_Z 0) by reflexivity. rewrite <- Zlt_Qlt. lia. }
  assert (Hm1 : 1 <= inject_Z (Z.of_nat m)).
  { replace 1 with (inject_Z 1) by reflexivity. rewrite <- Zle_Qle. lia. }
  assert (HS : inject_Z (Z.of_nat (S m)) == inject_Z (Z.of_nat m) + 1).
  { rewrite Nat2Z.inj_succ. unfold Z.succ. rewrite inject_Z_plus.
    reflexivity. }
  split.
  - apply Qle_shift_div_l; [exact Hpos|]. rewrite HS. lra.
  - apply Qlt_shift_div_r; [exact Hpos|]. rewrite HS. lra.
Qed.

Lemma Qdiv_lt_compat (a b c : Q) : 0 < c -> a < b -> a / c < b / c.
Proof.
  intros Hc Hab. unfold Qdiv.
  apply Qmult_lt_r; [apply Qinv_lt_0_compat; exact Hc|exact Hab].
Qed.

Lemma meanDistance_bias (n : nat) :
  (2 <= n)%nat -> meanDistance n 0.9 < meanDistance n 0.1.
Proof.
  intros Hn. destruct n as [|m]; [lia|].
  assert (Hpos : 0 < inject_Z (Z.of_nat (S m))).
  { replace 0 with (inject_Z 0) by reflexivity. rewrite <- Zlt_Qlt. lia. }
  unfold meanDistance, gridDraws.
  rewrite gridDraws_succ, !map_app, !sumQ_app.
  change (sumQ (map ?f [?x])) with (f x + 0).
  destruct (last_grid_draw m ltac:(lia)) as [Hlo Hhi].
  pose proof (strikeDistance_strict _ Hlo Hhi) as Hlast.
  pose proof (sumQ_map_le (fun raw => strikeDistance raw 0.9)
                (fun raw => strikeDistance raw 0.1)
                (map (fun k =>
                        inject_Z (Z.of_nat k) / inject_Z (Z.of_nat (S m)))
                   (seq 0 m))
                (fun x _ => strikeDistance_antitone x 0.1 0.9 ltac:(lra)))
    as Hrest.
  apply Qdiv_lt_compat; [exact Hpos|].
  revert Hlast Hrest.
  generalize (strikeDistance
                (inject_Z (Z.of_nat m) / inject_Z (Z.of_nat (S m))) 0.9)
             (strikeDistance
                (inject_Z (Z.of_nat m) / inject_Z (Z.of_nat (S m))) 0.1).
  intros l9 l1.
  match goal with
  | |- _ -> sumQ ?a <= sumQ ?b -> _ => generalize (sumQ a) (sumQ b)
  end.
  intros a9 a1 Hlast Hrest. lra.
Qed.

(** *** What each piece of code does to timers, trace and the rest *)

Lemma Benign_refl (w : World) : Benign w w.
Proof. repeat split. Qed.

Lemma Benign_trans (w1 w2 w3 : World) :
  Benign w1 w2 -> Benign w2 w3 -> Benign w1 w3.
Proof.
  intros (A1 & A2 & A3 & A4) (B1 & B2 & B3 & B4).
  repeat split; congruence.
Qed.

Lemma count_app {A : Type} (f : A -> bool) (l1 l2 : list A) :
  count f (l1 ++ l2) = (count f l1 + count f l2)%nat.
Proof. unfold count. rewrite filter_app, length_app. reflexivity. Qed.

Lemma count_filter_le {A : Type} (f g : A -> bool) (l : list A) :
  (count f (filter g l) <= count f l)%nat.
Proof.
  unfold count. induction l as [|x l IH]; cbn; [lia|].
  destruct (g x); cbn; destruct (f x); cbn; lia.
Qed.

(** Clearing the id of a pending timer of kind [f] removes at least that
    timer. *)
Lemma count_clear_member (f : Timer -> bool) (t : Timer) (l : list Timer) :
  In t l -> f t = true ->
  (S (count f (filter (fun t' => negb (Nat.eqb (timerId t') (timerId t))) l))
   <= count f l)%nat.
Proof.
  unfold count. induction l as [|x l IH]; intros Hin Hf; [destruct Hin|].
  destruct Hin as [->|Hin].
  - cbn. rewrite Nat.eqb_refl; cbn. rewrite Hf; cbn.
    pose proof (count_filter_le f
      (fun t' => negb (Nat.eqb (timerId t') (timerId t))) l) as H.
    unfold count in H. lia.
  - specialize (IH Hin Hf). cbn.
    destruct (negb (Nat.eqb (timerId x) (timerId t))); cbn;
      destruct (f x); cbn; lia.
Qed.

Lemma earliest_In (ts : list Timer) (t : Timer) :
  earliest ts = Some t -> In t ts.
Proof.
  revert t. induction ts as [|x ts IH]; intros t H; cbn in H; [discriminate|].
  destruct (earliest ts) as [t'|].
  - destruct (leb (due x) (due t')); injection H as <-.
    + left; reflexivity.
    + right; apply IH; reflexivity.
  - injection H as <-. left; reflexivity.
Qed.

Lemma doFlash_timers (b : Q) (w : World) :
  timers (doFlash b w) =
  timers w ++
  [{| timerId := nextTimerId w; setAt := now w;
      delay := 100 + randomDraws w (randomPos w) * 200;
      callback := CbFlashOff |}].
Proof. reflexivity. Qed.

Lemma doFlash_trace (b : Q) (w : World) :
  trace (doFlash b w) = EvFlash b :: trace w.
Proof. reflexivity. Qed.

Lemma doFlash_Benign (b : Q) (w : World) : Benign w (doFlash b w).
Proof.
  repeat split. unfold loopTimers. rewrite doFlash_timers, filter_app.
  cbn. apply app_nil_r.
Qed.

Lemma triggerThunder_Benign (d : Q) (w : World) :
  Benign w (triggerThunder d w).
Proof.
  destruct (triggerThunder_frame d w) as (_ & Hs & Hr & Hd & _).
  repeat split; try assumption.
  destruct (triggerThunder_timers d w) as (new & Ht & _ & Hall).
  unfold loopTimers. rewrite Ht, filter_app.
  replace (filter isLoop new) with (@nil Timer); [apply app_nil_r|].
  clear Ht. induction Hall as [|t l Ht _ IH]; [reflexivity|].
  cbn. unfold isThunderPlay in Ht. unfold isLoop.
  destruct (callback t); try discriminate. exact IH.
Qed.

(** A skipped strike takes its first draw and does nothing else. *)
Lemma triggerLightningEvent_skipped (s : AppSettings) (w : World) :
  0.8 < randomDraws w (randomPos w) ->
  triggerLightningEvent s w = withRandomPos (S (randomPos w)) w.
Proof.
  intros H. apply gtb_true in H.
  unfold triggerLightningEvent, random. rewrite H. reflexivity.
Qed.

Lemma triggerLightningEvent_Benign (s : AppSettings) (w : World) :
  Benign w (triggerLightningEvent s w).
Proof.
  unfold triggerLightningEvent, doFlash, random; cbv beta iota zeta.
  destruct (gtb (randomDraws w (randomPos w)) 0.8); [repeat split|].
  destruct (isAudioPlaying s);
    [eapply Benign_trans; [|apply triggerThunder_Benign]|];
    destruct (gtb _ 0.7); repeat split;
    unfold loopTimers; cbn; rewrite ?filter_app; cbn;
    rewrite ?app_nil_r; reflexivity.
Qed.

(** *** Timer ids *)

Lemma Fresh_setTimeout (cb : Callback) (d : Q) (w : World) :
  Fresh w -> Fresh (snd (setTimeout cb d w)).
Proof.
  unfold Fresh; cbn. intros H. apply Forall_app. split.
  - revert H. apply Forall_impl. intros t Ht. lia.
  - constructor; [cbn; lia|constructor].
Qed.

Lemma Fresh_clearTimeout (id : nat) (w : World) :
  Fresh w -> Fresh (clearTimeout id w).
Proof.
  unfold Fresh; cbn. intros H. rewrite Forall_forall in *.
  intros t Ht. apply filter_In in Ht. apply H, Ht.
Qed.

(** Close a goal [Fresh w'] where [w'] is written out as [setTimeout]
    calls and writes to other fields over a fresh world. *)
Ltac fresh_by H :=
  unfold Fresh in *; cbn;
  repeat (apply Forall_app; split);
  first
    [ revert H; apply Forall_impl; intros; lia
    | constructor; [cbn; lia|constructor] ].

Lemma triggerThunder_Fresh (d : Q) (w : World) :
  Fresh w -> Fresh (triggerThunder d w).
Proof.
  intros H. unfold triggerThunder, random, setTimeout; cbv beta iota zeta.
  destruct (_ || _); [exact H|fresh_by H].
Qed.

Lemma doFlash_Fresh (b : Q) (w : World) : Fresh w -> Fresh (doFlash b w).
Proof.
  intros H. unfold doFlash, random, setTimeout; cbv beta iota zeta.
  fresh_by H.
Qed.

Lemma triggerLightningEvent_Fresh (s : AppSettings) (w : World) :
  Fresh w -> Fresh (triggerLightningEvent s w).
Proof.
  intros H.
  unfold triggerLightningEvent, doFlash, random, setTimeout;
    cbv beta iota zeta.
  destruct (gtb (randomDraws w (randomPos w)) 0.8); [exact H|].
  destruct (isAudioPlaying s); [apply triggerThunder_Fresh|];
    destruct (gtb _ 0.7); fresh_by H.
Qed.

Lemma scheduleLightning_Fresh (s : AppSettings) (w : World) :
  Fresh w -> Fresh (scheduleLightning s w).
Proof.
  intros H. unfold scheduleLightning, random, setTimeout; cbv beta iota zeta.
  destruct (leb (stormIntensity s) 0.01); [exact H|fresh_by H].
Qed.

Lemma stopLightningLoop_Fresh (w : World) :
  Fresh w -> Fresh (stopLightningLoop w).
Proof.
  intros H. unfold stopLightningLoop. destruct (lightningLoopRef w);
    [apply Fresh_clearTimeout|]; exact H.
Qed.

Lemma thunderPlayback_Fresh (i : nat) (v r : Q) (w : World) :
  Fresh w -> Fresh (thunderPlayback i v r w).
Proof.
  intros H. unfold thunderPlayback.
  destruct (nth_error _ i); [destruct (_ && _)|]; exact H.
Qed.

(** [scheduleLightning] below the threshold does nothing; above it, it
    takes one draw, arms one timer and stores its id. *)
Lemma scheduleLightning_idle (s : AppSettings) (w : World) :
  stormIntensity s <= 0.01 -> scheduleLightning s w = w.
Proof.
  intros H. apply leb_true in H. unfold scheduleLightning. rewrite H.
  reflexivity.
Qed.

Lemma scheduleLightning_armed (s : AppSettings) (w : World) :
  0.01 < stormIntensity s ->
  scheduleLightning s w =
  withLightningLoopRef (Some (nextTimerId w))
    (withTimers (S (nextTimerId w)) (timers w ++ [armedTimer s w])
       (withRandomPos (S (randomPos w)) w)).
Proof.
  intros H. apply leb_false in H. unfold scheduleLightning. rewrite H.
  reflexivity.
Qed.

Lemma scheduleLightning_cases (s : AppSettings) (w : World) :
  (stormIntensity s <= 0.01 /\ scheduleLightning s w = w) \/
  (0.01 < stormIntensity s /\
   scheduleLightning s w =
   withLightningLoopRef (Some (nextTimerId w))
     (withTimers (S (nextTimerId w)) (timers w ++ [armedTimer s w])
        (withRandomPos (S (randomPos w)) w))).
Proof.
  destruct (Qlt_le_dec 0.01 (stormIntensity s)) as [H|H].
  - right. split; [exact H|apply scheduleLightning_armed; exact H].
  - left. split; [exact H|apply scheduleLightning_idle; exact H].
Qed.

Lemma loopTimers_clearTimeout (id : nat) (w : World) :
  loopTimers (clearTimeout id w) =
  filter (fun t => negb (Nat.eqb (timerId t) id)) (loopTimers w).
Proof.
  unfold loopTimers, clearTimeout; cbn.
  induction (timers w) as [|t l IH]; cbn; [reflexivity|].
  destruct (negb (Nat.eqb (timerId t) id)) eqn:E1;
    destruct (isLoop t) eqn:E2; cbn; rewrite ?E1, ?E2, IH; reflexivity.
Qed.

Lemma LoopInv_Tracked (w : World) : LoopInv w -> Tracked w.
Proof.
  unfold LoopInv, Tracked. apply Forall_impl. intros t [H _]. exact H.
Qed.

(** When every Armed timer is the stored one, clearing the stored id
    leaves no Armed timer. *)
Lemma stopLightningLoop_clears (w : World) :
  Tracked w -> loopTimers (stopLightningLoop w) = [].
Proof.
  intros HI. unfold stopLightningLoop, Tracked in *.
  destruct (lightningLoopRef w) as [id|].
  - rewrite loopTimers_clearTimeout.
    induction HI as [|t l Hid _ IH]; [reflexivity|].
    cbn. injection Hid as ->. rewrite Nat.eqb_refl. exact IH.
  - destruct HI as [|t l Hid _]; [reflexivity|discriminate].
Qed.

Lemma stopLightningLoop_keeps_none (w : World) :
  loopTimers w = [] -> loopTimers (stopLightningLoop w) = [].
Proof.
  intros H. unfold stopLightningLoop. destruct (lightningLoopRef w); [|exact H].
  rewrite loopTimers_clearTimeout, H. reflexivity.
Qed.

Lemma stopLightningLoop_frame (w : World) :
  settings (stopLightningLoop w) = settings w /\
  audio (stopLightningLoop w) = audio w /\
  randomDraws (stopLightningLoop w) = randomDraws w /\
  randomPos (stopLightningLoop w) = randomPos w /\
  nextTimerId (stopLightningLoop w) = nextTimerId w /\
  now (stopLightningLoop w) = now w /\
  trace (stopLightningLoop w) = trace w /\
  lightningLoopRef (stopLightningLoop w) = lightningLoopRef w.
Proof.
  unfold stopLightningLoop. destruct (lightningLoopRef w) eqn:E;
    repeat split; try reflexivity; cbn; auto.
Qed.

(** The invariant once a world with no Armed timer runs
    [scheduleLightning] with settings that agree with the current ones. *)
Lemma scheduleLightning_LoopInv (s : AppSettings) (w : World) :
  loopTimers w = [] ->
  stormIntensity s == stormIntensity (settings w) ->
  isAudioPlaying s = isAudioPlaying (settings w) ->
  LoopInv (scheduleLightning s w).
Proof.
  intros Hnone Hs Ha.
  destruct (scheduleLightning_cases s w) as [[_ ->]|[Hgt ->]].
  - unfold LoopInv. rewrite Hnone. constructor.
  - unfold LoopInv, loopTimers in *; cbn. rewrite filter_app, Hnone. cbn.
    constructor; [|constructor]. cbn. repeat split; assumption.
Qed.

Lemma Benign_LoopInv (w w' : World) :
  Benign w w' -> LoopInv w -> LoopInv w'.
Proof.
  intros (H1 & H2 & _ & H4) HI. unfold LoopInv in *.
  rewrite H1, H2, H4. exact HI.
Qed.

Lemma Benign_UnitDraws (w w' : World) :
  Benign w w' -> UnitDraws w -> UnitDraws w'.
Proof.
  intros (_ & _ & H3 & _) HU. unfold UnitDraws in *. rewrite H3. exact HU.
Qed.

(** *** The audio invariant *)

Lemma pushThunderNodes_length (n i : nat) (pool : list HTMLAudioElement) :
  length (pushThunderNodes i n pool) = (length pool + n)%nat.
Proof.
  revert i pool. induction n as [|n IH]; intros i pool; cbn; [lia|].
  rewrite IH, length_app; cbn. lia.
Qed.

Lemma replaceAt_length {A : Type} (i : nat) (x : A) (l : list A) :
  length (replaceAt i x l) = length l.
Proof.
  revert i. induction l as [|y l IH]; intros [|i]; cbn; auto.
Qed.

Lemma initAudio_Benign (w : World) : Benign w (initAudio w).
Proof.
  unfold initAudio. destruct (isInitialized (audio w)); repeat split.
Qed.

Lemma initAudio_AudioInv (w : World) :
  AudioInv (audio w) -> AudioInv (audio (initAudio w)).
Proof.
  intros (Hp & Hg). unfold initAudio.
  destruct (isInitialized (audio w)) eqn:E.
  - unfold AudioInv. rewrite E. split; assumption.
  - unfold AudioInv; cbn. rewrite Hp. split; [reflexivity|exact Hg].
Qed.

Lemma setGlobalVolume_Benign (v : Q) (w : World) :
  Benign w (setGlobalVolume v w).
Proof.
  unfold setGlobalVolume.
  destruct (rainAudio (audio w)); [destruct (musicAudio (audio w))|];
    repeat split.
Qed.

Lemma setGlobalVolume_AudioInv (v : Q) (w : World) :
  AudioInv (audio w) -> AudioInv (audio (setGlobalVolume v w)).
Proof.
  intros (Hp & _). unfold setGlobalVolume, AudioInv.
  destruct (rainAudio (audio w)); [destruct (musicAudio (audio w))|];
    cbn; (split; [exact Hp|apply Qmax_0_min_1_range]).
Qed.

Lemma audioEffect_Benign (w : World) : Benign w (audioEffect w).
Proof.
  unfold audioEffect. destruct (isAudioPlaying (settings w)).
  - eapply Benign_trans; [apply initAudio_Benign|apply setGlobalVolume_Benign].
  - apply setGlobalVolume_Benign.
Qed.

Lemma audioEffect_AudioInv (w : World) :
  AudioInv (audio w) -> AudioInv (audio (audioEffect w)).
Proof.
  intros H. unfold audioEffect. destruct (isAudioPlaying (settings w)).
  - apply setGlobalVolume_AudioInv, initAudio_AudioInv, H.
  - apply setGlobalVolume_AudioInv, H.
Qed.

Lemma thunderPlayback_Benign (i : nat) (v r : Q) (w : World) :
  Benign w (thunderPlayback i v r w).
Proof.
  unfold thunderPlayback.
  destruct (nth_error (thunderPool (audio w)) i); [|repeat split].
  destruct (leb 0 v && leb v 1); repeat split.
Qed.

Lemma thunderPlayback_AudioInv (i : nat) (v r : Q) (w : World) :
  AudioInv (audio w) -> AudioInv (audio (thunderPlayback i v r w)).
Proof.
  intros (Hp & Hg). unfold thunderPlayback.
  destruct (nth_error (thunderPool (audio w)) i) as [a|] eqn:E;
    [|split; assumption].
  destruct (leb 0 v && leb v 1); [|split; assumption].
  unfold AudioInv; cbn. rewrite replaceAt_length. split; [|exact Hg].
  destruct (isInitialized (audio w)); [exact Hp|].
  rewrite Hp in E. destruct i; discriminate.
Qed.

(** *** The invariant along the steps of the page *)

Lemma scheduleLightning_frame (s : AppSettings) (w : World) :
  settings (scheduleLightning s w) = settings w /\
  audio (scheduleLightning s w) = audio w /\
  randomDraws (scheduleLightning s w) = randomDraws w /\
  trace (scheduleLightning s w) = trace w /\
  now (scheduleLightning s w) = now w.
Proof.
  destruct (scheduleLightning_cases s w) as [[_ ->]|[_ ->]];
    repeat split.
Qed.

Lemma lightningEffect_frame (w : World) :
  settings (lightningEffect w) = settings w /\
  audio (lightningEffect w) = audio w /\
  randomDraws (lightningEffect w) = randomDraws w /\
  trace (lightningEffect w) = trace w /\
  now (lightningEffect w) = now w.
Proof.
  unfold lightningEffect; cbv zeta.
  destruct (stopLightningLoop_frame w) as (A1 & A2 & A3 & _ & _ & A6 & A7 & _).
  destruct (gtb (stormIntensity (settings w)) 0).
  - destruct (scheduleLightning_frame (settings w) (stopLightningLoop w))
      as (B1 & B2 & B3 & B4 & B5).
    repeat split; congruence.
  - repeat split; assumption.
Qed.

(** The lightning effect run in a world without Armed timers. *)
Lemma lightningEffect_LoopInv (w : World) :
  loopTimers w = [] -> LoopInv (lightningEffect w).
Proof.
  intros H. unfold lightningEffect; cbv zeta.
  pose proof (stopLightningLoop_keeps_none w H) as Hn.
  destruct (stopLightningLoop_frame w) as (A1 & _).
  destruct (gtb (stormIntensity (settings w)) 0).
  - apply scheduleLightning_LoopInv; rewrite ?A1; [exact Hn|reflexivity..].
  - unfold LoopInv. rewrite Hn. constructor.
Qed.

Lemma updateSettings_frame (s : AppSettings) (w : World) :
  settings (updateSettings s w) = s /\
  randomDraws (updateSettings s w) = randomDraws w /\
  trace (updateSettings s w) = trace w /\
  now (updateSettings s w) = now w.
Proof.
  unfold updateSettings; cbv zeta.
  set (ld := negb (Qeq_bool _ _) || negb (Bool.eqb _ _)).
  set (ad := negb (Bool.eqb _ _) || negb (Qeq_bool _ _)).
  set (w1 := withSettings s w).
  set (w2 := if ld then lightningCleanup w1 else w1).
  assert (H2 : settings w2 = s /\ randomDraws w2 = randomDraws w /\
               trace w2 = trace w /\ now w2 = now w).
  { unfold w2, lightningCleanup.
    destruct (stopLightningLoop_frame w1)
      as (A1 & _ & A3 & _ & _ & A6 & A7 & _).
    destruct ld; repeat split; assumption. }
  set (w3 := if ad then audioEffect w2 else w2).
  assert (H3 : settings w3 = s /\ randomDraws w3 = randomDraws w /\
               trace w3 = trace w /\ now w3 = now w).
  { unfold w3. destruct ad; [|exact H2].
    destruct H2 as (A1 & A2 & A3 & A4).
    destruct (audioEffect_Benign w2) as (B1 & _ & B3 & _).
    repeat split; try congruence.
    - rewrite <- A3. unfold audioEffect, setGlobalVolume, initAudio.
      destruct (isAudioPlaying (settings w2));
        [destruct (isInitialized (audio w2))|]; cbn;
        repeat match goal with
               | |- context [match ?x with _ => _ end] => destruct x; cbn
               end; reflexivity.
    - rewrite <- A4. unfold audioEffect, setGlobalVolume, initAudio.
      destruct (isAudioPlaying (settings w2));
        [destruct (isInitialized (audio w2))|]; cbn;
        repeat match goal with
               | |- context [match ?x with _ => _ end] => destruct x; cbn
               end; reflexivity. }
  clearbody w3. destruct H3 as (A1 & A2 & A3 & A4).
  destruct ld; [|repeat split; assumption].
  destruct (lightningEffect_frame w3) as (B1 & _ & B3 & B4 & B5).
  repeat split; congruence.
Qed.

Lemma scheduleLightning_audio (s : AppSettings) (w : World) :
  audio (scheduleLightning s w) = audio w.
Proof. apply scheduleLightning_frame. Qed.

Lemma updateSettings_AudioInv (s : AppSettings) (w : World) :
  AudioInv (audio w) -> AudioInv (audio (updateSettings s w)).
Proof.
  intros H. unfold updateSettings; cbv zeta.
  set (ld := negb (Qeq_bool _ _) || negb (Bool.eqb _ _)).
  set (ad := negb (Bool.eqb _ _) || negb (Qeq_bool _ _)).
  set (w1 := withSettings s w).
  set (w2 := if ld then lightningCleanup w1 else w1).
  assert (H2 : AudioInv (audio w2)).
  { unfold w2, lightningCleanup.
    destruct (stopLightningLoop_frame w1) as (_ & A2 & _).
    destruct ld; [rewrite A2|]; exact H. }
  set (w3 := if ad then audioEffect w2 else w2).
  assert (H3 : AudioInv (audio w3)).
  { unfold w3. destruct ad; [apply audioEffect_AudioInv|]; exact H2. }
  clearbody w3. destruct ld; [|exact H3].
  destruct (lightningEffect_frame w3) as (_ & B2 & _). rewrite B2. exact H3.
Qed.

Lemma updateSettings_LoopInv (s : AppSettings) (w : World) :
  LoopInv w -> LoopInv (updateSettings s w).
Proof.
  intros HI. unfold updateSettings; cbv zeta.
  set (w1 := withSettings s w).
  destruct (negb (Qeq_bool (stormIntensity (settings w)) (stormIntensity s))
            || negb (Bool.eqb (isAudioPlaying (settings w)) (isAudioPlaying s)))
    eqn:Eld.
  - (* the lightning effect runs again: cleanup, then a fresh schedule *)
    apply lightningEffect_LoopInv.
    assert (Hnone : loopTimers (lightningCleanup w1) = []).
    { apply stopLightningLoop_clears. apply LoopInv_Tracked in HI. exact HI. }
    destruct (negb (Bool.eqb (isAudioPlaying (settings w)) (isAudioPlaying s))
              || negb (Qeq_bool (audioVolume (settings w)) (audioVolume s)));
      [|exact Hnone].
    destruct (audioEffect_Benign (lightningCleanup w1)) as (_ & _ & _ & B4).
    rewrite B4. exact Hnone.
  - (* its dependencies are unchanged: the Armed timer stays *)
    apply orb_false_elim in Eld. destruct Eld as [E1 E2].
    apply negb_false_iff in E1, E2.
    apply Qeq_bool_iff in E1. apply eqb_prop in E2.
    assert (H1 : LoopInv w1).
    { unfold LoopInv in *. unfold w1; cbn.
      revert HI. apply Forall_impl. intros t [Hid Hcb]. split; [exact Hid|].
      destruct (callback t); try exact I.
      destruct Hcb as (C1 & C2 & C3). repeat split; try assumption.
      - rewrite C1. exact E1.
      - congruence. }
    destruct (negb (Bool.eqb (isAudioPlaying (settings w)) (isAudioPlaying s))
              || negb (Qeq_bool (audioVolume (settings w)) (audioVolume s)));
      [|exact H1].
    eapply Benign_LoopInv; [apply audioEffect_Benign|exact H1].
Qed.

Lemma filter_same_id (id : nat) (l : list Timer) :
  (forall x, In x l -> timerId x = id) ->
  filter (fun t' => negb (Nat.eqb (timerId t') id)) l = [].
Proof.
  induction l as [|x l IH]; intros H; [reflexivity|].
  cbn. rewrite (H x (or_introl eq_refl)), Nat.eqb_refl.
  apply IH. intros y Hy. apply H. right. exact Hy.
Qed.

Lemma runCallback_LoopInv (t : Timer) (w : World) :
  LoopInv w -> In t (timers w) ->
  LoopInv (runCallback (callback t) (clearTimeout (timerId t) w)).
Proof.
  intros HI Hin.
  set (w1 := clearTimeout (timerId t) w).
  assert (H1 : LoopInv w1).
  { unfold LoopInv in *. unfold w1. rewrite loopTimers_clearTimeout.
    cbn [lightningLoopRef settings clearTimeout withTimers].
    clear Hin. induction HI as [|x l Hx _ IH]; cbn; [constructor|].
    destruct (negb (Nat.eqb (timerId x) (timerId t))); [constructor|];
      assumption. }
  destruct (callback t) as [s|b| |i v r] eqn:Ecb; cbn [runCallback].
  - (* the Armed timer itself fired *)
    assert (Hloop : In t (loopTimers w)).
    { unfold loopTimers. apply filter_In. split; [exact Hin|].
      unfold isLoop. rewrite Ecb. reflexivity. }
    unfold LoopInv in HI. rewrite Forall_forall in HI.
    destruct (HI t Hloop) as [Hid Hs]. rewrite Ecb in Hs.
    destruct Hs as (S1 & S2 & S3).
    assert (Hnone : loopTimers w1 = []).
    { unfold w1. rewrite loopTimers_clearTimeout.
      apply filter_same_id.
      intros x Hx. destruct (HI x Hx) as [Hx' _]. congruence. }
    destruct (triggerLightningEvent_Benign s w1) as (B1 & B2 & B3 & B4).
    apply scheduleLightning_LoopInv.
    + rewrite B4. exact Hnone.
    + rewrite B1. exact S1.
    + rewrite B1. exact S2.
  - eapply Benign_LoopInv; [apply doFlash_Benign|exact H1].
  - exact H1.
  - eapply Benign_LoopInv; [apply thunderPlayback_Benign|exact H1].
Qed.

Lemma triggerLightningEvent_audio (s : AppSettings) (w : World) :
  audio (triggerLightningEvent s w) = audio w.
Proof.
  unfold triggerLightningEvent, random; cbv beta iota zeta.
  destruct (gtb (randomDraws w (randomPos w)) 0.8); [reflexivity|].
  destruct (isAudioPlaying s);
    [rewrite (proj1 (triggerThunder_frame _ _))|];
    destruct (gtb _ 0.7); reflexivity.
Qed.

Lemma runCallback_AudioInv (cb : Callback) (w : World) :
  AudioInv (audio w) -> AudioInv (audio (runCallback cb w)).
Proof.
  intros H. destruct cb as [s|b| |i v r]; cbn [runCallback].
  - rewrite scheduleLightning_audio, triggerLightningEvent_audio. exact H.
  - exact H.
  - exact H.
  - apply thunderPlayback_AudioInv. exact H.
Qed.

Lemma runCallback_randomDraws (cb : Callback) (w : World) :
  randomDraws (runCallback cb w) = randomDraws w.
Proof.
  destruct cb as [s|b| |i v r]; cbn [runCallback].
  - destruct (scheduleLightning_frame s (triggerLightningEvent s w))
      as (_ & _ & A & _).
    rewrite A. apply triggerLightningEvent_Benign.
  - reflexivity.
  - reflexivity.
  - apply thunderPlayback_Benign.
Qed.

(** The audio effect writes the audio state and nothing else. *)
Lemma audioEffect_only_audio (w : World) :
  audioEffect w = withAudio (audio (audioEffect w)) w.
Proof.
  unfold audioEffect, setGlobalVolume, initAudio.
  destruct w as [n i ts rd rp al a st lv lr tr]; cbn.
  destruct (isAudioPlaying st); [destruct (isInitialized a)|]; cbn;
    repeat match goal with
           | |- context [match ?x with _ => _ end] => destruct x; cbn
           end; reflexivity.
Qed.

Lemma audioEffect_Fresh (w : World) : Fresh w -> Fresh (audioEffect w).
Proof. intros H. rewrite audioEffect_only_audio. exact H. Qed.

Lemma lightningEffect_Fresh (w : World) :
  Fresh w -> Fresh (lightningEffect w).
Proof.
  intros H. unfold lightningEffect; cbv zeta.
  destruct (gtb _ 0); [apply scheduleLightning_Fresh|];
    apply stopLightningLoop_Fresh, H.
Qed.

Lemma updateSettings_Fresh (s : AppSettings) (w : World) :
  Fresh w -> Fresh (updateSettings s w).
Proof.
  intros H. unfold updateSettings; cbv zeta.
  set (w1 := withSettings s w).
  assert (H1 : Fresh w1) by exact H. clearbody w1.
  destruct (negb (Qeq_bool _ _) || negb (Bool.eqb _ _));
    destruct (negb (Bool.eqb _ _) || negb (Qeq_bool _ _));
    repeat first [ exact H1
                 | apply lightningEffect_Fresh
                 | apply audioEffect_Fresh
                 | apply stopLightningLoop_Fresh ].
Qed.

Lemma runCallback_Fresh (cb : Callback) (w : World) :
  Fresh w -> Fresh (runCallback cb w).
Proof.
  intros H. destruct cb as [s|b| |i v r]; cbn [runCallback].
  - apply scheduleLightning_Fresh, triggerLightningEvent_Fresh, H.
  - apply doFlash_Fresh, H.
  - exact H.
  - apply thunderPlayback_Fresh, H.
Qed.

Lemma step_Inv (l : Label) (w w' : World) :
  Inv w -> step l w = Some w' -> Inv w'.
Proof.
  intros (HU & HA & HL & HF) Hstep.
  destruct l as [s|dt| |node|]; cbn [step] in Hstep.
  - injection Hstep as <-. split; [|split; [|split]].
    + unfold UnitDraws.
      rewrite (proj1 (proj2 (updateSettings_frame s w))). exact HU.
    + apply updateSettings_AudioInv, HA.
    + apply updateSettings_LoopInv, HL.
    + apply updateSettings_Fresh, HF.
  - destruct (leb 0 dt && _); [|discriminate].
    injection Hstep as <-. split; [|split; [|split]]; assumption.
  - destruct (earliest (timers w)) as [t|] eqn:Et; [|discriminate].
    destruct (leb (due t) (now w)); [|discriminate].
    injection Hstep as <-. apply earliest_In in Et.
    split; [|split; [|split]].
    + unfold UnitDraws. rewrite runCallback_randomDraws. exact HU.
    + apply runCallback_AudioInv. exact HA.
    + apply runCallback_LoopInv; assumption.
    + apply runCallback_Fresh, Fresh_clearTimeout, HF.
  - destruct (nth_error (thunderPool (audio w)) node) as [a|] eqn:En;
      [|discriminate].
    destruct (paused a); [discriminate|].
    injection Hstep as <-.
    split; [exact HU|split; [|split; [exact HL|exact HF]]].
    destruct HA as (Hp & Hg). unfold AudioInv; cbn.
    rewrite replaceAt_length. split; [|exact Hg].
    destruct (isInitialized (audio w)); [exact Hp|].
    rewrite Hp in En. destruct node; discriminate.
  - injection Hstep as <-.
    split; [exact HU|split; [exact HA|split; [exact HL|exact HF]]].
Qed.

Lemma run_Inv (ls : list Label) :
  forall w w' : World, Inv w -> run ls w = Some w' -> Inv w'.
Proof.
  induction ls as [|l ls IH]; intros w w' HI Hrun; cbn in Hrun.
  - injection Hrun as <-. exact HI.
  - destruct (step l w) as [w1|] eqn:E; [|discriminate].
    apply (IH w1 w'); [|exact Hrun]. apply (step_Inv l w w1); assumption.
Qed.

Lemma initialWorld_Inv (draws : nat -> Q) (allowed : bool) :
  (forall n : nat, 0 <= draws n /\ draws n < 1) ->
  Inv (initialWorld draws allowed).
Proof.
  intros Hd. split; [|split; [|split]].
  - exact Hd.
  - unfold initialWorld, mount.
    rewrite (proj1 (proj2 (lightningEffect_frame _))).
    apply audioEffect_AudioInv. unfold AudioInv.
    cbn [audio pageAtLoad audioAtLoad isInitialized thunderPool
         globalVolumeScalar].
    split; [reflexivity|split; lra].
  - unfold initialWorld, mount. apply lightningEffect_LoopInv.
    rewrite (proj2 (proj2 (proj2 (audioEffect_Benign _)))). reflexivity.
  - unfold initialWorld, mount.
    apply lightningEffect_Fresh, audioEffect_Fresh. constructor.
Qed.

(** Every world the page can be in satisfies the invariants. *)
Lemma Reachable_Inv (w : World) : Reachable w -> Inv w.
Proof.
  intros (draws & allowed & ls & Hd & Hrun).
  apply (run_Inv ls _ _ (initialWorld_Inv draws allowed Hd) Hrun).
Qed.

(** *** Changing the storm intensity while Armed *)

Lemma stopLightningLoop_timers_count (f : Timer -> bool) (w : World) :
  (count f (timers (stopLightningLoop w)) <= count f (timers w))%nat.
Proof.
  unfold stopLightningLoop. destruct (lightningLoopRef w); [|lia].
  cbn. apply count_filter_le.
Qed.

(** With a changed intensity above the threshold, [updateSettings] leaves
    exactly the newly armed timer. *)
Lemma updateSettings_rearms (s : AppSettings) (w : World) :
  Tracked w ->
  ~ stormIntensity s == stormIntensity (settings w) ->
  0.01 < stormIntensity s ->
  loopTimers (updateSettings s w) = [armedTimer s w] /\
  lightningLoopRef (updateSettings s w) = Some (nextTimerId w).
Proof.
  intros HT Hne Hgt. unfold updateSettings; cbv zeta.
  assert (E : Qeq_bool (stormIntensity (settings w)) (stormIntensity s)
              = false).
  { destruct (Qeq_bool _ _) eqn:E; [|reflexivity].
    apply Qeq_bool_iff in E. exfalso. apply Hne. symmetry. exact E. }
  rewrite E. cbn [negb orb].
  set (w1 := lightningCleanup (withSettings s w)).
  assert (H1 : loopTimers w1 = [] /\ settings w1 = s /\
               nextTimerId w1 = nextTimerId w /\ now w1 = now w /\
               randomDraws w1 = randomDraws w /\ randomPos w1 = randomPos w).
  { unfold w1, lightningCleanup.
    destruct (stopLightningLoop_frame (withSettings s w))
      as (A1 & _ & A3 & A4 & A5 & A6 & _).
    split; [apply stopLightningLoop_clears; exact HT|].
    repeat split; assumption. }
  clearbody w1.
  match goal with
  | |- context [if ?c then audioEffect w1 else w1] =>
      set (w2 := if c then audioEffect w1 else w1)
  end.
  assert (H2 : loopTimers w2 = [] /\ settings w2 = s /\
               nextTimerId w2 = nextTimerId w /\ now w2 = now w /\
               randomDraws w2 = randomDraws w /\ randomPos w2 = randomPos w).
  { unfold w2. destruct (_ || _); [|exact H1].
    rewrite audioEffect_only_audio. exact H1. }
  clearbody w2. clear H1 w1.
  destruct H2 as (B1 & B2 & B3 & B4 & B5 & B6).
  unfold lightningEffect; cbv zeta. rewrite B2.
  assert (G : gtb (stormIntensity s) 0 = true) by (apply gtb_true; lra).
  rewrite G, scheduleLightning_armed by exact Hgt.
  destruct (stopLightningLoop_frame w2) as (_ & _ & C3 & C4 & C5 & C6 & _).
  pose proof (stopLightningLoop_keeps_none w2 B1) as C1.
  unfold loopTimers in *; cbn. rewrite filter_app, C1. cbn.
  unfold armedTimer. rewrite C3, C4, C5, C6, B3, B4, B5, B6.
  split; reflexivity.
Qed.

(** No Armed timer is pending while the storm intensity of the current
    settings is at most the threshold. *)
Lemma LoopInv_idle (w : World) :
  LoopInv w -> stormIntensity (settings w) <= 0.01 -> loopTimers w = [].
Proof.
  intros HI Hq. unfold LoopInv in HI.
  destruct (loopTimers w) as [|t l] eqn:E; [reflexivity|exfalso].
  assert (Hin : In t (loopTimers w)) by (rewrite E; left; reflexivity).
  unfold loopTimers in Hin. apply filter_In in Hin. destruct Hin as [_ Hl].
  inversion HI as [|t0 l0 [_ Hcb] _]; subst.
  unfold isLoop in Hl. destruct (callback t); try discriminate.
  destruct Hcb as (C1 & _ & C3). rewrite C1 in C3. lra.
Qed.

(** With a changed intensity at or below the threshold, none is armed. *)
Lemma updateSettings_idles (s : AppSettings) (w : World) :
  LoopInv w -> stormIntensity s <= 0.01 ->
  loopTimers (updateSettings s w) = [].
Proof.
  intros HL Hq. apply LoopInv_idle; [apply updateSettings_LoopInv, HL|].
  rewrite (proj1 (updateSettings_frame s w)). exact Hq.
Qed.

(** C3 (as amended). Changing [stormIntensity] while a timer is pending
    cancels the pending timer at once.  If the new value is above the
    0.01 threshold a new timer is armed in the same render: afterwards the
    only Armed timer is the one set at the moment of the change, with the
    delay [5000 + random * (1 - stormIntensity) * 40000] computed from the
    new intensity; it is the timer [lightningLoopRef] holds, and no timer
    that was Armed before the change is still pending.  If the new value
    is at most 0.01 no timer is armed. *)
Theorem C3_changed_intensity_rearms_with_new_delay
  (w : World) (s : AppSettings) :
  Reachable w ->
  ~ stormIntensity s == stormIntensity (settings w) ->
  (0.01 < stormIntensity s ->
   loopTimers (updateSettings s w) =
     [{| timerId := nextTimerId w; setAt := now w;
         delay := 5000 + randomDraws w (randomPos w)
                         * ((1.0 - stormIntensity s) * 40000);
         callback := CbLightningLoop s |}] /\
   lightningLoopRef (updateSettings s w) = Some (nextTimerId w) /\
   forall t : Timer,
     In t (loopTimers w) -> ~ In t (timers (updateSettings s w))) /\
  (stormIntensity s <= 0.01 -> loopTimers (updateSettings s w) = []).
Proof.
  intros HR Hne.
  apply Reachable_Inv in HR. destruct HR as (_ & _ & HL & HF).
  split.
  - intros Hgt.
    destruct (updateSettings_rearms s w (LoopInv_Tracked w HL) Hne Hgt)
      as [H1 H2].
    split; [exact H1|]. split; [exact H2|].
    intros t Hold Hnew.
    unfold loopTimers in Hold. apply filter_In in Hold.
    destruct Hold as [Hin Hloop].
    assert (Hin' : In t (loopTimers (updateSettings s w))).
    { unfold loopTimers. apply filter_In. split; assumption. }
    rewrite H1 in Hin'. destruct Hin' as [<-|[]].
    unfold Fresh in HF. rewrite Forall_forall in HF.
    specialize (HF _ Hin). cbn in HF. lia.
  - intros Hq. apply updateSettings_idles; assumption.
Qed.

Lemma drawsOf_unit (l : list Q) :
  Forall (fun q => 0 <= q /\ q < 1) l ->
  forall n : nat, 0 <= drawsOf l n /\ drawsOf l n < 1.
Proof.
  intros H n. unfold drawsOf. revert n.
  induction H as [|q l Hq _ IH]; intros [|n]; cbn; try exact Hq; try lra.
  apply IH.
Qed.

Lemma runFrom_Reachable (draws : list Q) (ls : list Label) :
  Forall (fun q => 0 <= q /\ q < 1) draws ->
  run ls (initialWorld (drawsOf draws) true) <> None ->
  Reachable (runFrom draws ls).
Proof.
  intros Hd Hrun. exists (drawsOf draws), true, ls.
  split; [apply drawsOf_unit; exact Hd|].
  unfold runFrom. destruct (run ls _); [reflexivity|contradiction].
Qed.

Lemma armedWorld_Reachable : Reachable armedWorld.
Proof.
  apply runFrom_Reachable; [constructor|].
  vm_compute. discriminate.
Qed.

Lemma C3_witness :
  loopTimers (updateSettings (storm 0.9) armedWorld) =
    [{| timerId := nextTimerId armedWorld; setAt := now armedWorld;
        delay := 5000 + randomDraws armedWorld (randomPos armedWorld)
                        * ((1.0 - stormIntensity (storm 0.9)) * 40000);
        callback := CbLightningLoop (storm 0.9) |}] /\
  lightningLoopRef (updateSettings (storm 0.9) armedWorld)
  = Some (nextTimerId armedWorld) /\
  forall t : Timer,
    In t (loopTimers armedWorld) ->
    ~ In t (timers (updateSettings (storm 0.9) armedWorld)).
Proof.
  refine (proj1 (C3_changed_intensity_rearms_with_new_delay
                   armedWorld (storm 0.9) armedWorld_Reachable _) _).
  - vm_compute. intros H. discriminate H.
  - vm_compute. reflexivity.
Defined.

(** C3 as stated fails: the storm is at 10% and the Armed timer (id 1) is
    due at 23000 ms; at 1000 ms the user moves the storm to 90%.  The
    pending timer is gone and timer 2 is due at 8000 ms: the pending delay
    has been replaced by one computed from the new intensity. *)
Lemma C3_pending_delay_is_replaced :
  map (fun t => (timerId t, Qred (due t))) (loopTimers armedWorld)
  = [(1%nat, 23000)] /\
  map (fun t => (timerId t, Qred (due t)))
      (loopTimers (updateSettings (storm 0.9) armedWorld))
  = [(2%nat, 8000)].
Proof. split; vm_compute; reflexivity. Qed.

(** *** Setting the storm intensity to 0 *)

Lemma loopTimers_count (w : World) :
  length (loopTimers w) = count isLoop (timers w).
Proof. reflexivity. Qed.

Lemma count_zero_loopTimers (w : World) :
  (count isLoop (timers w) <= 0)%nat -> loopTimers w = [].
Proof.
  rewrite <- loopTimers_count. destruct (loopTimers w); cbn; [reflexivity|lia].
Qed.

(** A render whose storm intensity is at most the threshold adds no
    timer. *)
Lemma updateSettings_quiet_count
  (f : Timer -> bool) (s : AppSettings) (w : World) :
  stormIntensity s <= 0.01 ->
  (count f (timers (updateSettings s w)) <= count f (timers w))%nat.
Proof.
  intros Hq. unfold updateSettings; cbv zeta.
  set (ld := negb (Qeq_bool _ _) || negb (Bool.eqb _ _)).
  set (ad := negb (Bool.eqb _ _) || negb (Qeq_bool _ _)).
  set (w1 := withSettings s w).
  set (w2 := if ld then lightningCleanup w1 else w1).
  assert (H2 : settings w2 = s /\
               (count f (timers w2) <= count f (timers w))%nat).
  { unfold w2, lightningCleanup.
    destruct ld; [|split; [reflexivity|apply Nat.le_refl]].
    split; [apply stopLightningLoop_frame|].
    apply (stopLightningLoop_timers_count f w1). }
  set (w3 := if ad then audioEffect w2 else w2).
  assert (H3 : settings w3 = s /\
               (count f (timers w3) <= count f (timers w))%nat).
  { unfold w3. destruct ad; [|exact H2].
    rewrite audioEffect_only_audio. exact H2. }
  clearbody w3. destruct H3 as [A1 A2].
  destruct ld; [|exact A2].
  unfold lightningEffect; cbv zeta. rewrite A1.
  pose proof (stopLightningLoop_timers_count f w3) as A3.
  destruct (gtb (stormIntensity s) 0); [|lia].
  rewrite scheduleLightning_idle by exact Hq. lia.
Qed.

(** In a world with no Armed timer, a step that does not raise the storm
    intensity above the threshold arms none, calls [triggerThunder] never,
    and lets a flash or a thunder playback happen only by using up a
    timer that was already pending. *)
Lemma quiet_step (l : Label) (w w' : World) :
  quietLabel l -> loopTimers w = [] -> step l w = Some w' ->
  loopTimers w' = [] /\
  thunderCalls w' = thunderCalls w /\
  (flashesSeen w' + flashesPending w'
   <= flashesSeen w + flashesPending w)%nat /\
  (thunderPlaysSeen w' + thunderPlaysPending w'
   <= thunderPlaysSeen w + thunderPlaysPending w)%nat.
Proof.
  intros Hq Hnone Hstep.
  unfold thunderCalls, flashesSeen, flashesPending, thunderPlaysSeen,
    thunderPlaysPending.
  destruct l as [s|dt| |node|]; cbn [step quietLabel] in *.
  - injection Hstep as <-.
    destruct (updateSettings_frame s w) as (_ & _ & Ht & _). rewrite Ht.
    pose proof (updateSettings_quiet_count isLoop s w Hq) as H1.
    pose proof (updateSettings_quiet_count isDoFlash s w Hq) as H2.
    pose proof (updateSettings_quiet_count isThunderPlay s w Hq) as H3.
    change (count isLoop (timers w)) with (length (loopTimers w)) in H1.
    rewrite Hnone in H1.
    split; [apply count_zero_loopTimers; exact H1|].
    split; [reflexivity|]. split; lia.
  - destruct (leb 0 dt && _); [|discriminate].
    injection Hstep as <-. cbn. repeat split; auto.
  - destruct (earliest (timers w)) as [t|] eqn:Et; [|discriminate].
    destruct (leb (due t) (now w)); [|discriminate].
    injection Hstep as <-. apply earliest_In in Et.
    set (w1 := clearTimeout (timerId t) w).
    assert (Hn1 : loopTimers w1 = []).
    { unfold w1. rewrite loopTimers_clearTimeout, Hnone. reflexivity. }
    pose proof (count_filter_le isDoFlash
      (fun t' => negb (Nat.eqb (timerId t') (timerId t))) (timers w)) as F1.
    pose proof (count_filter_le isThunderPlay
      (fun t' => negb (Nat.eqb (timerId t') (timerId t))) (timers w)) as F2.
    destruct (callback t) as [s|b| |i v r] eqn:Ecb; cbn [runCallback].
    + (* an Armed timer: there is none *)
      exfalso.
      assert (Hin : In t (loopTimers w)).
      { unfold loopTimers. apply filter_In. split; [exact Et|].
        unfold isLoop. rewrite Ecb. reflexivity. }
      rewrite Hnone in Hin. destruct Hin.
    + (* the second flash of a double flash *)
      split; [rewrite (proj2 (proj2 (proj2 (doFlash_Benign b w1))));
              exact Hn1|].
      rewrite doFlash_trace, doFlash_timers, !count_app.
      pose proof (count_clear_member isDoFlash t (timers w) Et) as F3.
      unfold isDoFlash at 1 in F3. rewrite Ecb in F3. specialize (F3 eq_refl).
      unfold w1; cbn. unfold count in *; cbn. split; [reflexivity|].
      split; lia.
    + (* the end of a flash *)
      split; [exact Hn1|]. unfold w1; cbn. unfold count in *.
      split; [reflexivity|]. split; lia.
    + (* a thunder playback *)
      split; [rewrite (proj2 (proj2 (proj2 (thunderPlayback_Benign i v r w1))));
              exact Hn1|].
      pose proof (count_clear_member isThunderPlay t (timers w) Et) as F3.
      unfold isThunderPlay at 1 in F3. rewrite Ecb in F3.
      specialize (F3 eq_refl).
      unfold thunderPlayback.
      destruct (nth_error (thunderPool (audio w1)) i);
        [destruct (leb 0 v && leb v 1)|]; unfold w1; cbn;
        unfold count in *; cbn; (split; [reflexivity|split; lia]).
  - destruct (nth_error (thunderPool (audio w)) node) as [a|];
      [|discriminate].
    destruct (paused a); [discriminate|].
    injection Hstep as <-. cbn. repeat split; auto.
  - injection Hstep as <-. cbn. repeat split; auto.
Qed.

Lemma quiet_run (ls : list Label) :
  forall w w' : World,
    Forall quietLabel ls -> loopTimers w = [] -> run ls w = Some w' ->
    loopTimers w' = [] /\
    thunderCalls w' = thunderCalls w /\
    (flashesSeen w' + flashesPending w'
     <= flashesSeen w + flashesPending w)%nat /\
    (thunderPlaysSeen w' + thunderPlaysPending w'
     <= thunderPlaysSeen w + thunderPlaysPending w)%nat.
Proof.
  induction ls as [|l ls IH]; intros w w' Hq Hnone Hrun; cbn in Hrun.
  - injection Hrun as <-. repeat split; auto.
  - destruct (step l w) as [w1|] eqn:E; [|discriminate].
    inversion Hq as [|l0 ls0 Hl Hls]; subst.
    destruct (quiet_step l w w1 Hl Hnone E) as (A1 & A2 & A3 & A4).
    destruct (IH w1 w' Hls A1 Hrun) as (B1 & B2 & B3 & B4).
    split; [exact B1|]. split; [congruence|]. split; lia.
Qed.

(** C6 (as amended). Setting [stormIntensity] to 0 cancels the pending
    Armed timer at once, and as long as the intensity is not raised above
    the 0.01 threshold of [scheduleLightning] no timer is armed and
    [triggerThunder] is never called.  Timers a strike had already set are
    not cancelled: at most the second flashes still pending can fire, and
    at most the thunder playbacks still pending can start. *)
Theorem C6_zero_intensity_cancels_and_arms_nothing
  (w w' : World) (s : AppSettings) (ls : list Label) :
  Reachable w -> stormIntensity s == 0 -> Forall quietLabel ls ->
  run (UpdateSettings s :: ls) w = Some w' ->
  loopTimers (updateSettings s w) = [] /\
  loopTimers w' = [] /\
  thunderCalls w' = thunderCalls w /\
  (flashesSeen w' <= flashesSeen w + flashesPending w)%nat /\
  (thunderPlaysSeen w' <= thunderPlaysSeen w + thunderPlaysPending w)%nat.
Proof.
  intros HR Hs Hq Hrun. cbn [run step] in Hrun.
  apply Reachable_Inv in HR. destruct HR as (_ & _ & HL & _).
  assert (Hs' : stormIntensity s <= 0.01) by (rewrite Hs; lra).
  assert (Hnone : loopTimers (updateSettings s w) = []).
  { apply LoopInv_idle; [apply updateSettings_LoopInv, HL|].
    rewrite (proj1 (updateSettings_frame s w)). exact Hs'. }
  destruct (quiet_run ls _ _ Hq Hnone Hrun) as (A1 & A2 & A3 & A4).
  destruct (updateSettings_frame s w) as (_ & _ & Ht & _).
  pose proof (updateSettings_quiet_count isDoFlash s w Hs') as B1.
  pose proof (updateSettings_quiet_count isThunderPlay s w Hs') as B2.
  unfold thunderCalls, flashesSeen, flashesPending, thunderPlaysSeen,
    thunderPlaysPending in *.
  rewrite Ht in A2, A3, A4.
  split; [exact Hnone|]. split; [exact A1|]. split; [exact A2|]. split; lia.
Qed.

Lemma struckWorld_Reachable : Reachable struckWorld.
Proof.
  apply runFrom_Reachable.
  - unfold struckDraws. repeat constructor; lra.
  - vm_compute. discriminate.
Qed.

Lemma C6_witness :
  loopTimers (updateSettings (storm 0) struckWorld) = [] /\
  loopTimers quietedWorld = [] /\
  thunderCalls quietedWorld = thunderCalls struckWorld /\
  (flashesSeen quietedWorld
   <= flashesSeen struckWorld + flashesPending struckWorld)%nat /\
  (thunderPlaysSeen quietedWorld
   <= thunderPlaysSeen struckWorld + thunderPlaysPending struckWorld)%nat.
Proof.
  apply (C6_zero_intensity_cancels_and_arms_nothing
           struckWorld quietedWorld (storm 0) afterZero).
  - exact struckWorld_Reachable.
  - reflexivity.
  - unfold afterZero. repeat constructor.
  - vm_compute. reflexivity.
Defined.

(** C6 as stated fails: a strike at 5000 ms (storm at 50%) schedules the
    second flash of a double flash for 5150 ms and its thunder for
    6400 ms; the user sets the storm to 0 at 5050 ms.  The Armed timer is
    cancelled, yet the second flash fires at 5150 ms (the flash value
    goes to 0.72 again) and the thunder plays at 6400 ms. *)
Lemma C6_flash_and_thunder_fire_after_zero :
  (flashesSeen struckWorld, thunderPlaysSeen struckWorld) = (1%nat, 0%nat) /\
  option_map
    (fun w => (stormIntensity (settings w), loopTimers w, flashesSeen w,
               Qred (lightningVal w), Qred (now w)))
    (run [UpdateSettings (storm 0); Elapse 100; FireTimer] struckWorld)
  = Some (0, [], 2%nat, 18 # 25, 5150) /\
  option_map
    (fun w => (flashesSeen w, thunderPlaysSeen w, Qred (now w)))
    (run (UpdateSettings (storm 0) :: afterZero) struckWorld)
  = Some (2%nat, 1%nat, 6400).
Proof. repeat split; vm_compute; reflexivity. Qed.

(** *** The strike distance *)

Lemma triggerLightningEvent_trace (s : AppSettings) (w : World) :
  randomDraws w (randomPos w) <= 0.8 ->
  trace (triggerLightningEvent s w) =
  (if isAudioPlaying s
   then [EvThunderCall
           (strikeDistance (randomDraws w (S (randomPos w)))
              (stormIntensity s))]
   else [])
  ++ EvFlash
       (flashBrightness
          (strikeDistance (randomDraws w (S (randomPos w)))
             (stormIntensity s)))
     :: trace w.
Proof.
  intros Hskip. apply gtb_false in Hskip.
  unfold triggerLightningEvent, random; cbv beta iota zeta.
  rewrite Hskip.
  destruct (isAudioPlaying s);
    [rewrite (proj1 (proj2 (proj2 (proj2 (proj2
               (triggerThunder_frame _ _))))))|];
    destruct (gtb _ 0.7); reflexivity.
Qed.

(** C4. A strike that is not skipped uses the distance
    [Math.max(0, Math.min(1, raw - stormIntensity * 0.3))] of the draw
    [raw] (the flash brightness is computed from it and, with the audio
    on, it is the distance passed to [triggerThunder]), which equals
    [clamp(raw - stormIntensity * 0.3, 0, 1)]; for a fixed draw the
    distance does not increase when the storm intensity increases; and the
    expected distance under a uniform draw of any resolution [1/n],
    [n >= 2], is lower at storm intensity 0.9 than at 0.1. *)
Theorem C4_strike_distance_is_clamped_and_biased :
  (forall (s : AppSettings) (w : World),
     randomDraws w (randomPos w) <= 0.8 ->
     let raw := randomDraws w (S (randomPos w)) in
     let distance := strikeDistance raw (stormIntensity s) in
     trace (triggerLightningEvent s w) =
       (if isAudioPlaying s then [EvThunderCall distance] else [])
       ++ EvFlash (flashBrightness distance) :: trace w /\
     distance == clamp (raw - stormIntensity s * 0.3) 0 1) /\
  (forall raw low high : Q,
     low <= high -> strikeDistance raw high <= strikeDistance raw low) /\
  (forall n : nat, (2 <= n)%nat -> meanDistance n 0.9 < meanDistance n 0.1).
Proof.
  split; [|split].
  - intros s w Hskip; cbv zeta. split.
    + apply triggerLightningEvent_trace; assumption.
    + apply strikeDistance_is_clamp.
  - exact strikeDistance_antitone.
  - exact meanDistance_bias.
Qed.

(** Over 1000 equally likely draws the mean distance at storm intensity
    0.9 is below the mean at 0.1. *)
Lemma C4_witness : meanDistance 1000 0.9 < meanDistance 1000 0.1.
Proof.
  apply (proj2 (proj2 C4_strike_distance_is_clamped_and_biased) 1000%nat).
  lia.
Defined.

(** *** The thunder mapping *)

Lemma findIndex_Some {A : Type} (f : A -> bool) (l : list A) (i : nat) :
  findIndex f l = Some i ->
  exists a : A,
    nth_error l i = Some a /\ f a = true /\
    forall (j : nat) (b : A),
      (j < i)%nat -> nth_error l j = Some b -> f b = false.
Proof.
  revert i. induction l as [|x l IH]; intros i H; cbn in H; [discriminate|].
  destruct (f x) eqn:Ex.
  - injection H as <-. exists x. repeat split; auto. intros j b Hj. lia.
  - destruct (findIndex f l) as [k|]; [|discriminate].
    injection H as <-. destruct (IH k eq_refl) as (a & Ha & Hfa & Hlt).
    exists a. repeat split; auto.
    intros [|j] b Hj Hb; cbn in Hb.
    + injection Hb as <-. exact Ex.
    + apply (Hlt j b); [lia|exact Hb].
Qed.

Lemma findIndex_None {A : Type} (f : A -> bool) (l : list A) :
  findIndex f l = None -> forall b : A, In b l -> f b = false.
Proof.
  induction l as [|x l IH]; intros H b Hin; [destruct Hin|].
  cbn in H. destruct (f x) eqn:Ex; [discriminate|].
  destruct (findIndex f l); [discriminate|].
  destruct Hin as [<-|Hin]; [exact Ex|apply IH; auto].
Qed.

Lemma triggerThunder_scheduled (distance : Q) (w : World) :
  isInitialized (audio w) = true ->
  0.05 < globalVolumeScalar (audio w) ->
  triggerThunder distance w =
  withTimers (S (nextTimerId w))
    (timers w ++
     [{| timerId := nextTimerId w; setAt := now w;
         delay := distance * 4000 + randomDraws w (randomPos w) * 500;
         callback :=
           CbThunderPlay (freeNodeIndex (thunderPool (audio w)))
             (Qmax 0.1 ((1.0 - distance) * 0.8)
              * globalVolumeScalar (audio w))
             (1.1 - distance * 0.5
              + randomDraws w (S (randomPos w)) * 0.1) |}])
    (withRandomPos (S (S (randomPos w))) w).
Proof.
  intros Hi Hg. apply leb_false in Hg.
  unfold triggerThunder, random, setTimeout. rewrite Hi, Hg. reflexivity.
Qed.

Lemma eventVolume_range (distance g : Q) :
  0 <= distance -> distance <= 1 -> 0 <= g -> g <= 1 ->
  0 <= Qmax 0.1 ((1.0 - distance) * 0.8) * g /\
  Qmax 0.1 ((1.0 - distance) * 0.8) * g <= 1.
Proof.
  intros H0 H1 G0 G1.
  destruct (Q.max_spec 0.1 ((1.0 - distance) * 0.8)) as [[_ ->]|[_ ->]];
    split; nra.
Qed.

Lemma freeNodeIndex_spec (pool : list HTMLAudioElement) :
  (exists a : HTMLAudioElement,
     nth_error pool (freeNodeIndex pool) = Some a /\ paused a = true /\
     forall (j : nat) (b : HTMLAudioElement),
       (j < freeNodeIndex pool)%nat -> nth_error pool j = Some b ->
       paused b = false) \/
  (freeNodeIndex pool = 0%nat /\
   forall b : HTMLAudioElement, In b pool -> paused b = false).
Proof.
  unfold freeNodeIndex. destruct (findIndex paused pool) as [i|] eqn:E.
  - left. apply findIndex_Some. exact E.
  - right. split; [reflexivity|apply findIndex_None; exact E].
Qed.

Lemma freeNodeIndex_lt (pool : list HTMLAudioElement) :
  pool <> [] -> (freeNodeIndex pool < length pool)%nat.
Proof.
  intros Hne. destruct (freeNodeIndex_spec pool) as [(a & Ha & _)|[-> _]].
  - apply nth_error_Some. rewrite Ha. discriminate.
  - destruct pool; [contradiction|cbn; lia].
Qed.

(** C5. In a reachable world where the audio system is initialised and
    the global volume scalar is above 0.05 (the only case in which
    [triggerThunder] schedules anything), for every distance in [[0,1]]:
    the pool has 4 slots; the slot chosen is the first paused one, or
    slot 0 when none is paused; exactly one timer is set, with delay
    [distance * 4000 + r1 * 500] where [r1 * 500] is in [[0, 500)]; and
    when that timer fires (the pool still having its 4 slots) it writes
    [volume = max(0.1, (1 - distance) * 0.8) * globalVolumeScalar],
    [playbackRate = 1.1 - distance * 0.5 + r2 * 0.1] with [r2 * 0.1] in
    [[0, 0.1)], and [currentTime = 0] to that slot and plays it. *)
Theorem C5_triggerThunder_schedules_mapped_playback
  (w : World) (distance : Q) :
  Reachable w ->
  isInitialized (audio w) = true ->
  0.05 < globalVolumeScalar (audio w) ->
  0 <= distance -> distance <= 1 ->
  let pool := thunderPool (audio w) in
  let node := freeNodeIndex pool in
  let r1 := randomDraws w (randomPos w) in
  let r2 := randomDraws w (S (randomPos w)) in
  let eventVolume :=
    Qmax 0.1 ((1.0 - distance) * 0.8) * globalVolumeScalar (audio w) in
  let rate := 1.1 - distance * 0.5 + r2 * 0.1 in
  length pool = THUNDER_POOL_SIZE /\
  THUNDER_POOL_SIZE = 4%nat /\
  ((exists a : HTMLAudioElement,
      nth_error pool node = Some a /\ paused a = true /\
      forall (j : nat) (b : HTMLAudioElement),
        (j < node)%nat -> nth_error pool j = Some b -> paused b = false) \/
   (node = 0%nat /\
    forall b : HTMLAudioElement, In b pool -> paused b = false)) /\
  timers (triggerThunder distance w) =
    timers w ++
    [{| timerId := nextTimerId w; setAt := now w;
        delay := distance * 4000 + r1 * 500;
        callback := CbThunderPlay node eventVolume rate |}] /\
  (0 <= r1 * 500 /\ r1 * 500 < 500) /\
  (0 <= r2 * 0.1 /\ r2 * 0.1 < 0.1) /\
  (forall w1 : World,
     length (thunderPool (audio w1)) = THUNDER_POOL_SIZE ->
     exists a : HTMLAudioElement,
       nth_error (thunderPool (audio w1)) node = Some a /\
       thunderPlayback node eventVolume rate w1 =
       emit (EvThunderPlay node eventVolume rate)
         (withThunderPool
            (replaceAt node
               (play (autoplayAllowed w1)
                  (setCurrentTime 0
                     (setPlaybackRate rate (setVolume eventVolume a))))
               (thunderPool (audio w1)))
            w1)).
Proof.
  intros HR Hi Hg Hd0 Hd1; cbv zeta.
  apply Reachable_Inv in HR. destruct HR as (HU & (Hp & Hg0 & Hg1) & _ & _).
  rewrite Hi in Hp.
  destruct (HU (randomPos w)) as [U1 U2].
  destruct (HU (S (randomPos w))) as [V1 V2].
  split; [exact Hp|]. split; [reflexivity|].
  split; [apply freeNodeIndex_spec|].
  split; [rewrite triggerThunder_scheduled by assumption; reflexivity|].
  split; [split; lra|]. split; [split; lra|].
  intros w1 Hlen.
  assert (Hlt : (freeNodeIndex (thunderPool (audio w)) <
                 length (thunderPool (audio w1)))%nat).
  { rewrite Hlen, <- Hp. apply freeNodeIndex_lt.
    intros E. rewrite E in Hp. discriminate. }
  destruct (nth_error (thunderPool (audio w1))
              (freeNodeIndex (thunderPool (audio w)))) as [a|] eqn:Ea.
  - exists a. split; [reflexivity|].
    unfold thunderPlayback. rewrite Ea.
    destruct (eventVolume_range distance (globalVolumeScalar (audio w))
                Hd0 Hd1 Hg0 Hg1) as [E0 E1].
    apply leb_true in E0, E1. rewrite E0, E1. reflexivity.
  - apply nth_error_None in Ea. lia.
Qed.

(** The first strike heard at distance 0.35 on the freshly mounted page
    (all four slots paused): slot 0, delay [0.35 * 4000 + 0.5 * 500]. *)
Lemma C5_witness :
  timers (triggerThunder 0.35 (initialWorld (drawsOf []) true)) =
  timers (initialWorld (drawsOf []) true) ++
  [{| timerId := nextTimerId (initialWorld (drawsOf []) true);
      setAt := now (initialWorld (drawsOf []) true);
      delay := 0.35 * 4000
               + randomDraws (initialWorld (drawsOf []) true)
                   (randomPos (initialWorld (drawsOf []) true)) * 500;
      callback :=
        CbThunderPlay
          (freeNodeIndex
             (thunderPool (audio (initialWorld (drawsOf []) true))))
          (Qmax 0.1 ((1.0 - 0.35) * 0.8)
           * globalVolumeScalar (audio (initialWorld (drawsOf []) true)))
          (1.1 - 0.35 * 0.5
           + randomDraws (initialWorld (drawsOf []) true)
               (S (randomPos (initialWorld (drawsOf []) true))) * 0.1) |}].
Proof.
  refine (proj1 (proj2 (proj2 (proj2
    (C5_triggerThunder_schedules_mapped_playback
       (initialWorld (drawsOf []) true) 0.35 _ _ _ _ _))))).
  - exists (drawsOf []), true, [].
    split; [apply drawsOf_unit; constructor|reflexivity].
  - reflexivity.
  - vm_compute. reflexivity.
  - vm_compute. discriminate.
  - vm_compute. discriminate.
Defined.

End AppProps.

(** ** More about the fragment shader *)

Module ShaderMore.
Import Glsl Shader ShaderTerms GlslFacts ShaderProps.
Local Open Scope R_scope.

(** *** Monotonicity of the built-ins *)

Lemma clamp01_mono (x y : R) : x <= y -> clamp x 0 1 <= clamp y 0 1.
Proof.
  intros H. unfold clamp, Rmin, Rmax.
  destruct (Rle_dec x 0); destruct (Rle_dec y 0);
    repeat match goal with
           | |- context [Rle_dec ?a 1] => destruct (Rle_dec a 1)
           end; lra.
Qed.

Lemma hermite_mono (a b : R) :
  0 <= a -> a <= b -> b <= 1 ->
  a * a * (3 - 2 * a) <= b * b * (3 - 2 * b).
Proof.
  intros Ha Hab Hb.
  assert (H : b * b * (3 - 2 * b) - a * a * (3 - 2 * a) =
              (b - a) * (3 * (a + b) - 2 * (a * a + a * b + b * b)))
    by ring.
  assert (0 <= 3 * (a + b) - 2 * (a * a + a * b + b * b)) by nra.
  assert (0 <= (b - a) * (3 * (a + b) - 2 * (a * a + a * b + b * b)))
    by (apply Rmult_le_pos; lra).
  lra.
Qed.

(** For increasing edges [smoothstep] is non-decreasing in [x]. *)
Lemma smoothstep_mono (e0 e1 x y : R) :
  e0 < e1 -> x <= y -> smoothstep e0 e1 x <= smoothstep e0 e1 y.
Proof.
  intros He Hxy. unfold smoothstep.
  pose proof (clamp01_range ((x - e0) / (e1 - e0))) as Hx.
  pose proof (clamp01_range ((y - e0) / (e1 - e0))) as Hy.
  apply hermite_mono; try lra.
  apply clamp01_mono. unfold Rdiv.
  apply Rmult_le_compat_r; [|lra].
  left. apply Rinv_0_lt_compat. lra.
Qed.

Lemma clamp01_ge1 (x : R) : 1 <= x -> clamp x 0 1 = 1.
Proof.
  intros H. unfold clamp, Rmin, Rmax.
  destruct (Rle_dec x 0); destruct (Rle_dec _ 1); lra.
Qed.

(** At and above the second edge of an increasing pair it is 1. *)
Lemma smoothstep_above (e0 e1 x : R) :
  e0 < e1 -> e1 <= x -> smoothstep e0 e1 x = 1.
Proof.
  intros He Hx. unfold smoothstep.
  rewrite clamp01_ge1; [ring|].
  apply Rmult_le_reg_r with (e1 - e0); [lra|].
  unfold Rdiv. rewrite Rmult_assoc, Rinv_l by lra. lra.
Qed.

(** With a common first edge, the nearer second edge gives the larger
    value. *)
Lemma smoothstep_edge1_anti (e0 e1 e1' x : R) :
  e0 < e1 -> e1 <= e1' -> smoothstep e0 e1' x <= smoothstep e0 e1 x.
Proof.
  intros He He'. unfold smoothstep.
  pose proof (clamp01_range ((x - e0) / (e1' - e0))) as Hx.
  pose proof (clamp01_range ((x - e0) / (e1 - e0))) as Hy.
  destruct (Rle_dec x e0) as [Hle|Hgt].
  - rewrite !clamp01_nonpos; [lra| |].
    + unfold Rdiv. assert (0 < / (e1 - e0)) by (apply Rinv_0_lt_compat; lra).
      nra.
    + unfold Rdiv. assert (0 < / (e1' - e0)) by (apply Rinv_0_lt_compat; lra).
      nra.
  - apply hermite_mono; try lra.
    apply clamp01_mono. unfold Rdiv.
    apply Rmult_le_compat_l; [lra|].
    apply Rinv_le_contravar; lra.
Qed.

(** *** The layer gains as functions of the rain intensity *)

Lemma clamp01_id (x : R) : 0 <= x <= 1 -> clamp x 0 1 = x.
Proof.
  intros H. unfold clamp, Rmin, Rmax.
  destruct (Rle_dec x 0); destruct (Rle_dec _ 1); lra.
Qed.

(** The secondary layer's ramp [S(0.5, 1, r)] is below the mist's ramp
    [S(0, 1, r)]. *)
Lemma ramp_half_le_ramp (r : R) : smoothstep 0.5 1 r <= smoothstep 0 1 r.
Proof.
  unfold smoothstep.
  pose proof (clamp01_range ((r - 0.5) / (1 - 0.5))) as Ha.
  pose proof (clamp01_range ((r - 0) / (1 - 0))) as Hb.
  apply hermite_mono; try lra.
  replace ((r - 0.5) / (1 - 0.5)) with (2 * r - 1) by lra.
  replace ((r - 0) / (1 - 0)) with r by lra.
  destruct (Rle_dec r 1) as [H1|H1].
  - destruct (Rle_dec 0 r) as [H0|H0].
    + rewrite (clamp01_id r) by lra.
      pose proof (clamp01_range (2 * r - 1)) as Hc.
      destruct (Rle_dec (2 * r - 1) 0) as [Hn|Hn].
      * rewrite clamp01_nonpos by lra. lra.
      * rewrite clamp01_id by lra. lra.
    + rewrite !clamp01_nonpos by lra. lra.
  - rewrite !clamp01_ge1 by lra. lra.
Qed.

(** X1. The three layer gains depend on the rain intensity only and are
    non-decreasing in it.  The secondary moving layer is switched off up
    to a rain intensity of 0.5, the primary moving layer is at full gain
    from 0.8 on, and the mist and the secondary layer reach their maximum
    0.3 at 1.  At every intensity the secondary gain is at most the mist
    gain, which is at most 0.3 times the primary gain. *)
Theorem X1_layer_gains_are_gated_and_monotone (u : Uniforms) (r1 r2 : R) :
  r1 <= r2 ->
  (staticDropsGain (withRain r1 u) <= staticDropsGain (withRain r2 u) /\
   layer1Gain (withRain r1 u) <= layer1Gain (withRain r2 u) /\
   layer2Gain (withRain r1 u) <= layer2Gain (withRain r2 u)) /\
  (r1 <= 0.5 -> layer2Gain (withRain r1 u) = 0) /\
  (0.8 <= r1 -> layer1Gain (withRain r1 u) = 1) /\
  (1 <= r1 ->
   staticDropsGain (withRain r1 u) = 0.3 /\
   layer2Gain (withRain r1 u) = 0.3) /\
  layer2Gain (withRain r1 u) <= staticDropsGain (withRain r1 u) /\
  staticDropsGain (withRain r1 u) <= 0.3 * layer1Gain (withRain r1 u).
Proof.
  intros H. unfold staticDropsGain, layer1Gain, layer2Gain, S;
    cbn [uRainIntensity withRain].
  pose proof (smoothstep_mono 0 1 r1 r2 ltac:(lra) H).
  pose proof (smoothstep_mono 0 0.8 r1 r2 ltac:(lra) H).
  pose proof (smoothstep_mono 0.5 1 r1 r2 ltac:(lra) H).
  pose proof (ramp_half_le_ramp r1).
  pose proof (smoothstep_edge1_anti 0 0.8 1 r1 ltac:(lra) ltac:(lra)).
  split; [repeat split; lra|].
  split; [intros Hr; rewrite smoothstep_below by lra; ring|].
  split; [intros Hr; apply smoothstep_above; lra|].
  split; [intros Hr; rewrite !smoothstep_above by lra; split; ring|].
  split; lra.
Qed.

Lemma X1_witness :
  layer2Gain (withRain 0.26 (dryUniforms 1.1 1)) = 0.
Proof.
  refine (proj1 (proj2 (X1_layer_gains_are_gated_and_monotone
                          (dryUniforms 1.1 1) 0.26 1 _)) _); lra.
Defined.

(** *** Lighting, focus and the normal *)

(** X2. Where the height is at most 0.01 (open glass, no droplet) the
    lighting block leaves the colour as it is, whatever the normal: no
    specular highlight, no fresnel rim and no edge darkening. *)
Theorem X2_lighting_touches_drops_only (normal : vec2) (h : R) (col : vec3) :
  h <= 0.01 -> lighting normal h col = col.
Proof.
  intros Hh. unfold lighting; cbv zeta.
  rewrite (smoothstep_below 0.01 0.1 h) by lra.
  destruct col as [r g b].
  unfold vscale3, vadds3, mix; cbn [cx cy cz]. f_equal; ring.
Qed.

Lemma X2_witness :
  lighting (Vec2 3 (-2)) 0.005 (Vec3 0.2 0.4 0.6) = Vec3 0.2 0.4 0.6.
Proof. apply X2_lighting_touches_drops_only. lra. Defined.

Lemma heightAt_range (u : Uniforms) (p : vec2) :
  0 <= vx (heightAndTrailAt u p) <= 1.
Proof.
  unfold heightAndTrailAt. rewrite GetHeightAndTrail_height.
  apply smoothstep_range.
Qed.

(** X3. Each component of the refraction normal is at most
    [15 * uRefraction] in absolute value, so the sampling coordinate is
    never displaced by more than that along either axis; with
    [uRefraction = 0] it is not displaced at all, whatever the rain. *)
Theorem X3_refraction_offset_is_bounded (u : Uniforms) (vUv : vec2) :
  0 <= uRefraction u ->
  Rabs (vx (surfaceNormal u vUv)) <= 15 * uRefraction u /\
  Rabs (vy (surfaceNormal u vUv)) <= 15 * uRefraction u /\
  Rabs (vx (refractionUV u vUv) - vx (zoomedUV u vUv)) <= 15 * uRefraction u /\
  Rabs (vy (refractionUV u vUv) - vy (zoomedUV u vUv)) <= 15 * uRefraction u /\
  (uRefraction u = 0 -> refractionUV u vUv = zoomedUV u vUv).
Proof.
  intros Hr. unfold refractionUV, surfaceNormal; cbv zeta.
  unfold vsub2, vscale2, zoomedUV; cbn [vx vy].
  repeat match goal with
         | |- context [vx (heightAndTrailAt u ?p)] =>
             let H := fresh "Hh" in
             let h := fresh "h" in
             pose proof (heightAt_range u p) as H;
             set (h := vx (heightAndTrailAt u p)) in *; clearbody h
         end.
  assert (B1 : Rabs ((h - h0) * 15 * uRefraction u) <= 15 * uRefraction u).
  { apply Rabs_le. split; nra. }
  assert (B2 : Rabs ((h - h1) * 15 * uRefraction u) <= 15 * uRefraction u).
  { apply Rabs_le. split; nra. }
  split; [exact B1|]. split; [exact B2|].
  split; [|split].
  - match goal with |- Rabs ?e <= _ =>
      replace e with (- ((h - h0) * 15 * uRefraction u)) by ring end.
    rewrite Rabs_Ropp. exact B1.
  - match goal with |- Rabs ?e <= _ =>
      replace e with (- ((h - h1) * 15 * uRefraction u)) by ring end.
    rewrite Rabs_Ropp. exact B2.
  - intros ->. f_equal; ring.
Qed.

Lemma X3_witness :
  Rabs (vx (surfaceNormal (dryUniforms 1 1) centre)) <= 15 * 1.
Proof.
  refine (proj1 (X3_refraction_offset_is_bounded (dryUniforms 1 1) centre _)).
  cbn [uRefraction dryUniforms]. lra.
Defined.

(** X4. The blur passed to the texture sampler is between 0 and
    [6 * uBlurStrength]; it is 0 (a sharp sample) wherever height plus
    trail reach 0.4, and the full [6 * uBlurStrength] wherever there is
    neither height nor trail. *)
Theorem X4_focus_sharp_on_drops (u : Uniforms) (vUv : vec2) :
  0 <= uBlurStrength u ->
  let center := heightAndTrailAt u (physUV u vUv) in
  0 <= focusAt u vUv <= uBlurStrength u * 6 /\
  (0.4 <= vx center + vy center -> focusAt u vUv = 0) /\
  (vx center + vy center <= 0 -> focusAt u vUv = uBlurStrength u * 6).
Proof.
  intros Hb; cbv zeta. unfold focusAt, S; cbv zeta.
  set (x := vx _ + vy _).
  pose proof (smoothstep_range 0 0.4 x) as Hs.
  split; [unfold mix; split; nra|].
  split; intros Hx.
  - rewrite smoothstep_above by lra. unfold mix. ring.
  - rewrite smoothstep_below by lra. unfold mix. ring.
Qed.

Lemma X4_witness :
  0 <= focusAt (dryUniforms 1 1) centre
  <= uBlurStrength (dryUniforms 1 1) * 6.
Proof.
  refine (proj1 (X4_focus_sharp_on_drops (dryUniforms 1 1) centre _)).
  cbn [uBlurStrength dryUniforms]. lra.
Defined.

(** *** Where the background texture is sampled *)

Lemma shrink_about_half (x k : R) :
  0 <= x <= 1 -> 0 < k <= 1 -> 0 <= (x - 0.5) * k + 0.5 <= 1.
Proof. intros [H0 H1] [Hk0 Hk1]. split; nra. Qed.

Lemma inv_ge1 (r : R) : 1 <= r -> 0 < / r <= 1.
Proof.
  intros Hr. split; [apply Rinv_0_lt_compat; lra|].
  rewrite <- Rinv_1. apply Rinv_le_contravar; lra.
Qed.

Lemma coverFit_inside (u : Uniforms) (texUv : vec2) :
  0 < vx (uResolution u) -> 0 < vy (uResolution u) -> 0 < uImgAspect u ->
  inUnitSquare texUv -> inUnitSquare (coverFit u texUv).
Proof.
  intros HW HH Hi [Hx Hy]. unfold coverFit.
  destruct (uAutoFit u); [|split; assumption]. cbv zeta.
  assert (Hsa : 0 < vx (uResolution u) / vy (uResolution u))
    by (apply Rdiv_lt_0_compat; assumption).
  set (sa := vx (uResolution u) / vy (uResolution u)) in *.
  destruct (Rlt_dec (uImgAspect u) sa) as [Hlt|Hge]; split; cbn [vx vy];
    try assumption; unfold Rdiv at 1; apply shrink_about_half;
    try assumption; apply inv_ge1.
  - apply Rmult_le_reg_r with (uImgAspect u); [assumption|].
    unfold Rdiv. rewrite Rmult_assoc, Rinv_l by lra. lra.
  - apply Rmult_le_reg_r with sa; [assumption|].
    unfold Rdiv. rewrite Rmult_assoc, Rinv_l by lra. lra.
Qed.

(** X5. On a canvas of positive size, with a positive image aspect and a
    zoom of at least 1, every point of the screen quad is mapped by the
    zoom and then by the cover fit to a texture coordinate inside the
    unit square, with or without auto-fit: the undistorted background is
    never read outside the image.  The centre of the screen always reads
    the centre of the image. *)
Theorem X5_background_is_read_inside_the_image (u : Uniforms) (vUv : vec2) :
  0 < vx (uResolution u) -> 0 < vy (uResolution u) -> 0 < uImgAspect u ->
  1 <= uZoom u -> inUnitSquare vUv ->
  inUnitSquare (zoomedUV u vUv) /\
  inUnitSquare (coverFit u (zoomedUV u vUv)) /\
  coverFit u (zoomedUV u centre) = centre.
Proof.
  intros HW HH Hi Hz [Hx Hy].
  assert (Hzoom : inUnitSquare (zoomedUV u vUv)).
  { unfold zoomedUV, inUnitSquare; cbn [vx vy]. unfold Rdiv.
    split; apply shrink_about_half; try assumption; apply inv_ge1; assumption. }
  split; [exact Hzoom|]. split; [apply coverFit_inside; assumption|].
  unfold zoomedUV, centre; cbn [vx vy].
  replace ((0.5 - 0.5) / uZoom u + 0.5) with 0.5 by (unfold Rdiv; ring).
  unfold coverFit. destruct (uAutoFit u); [|reflexivity]. cbv zeta.
  destruct (Rlt_dec _ _); cbn [vx vy]; f_equal; unfold Rdiv; ring.
Qed.

Lemma X5_witness :
  inUnitSquare
    (coverFit (dryUniforms 1 1) (zoomedUV (dryUniforms 1 1) (Vec2 0.25 1))).
Proof.
  refine (proj1 (proj2 (X5_background_is_read_inside_the_image
                          (dryUniforms 1 1) (Vec2 0.25 1) _ _ _ _ _)));
    unfold inUnitSquare; cbn [uResolution uImgAspect uZoom dryUniforms vx vy];
    lra.
Defined.

(** *** The post-processing chain *)

Lemma length2_from_centre (vUv : vec2) :
  inUnitSquare vUv -> 0 <= length2 (vsub2 vUv (Vec2 0.5 0.5)) <= 0.75.
Proof.
  intros [Hx Hy]. unfold length2, vsub2; cbn [vx vy].
  split; [apply sqrt_pos|].
  replace 0.75 with (sqrt (0.75 * 0.75)) by (apply sqrt_square; lra).
  apply sqrt_le_1_alt. nra.
Qed.

Lemma vignette_factor (vUv : vec2) :
  inUnitSquare vUv ->
  0.85 <= 1 - length2 (vsub2 vUv (Vec2 0.5 0.5)) * 0.2 <= 1.
Proof. intros H. pose proof (length2_from_centre vUv H). lra. Qed.

Lemma lightningFlash_unit (u : Uniforms) (col : vec3) :
  0 <= uLightning u <= 1 -> unitColour col -> unitColour (lightningFlash u col).
Proof.
  intros HL (Hr & Hg & Hb). unfold lightningFlash.
  destruct (Rlt_dec 0 (uLightning u)); [|exact (conj Hr (conj Hg Hb))].
  cbv zeta. unfold mix3, unitColour; cbn [cx cy cz].
  split; [|split]; apply mix_range; lra.
Qed.

(** X6. On the screen quad the vignette multiplies every channel by one
    factor between 0.85 and 1: it never brightens, darkens a corner by at
    most 15 percent, and leaves the centre of the screen as it is. *)
Theorem X6_vignette_darkens_by_at_most_15_percent (vUv : vec2) (col : vec3) :
  inUnitSquare vUv ->
  (exists k : R, 0.85 <= k <= 1 /\ vignette vUv col = vscale3 col k) /\
  vignette centre col = col.
Proof.
  intros H. split.
  - exists (1 - length2 (vsub2 vUv (Vec2 0.5 0.5)) * 0.2).
    split; [apply vignette_factor; assumption|reflexivity].
  - unfold vignette, centre, vsub2; cbn [vx vy].
    replace (0.5 - 0.5) with 0 by lra. rewrite length2_zero.
    destruct col as [r g b]. unfold vscale3; cbn [cx cy cz]. f_equal; ring.
Qed.

Lemma X6_witness :
  vignette centre (Vec3 0.2 0.4 0.6) = Vec3 0.2 0.4 0.6.
Proof.
  refine (proj2 (X6_vignette_darkens_by_at_most_15_percent
                   (Vec2 0 1) (Vec3 0.2 0.4 0.6) _)).
  unfold inUnitSquare; cbn [vx vy]. lra.
Defined.

(** X7. With the rain off, a background texture whose samples have all
    channels in [[0,1]], a flash level in [[0,1]] and brightness and
    contrast both in [[0,1]], the colour written for any point of the
    screen quad has all channels in [[0,1]] and alpha 1: flash, vignette
    and grading together cannot push such a picture out of range. *)
Theorem X7_dry_picture_stays_in_range (u : Uniforms) (vUv : vec2) :
  uRainIntensity u = 0 -> uHasTexture u = true ->
  (forall (p : vec2) (bias : R), unitColour (rgb (uBgTexture u p bias))) ->
  0 <= uLightning u <= 1 ->
  0 <= uBrightness u <= 1 -> 0 <= uContrast u <= 1 ->
  inUnitSquare vUv ->
  unitColour (rgb (main u vUv)) /\ alpha (main u vUv) = 1.
Proof.
  intros Hrain Htex Hsample HL Hb Hk Hv.
  rewrite main_without_rain by assumption. cbn [rgb alpha].
  split; [|reflexivity].
  unfold background. rewrite Htex. unfold texture2D.
  pose proof (lightningFlash_unit u _ HL
                (Hsample (coverFit u (zoomedUV u vUv)) (uBlurStrength u * 6)))
    as Hflash.
  set (c := lightningFlash u _) in *. clearbody c.
  pose proof (vignette_factor vUv Hv) as Hvig.
  unfold vignette; cbv zeta.
  set (k := 1 - _ * 0.2) in *. clearbody k.
  destruct c as [r g b]. destruct Hflash as (Hr & Hg & Hbl).
  cbn [cx cy cz] in Hr, Hg, Hbl.
  unfold grading, gradeChannel, vscale3, unitColour; cbn [cx cy cz].
  assert (G : forall x : R, 0 <= x <= 1 ->
            0 <= (x * k * uBrightness u - 0.5) * uContrast u + 0.5 <= 1).
  { intros x Hx.
    assert (Hxk : 0 <= x * k <= 1) by (apply unit_mul; lra).
    assert (Hxb : 0 <= x * k * uBrightness u <= 1)
      by (apply unit_mul; assumption).
    set (y := x * k * uBrightness u) in *. clearbody y. split; nra. }
  repeat split; apply G; assumption.
Qed.

Lemma X7_witness :
  unitColour (rgb (main (dryUniforms 1 1) (Vec2 0.25 1))).
Proof.
  refine (proj1 (X7_dry_picture_stays_in_range
                   (dryUniforms 1 1) (Vec2 0.25 1)
                   eq_refl eq_refl _ _ _ _ _));
    try (intros p bias);
    unfold inUnitSquare, unitColour;
    cbn [uBgTexture uLightning uBrightness uContrast dryUniforms vx vy];
    unfold whiteTexture; cbn [rgb cx cy cz];
    lra.
Defined.

(** *** The procedural sky *)

(** X8. The procedural background used when no texture is loaded is never
    dark: at every coordinate and time each of its channels is at least
    0.18.  Red stays below 1.5, green below 1.16 and blue below 1.3, so
    the sky can exceed 1 before grading. *)
Theorem X8_procedural_sky_channel_bounds (u : Uniforms) (vUv bgUV : vec2) :
  0.18 <= cx (proceduralSky u vUv bgUV) <= 1.5 /\
  0.18 <= cy (proceduralSky u vUv bgUV) <= 1.16 /\
  0.18 <= cz (proceduralSky u vUv bgUV) <= 1.3.
Proof.
  unfold proceduralSky; cbv zeta.
  pose proof (N_range (dot2 vUv (Vec2 12.9898 78.233) + uTime u)) as Hn.
  set (noise := N _) in *. clearbody noise.
  pose proof (SIN_bound (uTime u * 1.5)) as Hpulse.
  set (pulse := sin (uTime u * 1.5)) in *. clearbody pulse.
  repeat match goal with
  | |- context [smoothstep ?a ?b ?c] =>
      let H := fresh "Hs" in
      let s := fresh "s" in
      pose proof (smoothstep_range a b c) as H;
      set (s := smoothstep a b c) in *; clearbody s
  end.
  unfold mix3, vadd3, vscale3, vadds3; cbn [cx cy cz].
  match goal with
  | |- context [?g * (0.8 + 0.2 * pulse)] =>
      assert (Hc : 0 <= g * (0.8 + 0.2 * pulse) <= 1) by (split; nra);
      set (glowC := g * (0.8 + 0.2 * pulse)) in *; clearbody glowC
  end.
  pose proof (mix_range 0.2 0.98 s 0.2 0.98 ltac:(lra) ltac:(lra) Hs) as Hr1.
  pose proof (mix_range _ 0.55 s0 0.2 0.98 Hr1 ltac:(lra) Hs0) as Hr2.
  pose proof (mix_range 0.25 0.72 s 0.25 0.75 ltac:(lra) ltac:(lra) Hs) as Hg1.
  pose proof (mix_range _ 0.75 s0 0.25 0.75 Hg1 ltac:(lra) Hs0) as Hg2.
  pose proof (mix_range 0.5 0.55 s 0.5 0.95 ltac:(lra) ltac:(lra) Hs) as Hb1.
  pose proof (mix_range _ 0.95 s0 0.5 0.95 Hb1 ltac:(lra) Hs0) as Hb2.
  clear Hr1 Hg1 Hb1.
  set (red := mix (mix 0.2 0.98 s) 0.55 s0) in *. clearbody red.
  set (green := mix (mix 0.25 0.72 s) 0.75 s0) in *. clearbody green.
  set (blue := mix (mix 0.5 0.55 s) 0.95 s0) in *. clearbody blue.
  repeat split; lra.
Qed.

End ShaderMore.

(** ** The page: numbering of the timers, the flash level, the mix *)

Module PageMore.
Import Page AudioService App PageTerms PageFacts AudioProps AppProps.
Local Open Scope Q_scope.

(** *** Timers that are added *)

Lemma Adds_refl (w : World) : Adds w w.
Proof.
  exists []. rewrite app_nil_r. cbn.
  repeat split; [lia|constructor].
Qed.

Lemma Adds_same (w w' : World) :
  timers w' = timers w -> nextTimerId w' = nextTimerId w -> Adds w w'.
Proof.
  intros Ht Hn. exists []. rewrite app_nil_r. cbn.
  repeat split; [exact Ht|lia|constructor].
Qed.

Lemma Adds_trans (w1 w2 w3 : World) : Adds w1 w2 -> Adds w2 w3 -> Adds w1 w3.
Proof.
  intros (a & A1 & A2 & A3 & A4) (b & B1 & B2 & B3 & B4).
  exists (a ++ b). rewrite B1, A1, B2, A2, app_assoc, length_app, map_app.
  rewrite seq_app, A3, B3, A2.
  repeat split; [lia|apply Forall_app; split; assumption].
Qed.

Lemma Adds_one (w w' : World) (t : Timer) :
  timers w' = timers w ++ [t] -> nextTimerId w' = S (nextTimerId w) ->
  timerId t = nextTimerId w -> timerOk t -> Adds w w'.
Proof.
  intros Ht Hn Hid Hok. exists [t]. cbn. rewrite Hid.
  repeat split; [exact Ht|lia|constructor; [exact Hok|constructor]].
Qed.

Lemma doFlash_Adds (b : Q) (w : World) : UnitDraws w -> Adds w (doFlash b w).
Proof.
  intros HU. destruct (HU (randomPos w)) as [U0 U1].
  eapply Adds_one; [apply doFlash_timers|reflexivity|reflexivity|].
  unfold timerOk; cbn [callback delay]. split; lra.
Qed.

Lemma strikeDistance_range (raw bias : Q) :
  0 <= strikeDistance raw bias /\ strikeDistance raw bias <= 1.
Proof.
  unfold strikeDistance.
  destruct (Q.max_spec 0 (Qmin 1 (raw - bias * 0.3))) as [[A B]|[A B]];
    destruct (Q.min_spec 1 (raw - bias * 0.3)) as [[C D]|[C D]];
    revert A B C D;
    generalize (Qmax 0 (Qmin 1 (raw - bias * 0.3)));
    generalize (Qmin 1 (raw - bias * 0.3));
    intros; split; lra.
Qed.

Lemma flashBrightness_range (d : Q) :
  0 <= d -> d <= 1 -> 0.2 <= flashBrightness d /\ flashBrightness d <= 1.
Proof. intros H0 H1. unfold flashBrightness. split; lra. Qed.

Lemma triggerThunder_Adds (d : Q) (w : World) :
  0 <= d -> d <= 1 -> UnitDraws w -> AudioInv (audio w) ->
  Adds w (triggerThunder d w).
Proof.
  intros D0 D1 HU (Hp & G0 & G1).
  destruct (negb (isInitialized (audio w))
            || leb (globalVolumeScalar (audio w)) 0.05) eqn:E.
  - unfold triggerThunder; cbv zeta. rewrite E. apply Adds_refl.
  - apply orb_false_elim in E. destruct E as [Ei Eg].
    apply negb_false_iff in Ei. apply leb_false in Eg.
    rewrite triggerThunder_scheduled by assumption.
    destruct (HU (randomPos w)) as [U0 U1].
    destruct (HU (S (randomPos w))) as [V0 V1].
    eapply Adds_one; [reflexivity..|].
    unfold timerOk; cbn [callback delay].
    rewrite Ei in Hp.
    split.
    { rewrite <- Hp. apply freeNodeIndex_lt. intros E. rewrite E in Hp.
      discriminate. }
    set (g := globalVolumeScalar (audio w)) in *.
    set (r1 := randomDraws w (randomPos w)) in *.
    set (r2 := randomDraws w (S (randomPos w))) in *.
    destruct (Q.max_spec 0.1 ((1.0 - d) * 0.8)) as [[A B]|[A B]];
      revert A B; generalize (Qmax 0.1 ((1.0 - d) * 0.8)); intros m A B;
      repeat split; try lra; nra.
Qed.

(** Close a goal [Adds w w'] where [w'] is written out as [setTimeout]
    calls over [w]. *)
Ltac adds_written_out :=
  unfold Adds, doFlash, random, setTimeout;
  cbn [timers nextTimerId withTimers withRandomPos emit withLightningVal
       withLightningLoopRef snd fst randomPos randomDraws now];
  eexists; split; [rewrite <- ?app_assoc; reflexivity|];
  cbn [app length map seq timerId];
  split; [lia|]; split; [reflexivity|].

Lemma triggerLightningEvent_Adds (s : AppSettings) (w : World) :
  UnitDraws w -> AudioInv (audio w) -> Adds w (triggerLightningEvent s w).
Proof.
  intros HU HA.
  unfold triggerLightningEvent; unfold random at 1 2 3; cbv beta iota zeta.
  destruct (gtb _ 0.8); [apply Adds_same; reflexivity|].
  destruct (strikeDistance_range (randomDraws w (S (randomPos w)))
              (stormIntensity s)) as [D0 D1].
  destruct (flashBrightness_range _ D0 D1) as [B0 B1].
  set (d := strikeDistance _ _) in *.
  set (b := flashBrightness d) in *.
  destruct (HU (S (S (S (randomPos w))))) as [U0 U1].
  destruct (HU (S (S (S (S (randomPos w)))))) as [V0 V1].
  assert (H : forall dbl : bool,
            Adds w
              (if dbl
               then
                 let (r, w0) :=
                   random (doFlash b (withRandomPos (S (S (S (randomPos w))))
                            (withRandomPos (S (S (randomPos w)))
                               (withRandomPos (S (randomPos w)) w)))) in
                 snd (setTimeout (CbDoFlash b) (150 + r * 150) w0)
               else
                 doFlash b (withRandomPos (S (S (S (randomPos w))))
                   (withRandomPos (S (S (randomPos w)))
                      (withRandomPos (S (randomPos w)) w))))).
  { intros [|]; adds_written_out.
    - constructor; [|constructor; [|constructor]];
        unfold timerOk; cbn [callback delay]; repeat split; lra.
    - constructor; [|constructor];
        unfold timerOk; cbn [callback delay]; repeat split; lra. }
  destruct (isAudioPlaying s); [|apply H].
  eapply Adds_trans; [|apply triggerThunder_Adds; try assumption].
  - eapply Adds_trans; [apply H|]. apply Adds_same; reflexivity.
  - destruct (gtb _ 0.7); exact HU.
  - destruct (gtb _ 0.7); exact HA.
Qed.

Lemma scheduleLightning_Adds (s : AppSettings) (w : World) :
  UnitDraws w -> Adds w (scheduleLightning s w).
Proof.
  intros HU. destruct (HU (randomPos w)) as [U0 U1].
  destruct (scheduleLightning_cases s w) as [[_ ->]|[_ ->]];
    [apply Adds_refl|].
  eapply Adds_one; [reflexivity..|].
  unfold timerOk, armedTimer; cbn [callback delay].
  exists (randomDraws w (randomPos w)).
  split; [exact U0|split; [exact U1|reflexivity]].
Qed.

Lemma thunderPlayback_timers (i : nat) (v r : Q) (w : World) :
  timers (thunderPlayback i v r w) = timers w /\
  nextTimerId (thunderPlayback i v r w) = nextTimerId w /\
  lightningVal (thunderPlayback i v r w) = lightningVal w /\
  lightningLoopRef (thunderPlayback i v r w) = lightningLoopRef w /\
  settings (thunderPlayback i v r w) = settings w /\
  autoplayAllowed (thunderPlayback i v r w) = autoplayAllowed w.
Proof.
  unfold thunderPlayback.
  destruct (nth_error _ i); [destruct (_ && _)|]; repeat split.
Qed.

(** *** Numbering, shape and the stored id *)

Lemma Fresh_ids (w : World) (id : nat) :
  Fresh w -> In id (map timerId (timers w)) -> (id < nextTimerId w)%nat.
Proof.
  intros HF Hin. apply in_map_iff in Hin. destruct Hin as (t & <- & Ht).
  unfold Fresh in HF. rewrite Forall_forall in HF. apply HF, Ht.
Qed.

Lemma Sound_Adds (w w' : World) :
  Fresh w -> Sound w -> Adds w w' ->
  lightningLoopRef w' = lightningLoopRef w -> Sound w'.
Proof.
  intros HF (HN & HT & HR) (added & A1 & A2 & A3 & A4) Href.
  split; [|split].
  - unfold Numbered in *. rewrite A1, map_app, A3.
    apply NoDup_app; [exact HN|apply seq_NoDup|].
    intros id Hin Hseq. apply in_seq in Hseq.
    pose proof (Fresh_ids w id HF Hin). lia.
  - unfold TimersOk in *. rewrite A1. apply Forall_app. split; assumption.
  - unfold RefOk in *. rewrite Href.
    destruct (lightningLoopRef w) as [id|]; [|exact I].
    destruct HR as [Hlt Hloop]. split; [lia|].
    intros t Hin Hid. rewrite A1 in Hin. apply in_app_or in Hin.
    destruct Hin as [Hin|Hin]; [apply Hloop; assumption|].
    assert (Hs : In (timerId t) (seq (nextTimerId w) (length added))).
    { rewrite <- A3. apply in_map. exact Hin. }
    apply in_seq in Hs. lia.
Qed.

(** Clearing timers keeps the ids of the others distinct. *)
Lemma ids_distinct_filter (keep : Timer -> bool) (ts : list Timer) :
  NoDup (map timerId ts) -> NoDup (map timerId (filter keep ts)).
Proof.
  induction ts as [|t ts IH]; cbn; intros H; [constructor|].
  inversion H as [|y l' Hnin Hnd]; subst.
  destruct (keep t); [|apply IH; exact Hnd].
  cbn. constructor; [|apply IH; exact Hnd].
  intros Hin. apply Hnin. apply in_map_iff in Hin.
  destruct Hin as (z & Hz & Hin). apply filter_In in Hin.
  rewrite <- Hz. apply in_map, Hin.
Qed.

Lemma Sound_clearTimeout (id : nat) (w : World) :
  Sound w -> Sound (clearTimeout id w).
Proof.
  intros (HN & HT & HR). split; [|split].
  - unfold Numbered in *; cbn. apply ids_distinct_filter. exact HN.
  - unfold TimersOk in *; cbn. rewrite Forall_forall in *.
    intros t Ht. apply filter_In in Ht. apply HT, Ht.
  - unfold RefOk in *; cbn. destruct (lightningLoopRef w) as [r|]; [|exact I].
    destruct HR as [Hlt Hloop]. split; [exact Hlt|].
    intros t Ht. apply filter_In in Ht. apply Hloop, Ht.
Qed.

Lemma Sound_same (w w' : World) :
  Sound w -> timers w' = timers w -> nextTimerId w' = nextTimerId w ->
  lightningLoopRef w' = lightningLoopRef w -> Sound w'.
Proof.
  intros (HN & HT & HR) Ht Hn Hr.
  unfold Sound, Numbered, TimersOk, RefOk in *. rewrite Ht, Hn, Hr.
  repeat split; assumption.
Qed.

Lemma stopLightningLoop_Sound (w : World) :
  Sound w -> Sound (stopLightningLoop w).
Proof.
  intros H. unfold stopLightningLoop.
  destruct (lightningLoopRef w); [apply Sound_clearTimeout|]; exact H.
Qed.

Lemma scheduleLightning_Sound (s : AppSettings) (w : World) :
  UnitDraws w -> Fresh w -> Sound w -> Sound (scheduleLightning s w).
Proof.
  intros HU HF HS.
  pose proof (scheduleLightning_Adds s w HU) as HA.
  destruct (scheduleLightning_cases s w) as [[_ E]|[_ E]];
    [rewrite E; exact HS|].
  rewrite E in *.
  set (w1 := withTimers (S (nextTimerId w)) (timers w ++ [armedTimer s w])
               (withRandomPos (S (randomPos w)) w)) in *.
  assert (H1 : Sound w1).
  { apply (Sound_Adds w w1 HF HS); [|reflexivity].
    destruct HA as (added & A1 & A2 & A3 & A4).
    exists added. repeat split; assumption. }
  destruct H1 as (HN & HT & _). split; [exact HN|split; [exact HT|]].
  unfold RefOk; cbn. split; [lia|].
  intros t Hin Hid. apply in_app_or in Hin. destruct Hin as [Hin|[<-|[]]].
  - unfold Fresh in HF. rewrite Forall_forall in HF.
    specialize (HF t Hin). lia.
  - reflexivity.
Qed.

Lemma lightningEffect_Sound (w : World) :
  UnitDraws w -> Fresh w -> Sound w -> Sound (lightningEffect w).
Proof.
  intros HU HF HS. unfold lightningEffect; cbv zeta.
  destruct (gtb _ 0); [|apply stopLightningLoop_Sound, HS].
  apply scheduleLightning_Sound.
  - unfold UnitDraws.
    rewrite (proj1 (proj2 (proj2 (stopLightningLoop_frame w)))). exact HU.
  - apply stopLightningLoop_Fresh, HF.
  - apply stopLightningLoop_Sound, HS.
Qed.

Lemma audioEffect_Sound (w : World) : Sound w -> Sound (audioEffect w).
Proof.
  intros H. rewrite audioEffect_only_audio.
  apply (Sound_same w); [exact H|reflexivity..].
Qed.

Lemma updateSettings_Sound (s : AppSettings) (w : World) :
  UnitDraws w -> Fresh w -> Sound w -> Sound (updateSettings s w).
Proof.
  intros HU HF HS. unfold updateSettings; cbv zeta.
  set (w0 := withSettings s w).
  assert (H0 : UnitDraws w0 /\ Fresh w0 /\ Sound w0).
  { split; [exact HU|]. split; [exact HF|].
    apply (Sound_same w); [exact HS|reflexivity..]. }
  clearbody w0.
  set (w1 := if (_ || _) then lightningCleanup w0 else w0).
  assert (H1 : UnitDraws w1 /\ Fresh w1 /\ Sound w1).
  { unfold w1. destruct (_ || _); [|exact H0].
    destruct H0 as (A & B & C). unfold lightningCleanup.
    split; [|split].
    - unfold UnitDraws.
      rewrite (proj1 (proj2 (proj2 (stopLightningLoop_frame w0)))). exact A.
    - apply stopLightningLoop_Fresh, B.
    - apply stopLightningLoop_Sound, C. }
  clearbody w1. clear H0.
  match goal with
  | |- context [if ?c then audioEffect w1 else w1] =>
      set (w2 := if c then audioEffect w1 else w1)
  end.
  assert (H2 : UnitDraws w2 /\ Fresh w2 /\ Sound w2).
  { unfold w2. destruct (_ || _); [|exact H1].
    destruct H1 as (A & B & C).
    split; [|split].
    - eapply Benign_UnitDraws; [apply audioEffect_Benign|exact A].
    - apply audioEffect_Fresh, B.
    - apply audioEffect_Sound, C. }
  clearbody w2. clear H1. destruct H2 as (A & B & C).
  destruct (_ || _); [apply lightningEffect_Sound; assumption|exact C].
Qed.

Lemma runCallback_Sound (cb : Callback) (w : World) :
  UnitDraws w -> AudioInv (audio w) -> Fresh w -> Sound w ->
  Sound (runCallback cb w).
Proof.
  intros HU HA HF HS. destruct cb as [s|b| |i v r]; cbn [runCallback].
  - destruct (triggerLightningEvent_Benign s w) as (B1 & B2 & B3 & B4).
    apply scheduleLightning_Sound.
    + unfold UnitDraws. rewrite B3. exact HU.
    + apply triggerLightningEvent_Fresh, HF.
    + apply (Sound_Adds w); [exact HF|exact HS| |exact B2].
      apply triggerLightningEvent_Adds; assumption.
  - apply (Sound_Adds w); [exact HF|exact HS| |reflexivity].
    apply doFlash_Adds, HU.
  - apply (Sound_same w); [exact HS|reflexivity..].
  - destruct (thunderPlayback_timers i v r w) as (T1 & T2 & _ & T4 & _).
    apply (Sound_same w); assumption.
Qed.

Lemma step_Sound (l : Label) (w w' : World) :
  Inv w -> Sound w -> step l w = Some w' -> Sound w'.
Proof.
  intros (HU & HA & HL & HF) HS Hstep.
  destruct l as [s|dt| |node|]; cbn [step] in Hstep.
  - injection Hstep as <-. apply updateSettings_Sound; assumption.
  - destruct (leb 0 dt && _); [|discriminate].
    injection Hstep as <-. apply (Sound_same w); [exact HS|reflexivity..].
  - destruct (earliest (timers w)) as [t|] eqn:Et; [|discriminate].
    destruct (leb (due t) (now w)); [|discriminate].
    injection Hstep as <-.
    apply runCallback_Sound;
      [exact HU|exact HA|apply Fresh_clearTimeout, HF
      |apply Sound_clearTimeout, HS].
  - destruct (nth_error (thunderPool (audio w)) node) as [a|];
      [|discriminate].
    destruct (paused a); [discriminate|].
    injection Hstep as <-. apply (Sound_same w); [exact HS|reflexivity..].
  - injection Hstep as <-. apply (Sound_same w); [exact HS|reflexivity..].
Qed.

Lemma initialWorld_Sound (draws : nat -> Q) (allowed : bool) :
  (forall n : nat, 0 <= draws n /\ draws n < 1) ->
  Sound (initialWorld draws allowed).
Proof.
  intros Hd. unfold initialWorld, mount.
  apply lightningEffect_Sound.
  - eapply Benign_UnitDraws; [apply audioEffect_Benign|exact Hd].
  - apply audioEffect_Fresh. constructor.
  - apply audioEffect_Sound. repeat split; constructor.
Qed.

Lemma run_Sound (ls : list Label) :
  forall w w' : World, Inv w -> Sound w -> run ls w = Some w' -> Sound w'.
Proof.
  induction ls as [|l ls IH]; intros w w' HI HS Hrun; cbn in Hrun.
  - injection Hrun as <-. exact HS.
  - destruct (step l w) as [w1|] eqn:E; [|discriminate].
    apply (IH w1 w'); [| |exact Hrun].
    + apply (step_Inv l w w1); assumption.
    + apply (step_Sound l w w1); assumption.
Qed.

Lemma Reachable_Sound (w : World) : Reachable w -> Sound w.
Proof.
  intros (draws & allowed & ls & Hd & Hrun).
  apply (run_Sound ls _ _ (initialWorld_Inv draws allowed Hd)
           (initialWorld_Sound draws allowed Hd) Hrun).
Qed.

(** *** The flash level *)

Lemma FlashOk_grow (w w' : World) :
  FlashOk w -> (forall t : Timer, In t (timers w) -> In t (timers w')) ->
  lightningVal w' = lightningVal w -> FlashOk w'.
Proof.
  intros [H|(H0 & H1 & t & Hin & Hcb)] Hsub Hv; unfold FlashOk; rewrite Hv.
  - left. exact H.
  - right. split; [exact H0|split; [exact H1|]].
    exists t. split; [apply Hsub, Hin|exact Hcb].
Qed.

Lemma FlashOk_Adds (w w' : World) :
  FlashOk w -> Adds w w' -> lightningVal w' = lightningVal w -> FlashOk w'.
Proof.
  intros H (added & A1 & _) Hv. apply (FlashOk_grow w); [exact H| |exact Hv].
  intros t Hin. rewrite A1. apply in_or_app. left. exact Hin.
Qed.

Lemma FlashOk_clearTimeout (id : nat) (w : World) :
  FlashOk w ->
  (forall t : Timer,
     In t (timers w) -> timerId t = id -> callback t <> CbFlashOff) ->
  FlashOk (clearTimeout id w).
Proof.
  intros [H|(H0 & H1 & t & Hin & Hcb)] Hid; [left; exact H|right].
  split; [exact H0|split; [exact H1|]].
  exists t. split; [|exact Hcb]. cbn. apply filter_In. split; [exact Hin|].
  apply negb_true_iff, Nat.eqb_neq. intros E. exact (Hid t Hin E Hcb).
Qed.

Lemma doFlash_FlashOk (b : Q) (w : World) :
  0.2 <= b -> b <= 1 -> FlashOk (doFlash b w).
Proof.
  intros B0 B1. right. split; [exact B0|split; [exact B1|]].
  eexists. split; [rewrite doFlash_timers; apply in_or_app; right; left;
                   reflexivity|reflexivity].
Qed.

Lemma triggerLightningEvent_FlashOk (s : AppSettings) (w : World) :
  FlashOk w -> FlashOk (triggerLightningEvent s w).
Proof.
  intros H.
  unfold triggerLightningEvent; unfold random at 1 2 3; cbv beta iota zeta.
  destruct (gtb _ 0.8); [exact H|].
  destruct (strikeDistance_range (randomDraws w (S (randomPos w)))
              (stormIntensity s)) as [D0 D1].
  destruct (flashBrightness_range _ D0 D1) as [B0 B1].
  set (d := strikeDistance _ _) in *.
  set (b := flashBrightness d) in *.
  match goal with
  | |- FlashOk (if _ then triggerThunder d (emit _ ?W) else _) =>
      set (w4 := W)
  end.
  assert (H2 : FlashOk w4).
  { unfold w4. destruct (gtb _ 0.7); [|apply doFlash_FlashOk; assumption].
    match goal with
    | |- FlashOk (let (r, w0) := random (doFlash b ?X) in _) =>
        apply (FlashOk_grow (doFlash b X));
          [apply doFlash_FlashOk; assumption| |reflexivity]
    end.
    intros t Hin. unfold random; cbv beta iota. unfold setTimeout.
    cbn [snd timers withTimers withRandomPos].
    apply in_or_app. left. exact Hin. }
  clearbody w4.
  destruct (isAudioPlaying s); [|exact H2].
  destruct (triggerThunder_frame d (emit (EvThunderCall d) w4))
    as (_ & _ & _ & _ & _ & _ & _ & Hv).
  destruct (triggerThunder_timers d (emit (EvThunderCall d) w4))
    as (new & Ht & _).
  eapply FlashOk_grow; [exact H2| |exact Hv].
  intros t Hin. rewrite Ht. apply in_or_app. left. exact Hin.
Qed.

Lemma scheduleLightning_FlashOk (s : AppSettings) (w : World) :
  FlashOk w -> FlashOk (scheduleLightning s w).
Proof.
  intros H.
  destruct (scheduleLightning_cases s w) as [[_ ->]|[_ ->]]; [exact H|].
  apply (FlashOk_grow w); [exact H| |reflexivity].
  intros t Hin. cbn. apply in_or_app. left. exact Hin.
Qed.

Lemma stopLightningLoop_FlashOk (w : World) :
  RefOk w -> FlashOk w -> FlashOk (stopLightningLoop w).
Proof.
  intros HR H. unfold stopLightningLoop, RefOk in *.
  destruct (lightningLoopRef w) as [id|]; [|exact H].
  apply FlashOk_clearTimeout; [exact H|].
  intros t Hin Hid Hcb. destruct HR as [_ Hloop].
  specialize (Hloop t Hin Hid). unfold isLoop in Hloop.
  rewrite Hcb in Hloop. discriminate.
Qed.

Lemma lightningEffect_FlashOk (w : World) :
  RefOk w -> FlashOk w -> FlashOk (lightningEffect w).
Proof.
  intros HR H. unfold lightningEffect; cbv zeta.
  destruct (gtb _ 0); [apply scheduleLightning_FlashOk|];
    apply stopLightningLoop_FlashOk; assumption.
Qed.

Lemma audioEffect_FlashOk (w : World) : FlashOk w -> FlashOk (audioEffect w).
Proof. intros H. rewrite audioEffect_only_audio. exact H. Qed.

Lemma updateSettings_FlashOk (s : AppSettings) (w : World) :
  Sound w -> FlashOk w -> FlashOk (updateSettings s w).
Proof.
  intros HS HF. unfold updateSettings; cbv zeta.
  set (w0 := withSettings s w).
  assert (H0 : Sound w0 /\ FlashOk w0).
  { split; [apply (Sound_same w); [exact HS|reflexivity..]|exact HF]. }
  clearbody w0.
  set (w1 := if (_ || _) then lightningCleanup w0 else w0).
  assert (H1 : Sound w1 /\ FlashOk w1).
  { unfold w1. destruct (_ || _); [|exact H0].
    destruct H0 as (A & B). unfold lightningCleanup.
    split; [apply stopLightningLoop_Sound, A|].
    apply stopLightningLoop_FlashOk; [apply A|exact B]. }
  clearbody w1. clear H0.
  match goal with
  | |- context [if ?c then audioEffect w1 else w1] =>
      set (w2 := if c then audioEffect w1 else w1)
  end.
  assert (H2 : Sound w2 /\ FlashOk w2).
  { unfold w2. destruct (_ || _); [|exact H1].
    destruct H1 as (A & B).
    split; [apply audioEffect_Sound, A|apply audioEffect_FlashOk, B]. }
  clearbody w2. clear H1. destruct H2 as (A & B).
  destruct (_ || _); [apply lightningEffect_FlashOk; [apply A|exact B]|exact B].
Qed.

(** Two pending timers with the same id are the same timer. *)
Lemma Numbered_same_id (w : World) (t t' : Timer) :
  Numbered w -> In t (timers w) -> In t' (timers w) ->
  timerId t = timerId t' -> t = t'.
Proof.
  unfold Numbered. induction (timers w) as [|x l IH]; cbn; intros HN Ht Ht' E.
  - contradiction.
  - inversion HN as [|y l' Hnin Hnd]; subst.
    destruct Ht as [<-|Ht]; destruct Ht' as [<-|Ht'].
    + reflexivity.
    + exfalso. apply Hnin. rewrite E. apply in_map, Ht'.
    + exfalso. apply Hnin. rewrite <- E. apply in_map, Ht.
    + apply IH; assumption.
Qed.

Lemma fire_FlashOk (t : Timer) (w : World) :
  Sound w -> FlashOk w -> In t (timers w) ->
  FlashOk (runCallback (callback t) (clearTimeout (timerId t) w)).
Proof.
  intros (HN & HT & HR) HF Hin.
  assert (Hc : callback t <> CbFlashOff ->
               FlashOk (clearTimeout (timerId t) w)).
  { intros Hne. apply FlashOk_clearTimeout; [exact HF|].
    intros t' Hin' Hid. rewrite (Numbered_same_id w t' t HN Hin' Hin Hid).
    exact Hne. }
  unfold TimersOk in HT. rewrite Forall_forall in HT.
  specialize (HT t Hin). unfold timerOk in HT.
  destruct (callback t) as [s|b| |i v r] eqn:Ecb; cbn [runCallback].
  - apply scheduleLightning_FlashOk, triggerLightningEvent_FlashOk, Hc.
    discriminate.
  - destruct HT as (B0 & B1 & _). apply doFlash_FlashOk; assumption.
  - left. reflexivity.
  - destruct (thunderPlayback_timers i v r (clearTimeout (timerId t) w))
      as (T1 & _ & T3 & _).
    apply (FlashOk_grow (clearTimeout (timerId t) w));
      [apply Hc; discriminate| |exact T3].
    intros t' Ht'. rewrite T1. exact Ht'.
Qed.

Lemma step_FlashOk (l : Label) (w w' : World) :
  Sound w -> FlashOk w -> step l w = Some w' -> FlashOk w'.
Proof.
  intros HS HF Hstep.
  destruct l as [s|dt| |node|]; cbn [step] in Hstep.
  - injection Hstep as <-. apply updateSettings_FlashOk; assumption.
  - destruct (leb 0 dt && _); [|discriminate].
    injection Hstep as <-. exact HF.
  - destruct (earliest (timers w)) as [t|] eqn:Et; [|discriminate].
    destruct (leb (due t) (now w)); [|discriminate].
    injection Hstep as <-. apply earliest_In in Et.
    apply fire_FlashOk; assumption.
  - destruct (nth_error (thunderPool (audio w)) node) as [a|];
      [|discriminate].
    destruct (paused a); [discriminate|].
    injection Hstep as <-. exact HF.
  - injection Hstep as <-. exact HF.
Qed.

Lemma initialWorld_FlashOk (draws : nat -> Q) (allowed : bool) :
  FlashOk (initialWorld draws allowed).
Proof.
  unfold initialWorld, mount.
  apply lightningEffect_FlashOk; [exact I|].
  apply audioEffect_FlashOk. left. reflexivity.
Qed.

Lemma run_FlashOk (ls : list Label) :
  forall w w' : World,
    Inv w -> Sound w -> FlashOk w -> run ls w = Some w' -> FlashOk w'.
Proof.
  induction ls as [|l ls IH]; intros w w' HI HS HF Hrun; cbn in Hrun.
  - injection Hrun as <-. exact HF.
  - destruct (step l w) as [w1|] eqn:E; [|discriminate].
    apply (IH w1 w'); [| | |exact Hrun].
    + apply (step_Inv l w w1); assumption.
    + apply (step_Sound l w w1); assumption.
    + apply (step_FlashOk l w w1); assumption.
Qed.

Lemma Reachable_FlashOk (w : World) : Reachable w -> FlashOk w.
Proof.
  intros (draws & allowed & ls & Hd & Hrun).
  apply (run_FlashOk ls _ _ (initialWorld_Inv draws allowed Hd)
           (initialWorld_Sound draws allowed Hd)
           (initialWorld_FlashOk draws allowed) Hrun).
Qed.

(** *** Exactly one Armed timer *)

(** When the lightning effect re-runs with an intensity above the
    threshold, [updateSettings] leaves exactly the newly armed timer. *)
Lemma updateSettings_rerun (s : AppSettings) (w : World) :
  Tracked w ->
  negb (Qeq_bool (stormIntensity (settings w)) (stormIntensity s))
  || negb (Bool.eqb (isAudioPlaying (settings w)) (isAudioPlaying s)) = true ->
  0.01 < stormIntensity s ->
  loopTimers (updateSettings s w) = [armedTimer s w].
Proof.
  intros HT E Hgt. unfold updateSettings; cbv zeta. rewrite E. clear E.
  set (w1 := lightningCleanup (withSettings s w)).
  assert (H1 : loopTimers w1 = [] /\ settings w1 = s /\
               nextTimerId w1 = nextTimerId w /\ now w1 = now w /\
               randomDraws w1 = randomDraws w /\ randomPos w1 = randomPos w).
  { unfold w1, lightningCleanup.
    destruct (stopLightningLoop_frame (withSettings s w))
      as (A1 & _ & A3 & A4 & A5 & A6 & _).
    split; [apply stopLightningLoop_clears; exact HT|].
    repeat split; assumption. }
  clearbody w1.
  match goal with
  | |- context [if ?c then audioEffect w1 else w1] =>
      set (w2 := if c then audioEffect w1 else w1)
  end.
  assert (H2 : loopTimers w2 = [] /\ settings w2 = s /\
               nextTimerId w2 = nextTimerId w /\ now w2 = now w /\
               randomDraws w2 = randomDraws w /\ randomPos w2 = randomPos w).
  { unfold w2. destruct (_ || _); [|exact H1].
    rewrite audioEffect_only_audio. exact H1. }
  clearbody w2. clear H1 w1.
  destruct H2 as (B1 & B2 & B3 & B4 & B5 & B6).
  unfold lightningEffect; cbv zeta. rewrite B2.
  assert (G : gtb (stormIntensity s) 0 = true) by (apply gtb_true; lra).
  rewrite G, scheduleLightning_armed by exact Hgt.
  destruct (stopLightningLoop_frame w2) as (_ & _ & C3 & C4 & C5 & C6 & _).
  pose proof (stopLightningLoop_keeps_none w2 B1) as C1.
  unfold loopTimers in *; cbn. rewrite filter_app, C1. cbn.
  unfold armedTimer. rewrite C3, C4, C5, C6, B3, B4, B5, B6.
  reflexivity.
Qed.

(** When the lightning effect does not re-run, the Armed timers stay. *)
Lemma updateSettings_no_rerun (s : AppSettings) (w : World) :
  negb (Qeq_bool (stormIntensity (settings w)) (stormIntensity s))
  || negb (Bool.eqb (isAudioPlaying (settings w)) (isAudioPlaying s)) = false ->
  loopTimers (updateSettings s w) = loopTimers w /\
  stormIntensity s == stormIntensity (settings w).
Proof.
  intros E. unfold updateSettings; cbv zeta. rewrite E.
  apply orb_false_elim in E. destruct E as [E _].
  apply negb_false_iff, Qeq_bool_iff in E.
  split; [|symmetry; exact E].
  destruct (_ || _); [|reflexivity].
  rewrite audioEffect_only_audio. reflexivity.
Qed.

Lemma updateSettings_Armed1 (s : AppSettings) (w : World) :
  LoopInv w -> Armed1 w -> Armed1 (updateSettings s w).
Proof.
  intros HL HA. unfold Armed1.
  rewrite (proj1 (updateSettings_frame s w)). intros Hgt.
  destruct (negb (Qeq_bool (stormIntensity (settings w)) (stormIntensity s))
            || negb (Bool.eqb (isAudioPlaying (settings w))
                       (isAudioPlaying s))) eqn:E.
  - exists (armedTimer s w).
    apply updateSettings_rerun;
      [apply LoopInv_Tracked, HL|exact E|exact Hgt].
  - destruct (updateSettings_no_rerun s w E) as [-> Hs].
    apply HA. rewrite <- Hs. exact Hgt.
Qed.

Lemma filter_keeps_all (keep : Timer -> bool) (ts : list Timer) :
  Forall (fun t => keep t = true) ts -> filter keep ts = ts.
Proof.
  induction 1 as [|t ts Ht _ IH]; [reflexivity|].
  cbn. rewrite Ht, IH. reflexivity.
Qed.

(** Firing a timer that is not Armed leaves the Armed timers pending. *)
Lemma clear_other_keeps_loop (t : Timer) (w : World) :
  Numbered w -> In t (timers w) -> isLoop t = false ->
  loopTimers (clearTimeout (timerId t) w) = loopTimers w.
Proof.
  intros HN Hin Hnl. rewrite loopTimers_clearTimeout.
  apply filter_keeps_all, Forall_forall.
  intros x Hx. unfold loopTimers in Hx. apply filter_In in Hx.
  destruct Hx as [Hx Hl].
  apply negb_true_iff, Nat.eqb_neq. intros E.
  rewrite (Numbered_same_id w x t HN Hx Hin E) in Hl. congruence.
Qed.

Lemma fire_Armed1 (t : Timer) (w : World) :
  LoopInv w -> Numbered w -> Armed1 w -> In t (timers w) ->
  Armed1 (runCallback (callback t) (clearTimeout (timerId t) w)).
Proof.
  intros HL HN HA Hin.
  set (w1 := clearTimeout (timerId t) w).
  assert (Hset : settings w1 = settings w) by reflexivity.
  destruct (isLoop t) eqn:El.
  - unfold isLoop in El.
    destruct (callback t) as [s|b| |i v r] eqn:Ecb; try discriminate.
    cbn [runCallback].
    assert (Hloop : In t (loopTimers w)).
    { unfold loopTimers. apply filter_In. split; [exact Hin|].
      unfold isLoop. rewrite Ecb. reflexivity. }
    unfold LoopInv in HL. rewrite Forall_forall in HL.
    destruct (HL t Hloop) as [Hid Hs]. rewrite Ecb in Hs.
    destruct Hs as (S1 & S2 & S3).
    assert (Hnone : loopTimers w1 = []).
    { unfold w1. rewrite loopTimers_clearTimeout.
      apply filter_same_id.
      intros x Hx. destruct (HL x Hx) as [Hx' _]. congruence. }
    destruct (triggerLightningEvent_Benign s w1) as (B1 & B2 & B3 & B4).
    intros _. rewrite scheduleLightning_armed by exact S3.
    exists (armedTimer s (triggerLightningEvent s w1)).
    unfold loopTimers at 1.
    cbn [timers withLightningLoopRef withTimers]. rewrite filter_app.
    change (filter isLoop (timers (triggerLightningEvent s w1)))
      with (loopTimers (triggerLightningEvent s w1)).
    rewrite B4, Hnone. reflexivity.
  - assert (Hkeep : loopTimers w1 = loopTimers w)
      by (apply clear_other_keeps_loop; assumption).
    assert (HB : Benign w1 (runCallback (callback t) w1)).
    { unfold isLoop in El.
      destruct (callback t) as [s|b| |i v r]; try discriminate;
        cbn [runCallback].
      - apply doFlash_Benign.
      - repeat split.
      - apply thunderPlayback_Benign. }
    destruct HB as (B1 & _ & _ & B4).
    unfold Armed1. rewrite B1, B4, Hset, Hkeep. exact HA.
Qed.

Lemma step_Armed1 (l : Label) (w w' : World) :
  Inv w -> Sound w -> Armed1 w -> step l w = Some w' -> Armed1 w'.
Proof.
  intros (_ & _ & HL & _) (HN & _) HA Hstep.
  destruct l as [s|dt| |node|]; cbn [step] in Hstep.
  - injection Hstep as <-. apply updateSettings_Armed1; assumption.
  - destruct (leb 0 dt && _); [|discriminate].
    injection Hstep as <-. exact HA.
  - destruct (earliest (timers w)) as [t|] eqn:Et; [|discriminate].
    destruct (leb (due t) (now w)); [|discriminate].
    injection Hstep as <-. apply earliest_In in Et.
    apply fire_Armed1; assumption.
  - destruct (nth_error (thunderPool (audio w)) node) as [a|];
      [|discriminate].
    destruct (paused a); [discriminate|].
    injection Hstep as <-. exact HA.
  - injection Hstep as <-. exact HA.
Qed.

Lemma initialWorld_Armed1 (draws : nat -> Q) (allowed : bool) :
  Armed1 (initialWorld draws allowed).
Proof.
  unfold Armed1, initialWorld, mount.
  rewrite (proj1 (lightningEffect_frame _)).
  rewrite (proj1 (audioEffect_Benign _)). cbn [settings pageAtLoad].
  unfold initialSettings; cbn [stormIntensity]. intros H. lra.
Qed.

Lemma run_Armed1 (ls : list Label) :
  forall w w' : World,
    Inv w -> Sound w -> Armed1 w -> run ls w = Some w' -> Armed1 w'.
Proof.
  induction ls as [|l ls IH]; intros w w' HI HS HA Hrun; cbn in Hrun.
  - injection Hrun as <-. exact HA.
  - destruct (step l w) as [w1|] eqn:E; [|discriminate].
    apply (IH w1 w'); [| | |exact Hrun].
    + apply (step_Inv l w w1); assumption.
    + apply (step_Sound l w w1); assumption.
    + apply (step_Armed1 l w w1); assumption.
Qed.

Lemma Reachable_Armed1 (w : World) : Reachable w -> Armed1 w.
Proof.
  intros (draws & allowed & ls & Hd & Hrun).
  apply (run_Armed1 ls _ _ (initialWorld_Inv draws allowed Hd)
           (initialWorld_Sound draws allowed Hd)
           (initialWorld_Armed1 draws allowed) Hrun).
Qed.

(** *** The ambient mix *)

Lemma Mixed_same (w w' : World) :
  audio w' = audio w -> settings w' = settings w ->
  autoplayAllowed w' = autoplayAllowed w -> Mixed w -> Mixed w'.
Proof. unfold Mixed. intros -> -> -> H. exact H. Qed.

Lemma Mixed_pool (pool : list HTMLAudioElement) (w : World) :
  Mixed w -> Mixed (withThunderPool pool w).
Proof. intros H. exact H. Qed.

Lemma thunderPlayback_Mixed (i : nat) (v r : Q) (w : World) :
  Mixed w -> Mixed (thunderPlayback i v r w).
Proof.
  intros H. unfold thunderPlayback.
  destruct (nth_error _ i); [destruct (_ && _)|]; exact H.
Qed.

Lemma stopLightningLoop_Mixed (w : World) :
  Mixed w -> Mixed (stopLightningLoop w).
Proof.
  intros H. unfold stopLightningLoop. destruct (lightningLoopRef w); exact H.
Qed.

Lemma scheduleLightning_Mixed (s : AppSettings) (w : World) :
  Mixed w -> Mixed (scheduleLightning s w).
Proof.
  intros H. destruct (scheduleLightning_cases s w) as [[_ ->]|[_ ->]]; exact H.
Qed.

Lemma lightningEffect_Mixed (w : World) : Mixed w -> Mixed (lightningEffect w).
Proof.
  intros H. unfold lightningEffect; cbv zeta.
  destruct (gtb _ 0).
  - apply (Mixed_same (stopLightningLoop w)).
    + apply scheduleLightning_audio.
    + apply scheduleLightning_frame.
    + destruct (scheduleLightning_cases (settings w) (stopLightningLoop w))
        as [[_ ->]|[_ ->]]; reflexivity.
    + apply stopLightningLoop_Mixed, H.
  - apply stopLightningLoop_Mixed, H.
Qed.

Lemma triggerLightningEvent_Mixed (s : AppSettings) (w : World) :
  Mixed w -> Mixed (triggerLightningEvent s w).
Proof.
  intros H. apply (Mixed_same w); [| | |exact H].
  - apply triggerLightningEvent_audio.
  - apply triggerLightningEvent_Benign.
  - unfold triggerLightningEvent, random; cbv beta iota zeta.
    destruct (gtb (randomDraws w (randomPos w)) 0.8); [reflexivity|].
    destruct (isAudioPlaying s);
      [rewrite (proj1 (proj2 (proj2 (proj2 (proj2 (proj2 (proj2
                 (triggerThunder_frame _ _))))))))|];
      destruct (gtb _ 0.7); reflexivity.
Qed.

Lemma runCallback_Mixed (cb : Callback) (w : World) :
  Mixed w -> Mixed (runCallback cb w).
Proof.
  intros H. destruct cb as [s|b| |i v r]; cbn [runCallback].
  - apply scheduleLightning_Mixed, triggerLightningEvent_Mixed, H.
  - exact H.
  - exact H.
  - apply thunderPlayback_Mixed, H.
Qed.

Lemma clamp_zero : Qmax 0 (Qmin 1 0) == 0.
Proof. reflexivity. Qed.

(** The audio effect, run once the service is initialised, puts the mix
    in line with the settings. *)
Lemma audioEffect_Mixed (w : World) (s0 : AppSettings) (al0 : bool) :
  (let a := audio w in
   let g := globalVolumeScalar a in
   isInitialized a = true /\
   g == (if isAudioPlaying s0
         then Qmax 0 (Qmin 1 (audioVolume s0)) else 0) /\
   ambientOk al0 0.7 g (rainAudio a) /\
   ambientOk al0 0.6 g (forestAudio a) /\
   ambientOk al0 0.4 g (windAudio a) /\
   ambientOk al0 0.15 g (musicAudio a)) ->
  autoplayAllowed w = al0 ->
  Mixed (audioEffect w).
Proof.
  cbv zeta. intros (Hi & _ & Hr & Hf & Hw & Hm) Hal.
  unfold audioEffect, initAudio, setGlobalVolume; cbv zeta.
  destruct w as [n i ts rd rp al a st lv lr tr].
  cbn [audio settings autoplayAllowed] in *. subst al0.
  destruct a as [ra fa wa ma t1 t2 pool ini g].
  cbn [isInitialized rainAudio forestAudio windAudio musicAudio
       globalVolumeScalar] in *.
  subst ini.
  destruct ra as [ra|]; [|contradiction].
  destruct fa as [fa|]; [|contradiction].
  destruct wa as [wa|]; [|contradiction].
  destruct ma as [ma|]; [|contradiction].
  cbn [ambientOk] in *.
  destruct Hr as (_ & Hr1 & Hr2). destruct Hf as (_ & Hf1 & Hf2).
  destruct Hw as (_ & Hw1 & Hw2). destruct Hm as (_ & Hm1 & Hm2).
  unfold Mixed.
  destruct (isAudioPlaying st) eqn:Ep;
    cbn [audio settings autoplayAllowed withAudio isInitialized rainAudio
         forestAudio windAudio musicAudio globalVolumeScalar option_map
         ambientOk setVolume volume loop paused];
    rewrite Ep;
    (split; [reflexivity|]);
    (split; [first [reflexivity|apply clamp_zero]|]);
    repeat split; assumption.
Qed.

Lemma updateSettings_Mixed (s : AppSettings) (w : World) :
  Mixed w -> Mixed (updateSettings s w).
Proof.
  intros HM. unfold updateSettings; cbv zeta.
  set (ad := negb (Bool.eqb (isAudioPlaying (settings w)) (isAudioPlaying s))
             || negb (Qeq_bool (audioVolume (settings w)) (audioVolume s))).
  set (ld := negb (Qeq_bool (stormIntensity (settings w)) (stormIntensity s))
             || negb (Bool.eqb (isAudioPlaying (settings w))
                        (isAudioPlaying s))).
  set (w0 := withSettings s w).
  set (w1 := if ld then lightningCleanup w0 else w0).
  assert (H1 : audio w1 = audio w /\ settings w1 = s /\
               autoplayAllowed w1 = autoplayAllowed w).
  { unfold w1. destruct ld; [|repeat split].
    unfold lightningCleanup, stopLightningLoop.
    destruct (lightningLoopRef w0); repeat split. }
  clearbody w1. destruct H1 as (A1 & A2 & A3).
  assert (H2 : Mixed (if ad then audioEffect w1 else w1)).
  { unfold Mixed in HM; cbv zeta in HM.
    destruct ad eqn:Ead.
    - apply (audioEffect_Mixed w1 (settings w) (autoplayAllowed w));
        [cbv zeta; rewrite A1; exact HM|exact A3].
    - unfold ad in Ead. apply orb_false_elim in Ead.
      destruct Ead as [Ep Ev].
      apply negb_false_iff, Bool.eqb_prop in Ep.
      apply negb_false_iff, Qeq_bool_iff in Ev.
      unfold Mixed; cbv zeta. rewrite A1, A2, A3, <- Ep.
      destruct HM as (M1 & M2 & M3).
      split; [exact M1|]. split; [|exact M3].
      rewrite M2. destruct (isAudioPlaying (settings w)); [|reflexivity].
      rewrite Ev. reflexivity. }
  destruct ld; [apply lightningEffect_Mixed|]; exact H2.
Qed.

Lemma resume_ambientOk (al : bool) (k g : Q) (o : option HTMLAudioElement) :
  ambientOk al k g o ->
  ambientOk true k g
    (option_map (fun e => if paused e then play true e else e) o).
Proof.
  destruct o as [a|]; [|exact (fun H => H)]. cbn [option_map ambientOk].
  intros (Hv & Hl & _). destruct (paused a) eqn:Ep; cbn; repeat split; auto.
Qed.

Lemma step_Mixed (l : Label) (w w' : World) :
  Mixed w -> step l w = Some w' -> Mixed w'.
Proof.
  intros HM Hstep.
  destruct l as [s|dt| |node|]; cbn [step] in Hstep.
  - injection Hstep as <-. apply updateSettings_Mixed, HM.
  - destruct (leb 0 dt && _); [|discriminate].
    injection Hstep as <-. exact HM.
  - destruct (earliest (timers w)) as [t|]; [|discriminate].
    destruct (leb (due t) (now w)); [|discriminate].
    injection Hstep as <-. apply runCallback_Mixed. exact HM.
  - destruct (nth_error (thunderPool (audio w)) node) as [a|];
      [|discriminate].
    destruct (paused a); [discriminate|].
    injection Hstep as <-. exact HM.
  - injection Hstep as <-.
    destruct HM as (M1 & M2 & M3 & M4 & M5 & M6).
    unfold Mixed, resumeAudioContext; cbv zeta.
    cbn [audio settings autoplayAllowed withAudio withAutoplayAllowed
         isInitialized rainAudio forestAudio windAudio musicAudio
         globalVolumeScalar].
    split; [exact M1|]. split; [exact M2|].
    repeat split; eapply resume_ambientOk; eassumption.
Qed.

Lemma initialWorld_Mixed (draws : nat -> Q) (allowed : bool) :
  Mixed (initialWorld draws allowed).
Proof.
  unfold initialWorld, mount. apply lightningEffect_Mixed.
  unfold Mixed, audioEffect, initAudio, setGlobalVolume; cbn.
  split; [reflexivity|]. split; [reflexivity|].
  destruct allowed; cbn; repeat split; intros; try reflexivity; discriminate.
Qed.

Lemma run_Mixed (ls : list Label) :
  forall w w' : World, Mixed w -> run ls w = Some w' -> Mixed w'.
Proof.
  induction ls as [|l ls IH]; intros w w' HM Hrun; cbn in Hrun.
  - injection Hrun as <-. exact HM.
  - destruct (step l w) as [w1|] eqn:E; [|discriminate].
    apply (IH w1 w'); [|exact Hrun]. apply (step_Mixed l w w1); assumption.
Qed.

Lemma Reachable_Mixed (w : World) : Reachable w -> Mixed w.
Proof.
  intros (draws & allowed & ls & Hd & Hrun).
  apply (run_Mixed ls _ _ (initialWorld_Mixed draws allowed) Hrun).
Qed.

(** *** What holds in every world the page can be in *)

(** X9. In every world the page can reach, the lightning loop is pending
    exactly when the storm intensity is above 0.01: at or below the
    threshold no timer is Armed; above it exactly one is, it is the timer
    [lightningLoopRef] holds, its callback closes over the current storm
    intensity and audio flag, and for an intensity of at most 1 its delay
    lies between 5000 ms and [5000 + (1 - stormIntensity) * 40000] ms.
    The loop neither dies nor runs twice. *)
Theorem X9_lightning_loop_pending_exactly_when_storming (w : World) :
  Reachable w ->
  (stormIntensity (settings w) <= 0.01 -> loopTimers w = []) /\
  (0.01 < stormIntensity (settings w) ->
   exists (t : Timer) (s : AppSettings),
     loopTimers w = [t] /\
     callback t = CbLightningLoop s /\
     lightningLoopRef w = Some (timerId t) /\
     stormIntensity s == stormIntensity (settings w) /\
     isAudioPlaying s = isAudioPlaying (settings w) /\
     (stormIntensity (settings w) <= 1 ->
      5000 <= delay t /\
      delay t <= 5000 + (1 - stormIntensity (settings w)) * 40000)).
Proof.
  intros HR.
  pose proof (Reachable_Inv w HR) as (_ & _ & HL & _).
  pose proof (Reachable_Sound w HR) as (_ & HT & _).
  pose proof (Reachable_Armed1 w HR) as HA.
  split; [apply LoopInv_idle; exact HL|].
  intros Hgt. destruct (HA Hgt) as [t Ht]. unfold LoopInv in HL.
  rewrite Ht in HL. inversion HL as [|t0 l0 [Hid Hcb] _]; subst.
  assert (Hin : In t (timers w)).
  { assert (H : In t (loopTimers w)) by (rewrite Ht; left; reflexivity).
    unfold loopTimers in H. apply filter_In in H. apply H. }
  unfold TimersOk in HT. rewrite Forall_forall in HT.
  specialize (HT t Hin). unfold timerOk in HT.
  destruct (callback t) as [s|b| |i v r] eqn:Ecb.
  - exists t, s. destruct Hcb as (C1 & C2 & C3).
    destruct HT as (r & R0 & R1 & Hd).
    repeat split; try assumption; rewrite Hd, <- C1 in *; nra.
  - assert (H : In t (loopTimers w)) by (rewrite Ht; left; reflexivity).
    unfold loopTimers in H. apply filter_In in H. destruct H as [_ H].
    unfold isLoop in H. rewrite Ecb in H. discriminate.
  - assert (H : In t (loopTimers w)) by (rewrite Ht; left; reflexivity).
    unfold loopTimers in H. apply filter_In in H. destruct H as [_ H].
    unfold isLoop in H. rewrite Ecb in H. discriminate.
  - assert (H : In t (loopTimers w)) by (rewrite Ht; left; reflexivity).
    unfold loopTimers in H. apply filter_In in H. destruct H as [_ H].
    unfold isLoop in H. rewrite Ecb in H. discriminate.
Qed.

(** With the storm at 10 percent one timer is Armed. *)
Lemma X9_witness :
  exists (t : Timer) (s : AppSettings),
    loopTimers armedWorld = [t] /\
    callback t = CbLightningLoop s /\
    lightningLoopRef armedWorld = Some (timerId t) /\
    stormIntensity s == stormIntensity (settings armedWorld) /\
    isAudioPlaying s = isAudioPlaying (settings armedWorld) /\
    (stormIntensity (settings armedWorld) <= 1 ->
     5000 <= delay t /\
     delay t <= 5000 + (1 - stormIntensity (settings armedWorld)) * 40000).
Proof.
  apply (proj2 (X9_lightning_loop_pending_exactly_when_storming
                  armedWorld armedWorld_Reachable)).
  vm_compute. reflexivity.
Defined.

(** X10. In every world the page can reach, the flash level handed to the
    shader is 0 or lies in [[0.2, 1]]; and whenever it is not 0 the timer
    that resets it to 0 is pending, set with a delay of 100 to 300 ms: no
    flash stays on. *)
Theorem X10_flash_level_is_bounded_and_every_flash_ends (w : World) :
  Reachable w ->
  (0 <= lightningVal w /\ lightningVal w <= 1) /\
  (lightningVal w == 0 \/
   (0.2 <= lightningVal w /\
    exists t : Timer,
      In t (timers w) /\ callback t = CbFlashOff /\
      100 <= delay t /\ delay t < 300)).
Proof.
  intros HR.
  pose proof (Reachable_Sound w HR) as (_ & HT & _).
  destruct (Reachable_FlashOk w HR) as [H|(H0 & H1 & t & Hin & Hcb)].
  - split; [rewrite H; split; lra|left; exact H].
  - split; [split; lra|right]. split; [exact H0|].
    exists t. split; [exact Hin|]. split; [exact Hcb|].
    unfold TimersOk in HT. rewrite Forall_forall in HT.
    specialize (HT t Hin). unfold timerOk in HT. rewrite Hcb in HT.
    exact HT.
Qed.

Lemma X10_witness :
  0 <= lightningVal struckWorld /\ lightningVal struckWorld <= 1.
Proof.
  apply (proj1 (X10_flash_level_is_bounded_and_every_flash_ends
                  struckWorld struckWorld_Reachable)).
Defined.

(** X11. In every world the page can reach, every pending timer has an id
    of its own, below the next id, and the shape its creator gives it: an
    Armed timer closes over an intensity above 0.01 and, for an intensity
    of at most 1, waits between 5 and 45 seconds; a second flash has a
    brightness in [[0.2, 1]] and comes 150 to 300 ms after the first; a
    flash is ended after 100 to 300 ms; a thunder playback addresses one
    of the 4 pool slots with a volume in [(0, 0.8]] and a playback rate in
    [[0.6, 1.2)], at most 4.5 seconds after the strike. *)
Theorem X11_pending_timers_keep_their_shape (w : World) (t : Timer) :
  Reachable w -> In t (timers w) ->
  (timerId t < nextTimerId w)%nat /\
  (forall t' : Timer, In t' (timers w) -> timerId t' = timerId t -> t' = t) /\
  match callback t with
  | CbLightningLoop s =>
      0.01 < stormIntensity s /\
      (stormIntensity s <= 1 -> 5000 <= delay t /\ delay t <= 45000)
  | CbDoFlash b =>
      0.2 <= b /\ b <= 1 /\ 150 <= delay t /\ delay t < 300
  | CbFlashOff => 100 <= delay t /\ delay t < 300
  | CbThunderPlay node v rate =>
      (node < 4)%nat /\ 0 < v /\ v <= 0.8 /\
      0.6 <= rate /\ rate < 1.2 /\ 0 <= delay t /\ delay t < 4500
  end.
Proof.
  intros HR Hin.
  pose proof (Reachable_Inv w HR) as (_ & _ & HL & HF).
  pose proof (Reachable_Sound w HR) as (HN & HT & _).
  split; [unfold Fresh in HF; rewrite Forall_forall in HF; apply HF, Hin|].
  split; [intros t' Hin' E; apply (Numbered_same_id w t' t HN Hin' Hin E)|].
  unfold TimersOk in HT. rewrite Forall_forall in HT.
  specialize (HT t Hin). unfold timerOk in HT.
  destruct (callback t) as [s|b| |i v r] eqn:Ecb; try exact HT.
  assert (Hloop : In t (loopTimers w)).
  { unfold loopTimers. apply filter_In. split; [exact Hin|].
    unfold isLoop. rewrite Ecb. reflexivity. }
  unfold LoopInv in HL. rewrite Forall_forall in HL.
  destruct (HL t Hloop) as [_ Hs]. rewrite Ecb in Hs.
  destruct Hs as (_ & _ & S3). destruct HT as (r & R0 & R1 & Hd).
  split; [exact S3|]. intros S1. rewrite Hd. split; nra.
Qed.

(** The Armed timer of [armedWorld]. *)
Lemma X11_witness :
  (timerId (hd (armedTimer (storm 0.1) armedWorld) (timers armedWorld))
   < nextTimerId armedWorld)%nat.
Proof.
  refine (proj1 (X11_pending_timers_keep_their_shape armedWorld
                   (hd (armedTimer (storm 0.1) armedWorld) (timers armedWorld))
                   armedWorld_Reachable _)).
  vm_compute. left. reflexivity.
Defined.

Lemma mutedWorld_Reachable : Reachable mutedWorld.
Proof.
  apply runFrom_Reachable.
  - unfold struckDraws. repeat constructor; lra.
  - vm_compute. discriminate.
Qed.

Lemma pool_ready (w : World) :
  Reachable w -> length (thunderPool (audio w)) = THUNDER_POOL_SIZE.
Proof.
  intros HR.
  pose proof (Reachable_Inv w HR) as (_ & (Hp & _) & _).
  pose proof (Reachable_Mixed w HR) as (Hi & _).
  rewrite Hi in Hp. exact Hp.
Qed.

(** X12. A thunder playback that has been scheduled is always carried
    out: in every world the page can reach, when the timer due first is a
    thunder playback and it is due, firing it finds its pool slot, writes
    the volume and playback rate computed at the strike and
    [currentTime = 0] to it and calls [play] on it.  Neither the audio
    switch nor the volume setting is consulted again, so a thunder
    scheduled before the audio was switched off is still heard. *)
Theorem X12_scheduled_thunder_is_always_played
  (w : World) (t : Timer) (node : nat) (v rate : Q) :
  Reachable w ->
  earliest (timers w) = Some t ->
  callback t = CbThunderPlay node v rate ->
  due t <= now w ->
  exists a : HTMLAudioElement,
    nth_error (thunderPool (audio w)) node = Some a /\
    step FireTimer w =
    Some (emit (EvThunderPlay node v rate)
            (withThunderPool
               (replaceAt node
                  (play (autoplayAllowed w)
                     (setCurrentTime 0
                        (setPlaybackRate rate (setVolume v a))))
                  (thunderPool (audio w)))
               (clearTimeout (timerId t) w))).
Proof.
  intros HR Het Hcb Hdue.
  pose proof (pool_ready w HR) as Hp.
  pose proof (Reachable_Sound w HR) as (_ & HT & _).
  pose proof (earliest_In _ _ Het) as Hin.
  unfold TimersOk in HT. rewrite Forall_forall in HT.
  specialize (HT t Hin). unfold timerOk in HT. rewrite Hcb in HT.
  destruct HT as (Hn & V0 & V1 & _).
  destruct (nth_error (thunderPool (audio w)) node) as [a|] eqn:Ea;
    [|apply nth_error_None in Ea; lia].
  exists a. split; [reflexivity|].
  cbn [step]. rewrite Het. apply leb_true in Hdue. rewrite Hdue, Hcb.
  cbn [runCallback]. unfold thunderPlayback.
  cbn [audio clearTimeout withTimers autoplayAllowed]. rewrite Ea.
  assert (E0 : leb 0 v = true) by (apply leb_true; lra).
  assert (E1 : leb v 1 = true) by (apply leb_true; lra).
  rewrite E0, E1. reflexivity.
Qed.

(** The thunder of the strike at 5000 ms (distance 0.35), due at 6400 ms,
    is played in slot 0 although the audio was switched off at 5050 ms. *)
Lemma X12_witness :
  isAudioPlaying (settings mutedWorld) = false /\
  exists a : HTMLAudioElement,
    nth_error (thunderPool (audio mutedWorld)) 0 = Some a /\
    step FireTimer mutedWorld =
    Some (emit (EvThunderPlay 0
                  (Qmax 0.1 ((1.0 - strikeDistance 0.5 0.5) * 0.8)
                   * Qmax 0 (Qmin 1 1.0))
                  (1.1 - strikeDistance 0.5 0.5 * 0.5 + 0 * 0.1))
            (withThunderPool
               (replaceAt 0
                  (play (autoplayAllowed mutedWorld)
                     (setCurrentTime 0
                        (setPlaybackRate
                           (1.1 - strikeDistance 0.5 0.5 * 0.5 + 0 * 0.1)
                           (setVolume
                              (Qmax 0.1 ((1.0 - strikeDistance 0.5 0.5) * 0.8)
                               * Qmax 0 (Qmin 1 1.0))
                              a))))
                  (thunderPool (audio mutedWorld)))
               (clearTimeout 4 mutedWorld))).
Proof.
  split; [vm_compute; reflexivity|].
  refine (X12_scheduled_thunder_is_always_played mutedWorld
           {| timerId := 4; setAt := 5000;
              delay := strikeDistance 0.5 0.5 * 4000 + 0 * 500;
              callback :=
                CbThunderPlay 0
                  (Qmax 0.1 ((1.0 - strikeDistance 0.5 0.5) * 0.8)
                   * Qmax 0 (Qmin 1 1.0))
                  (1.1 - strikeDistance 0.5 0.5 * 0.5 + 0 * 0.1) |}
           0 _ _ mutedWorld_Reachable _ eq_refl _).
  - vm_compute. reflexivity.
  - vm_compute. discriminate.
Defined.

Lemma triggerThunder_dropped (d : Q) (w : World) :
  globalVolumeScalar (audio w) <= 0.05 -> triggerThunder d w = w.
Proof.
  intros H. apply leb_true in H. unfold triggerThunder; cbv zeta.
  rewrite H, orb_true_r. reflexivity.
Qed.

Lemma clamp_volume_range (v : Q) :
  0 <= Qmax 0 (Qmin 1 v) /\ Qmax 0 (Qmin 1 v) <= 1 /\
  (v <= 0.05 -> Qmax 0 (Qmin 1 v) <= 0.05).
Proof.
  destruct (Q.max_spec 0 (Qmin 1 v)) as [[A B]|[A B]];
    destruct (Q.min_spec 1 v) as [[C D]|[C D]];
    revert A B C D;
    generalize (Qmax 0 (Qmin 1 v)); generalize (Qmin 1 v);
    intros; (split; [|split; [|intros ?]]); lra.
Qed.

(** X13. In every world the page can reach the audio service is
    initialised with its 4 pool slots, the global volume scalar is the
    volume setting clamped to [[0, 1]] while the audio is switched on and
    0 while it is off, and the four ambient tracks exist, loop, and have
    the volumes 0.7, 0.6, 0.4 and 0.15 times the scalar (so every volume
    is a legal one); once the browser allows playback all four play.
    With the audio off, or a volume setting of at most 0.05, every
    [triggerThunder] call is dropped. *)
Theorem X13_ambient_mix_follows_the_settings (w : World) :
  Reachable w ->
  let a := audio w in
  let g := globalVolumeScalar a in
  isInitialized a = true /\
  length (thunderPool a) = 4%nat /\
  g == (if isAudioPlaying (settings w)
        then Qmax 0 (Qmin 1 (audioVolume (settings w))) else 0) /\
  0 <= g /\ g <= 1 /\
  (exists rain forest wind music : HTMLAudioElement,
     rainAudio a = Some rain /\ forestAudio a = Some forest /\
     windAudio a = Some wind /\ musicAudio a = Some music /\
     volume rain = g * 0.7 /\ volume forest = g * 0.6 /\
     volume wind = g * 0.4 /\ volume music = g * 0.15 /\
     loop rain = true /\ loop forest = true /\
     loop wind = true /\ loop music = true /\
     (autoplayAllowed w = true ->
      paused rain = false /\ paused forest = false /\
      paused wind = false /\ paused music = false)) /\
  (isAudioPlaying (settings w) = false \/ audioVolume (settings w) <= 0.05 ->
   forall d : Q, triggerThunder d w = w).
Proof.
  intros HR; cbv zeta.
  pose proof (pool_ready w HR) as Hp.
  pose proof (Reachable_Inv w HR) as (_ & (_ & G0 & G1) & _).
  destruct (Reachable_Mixed w HR) as (Hi & Hg & Hr & Hf & Hw & Hm).
  split; [exact Hi|]. split; [exact Hp|]. split; [exact Hg|].
  split; [exact G0|]. split; [exact G1|]. split.
  - destruct (rainAudio (audio w)) as [rain|]; [|contradiction].
    destruct (forestAudio (audio w)) as [forest|]; [|contradiction].
    destruct (windAudio (audio w)) as [wind|]; [|contradiction].
    destruct (musicAudio (audio w)) as [music|]; [|contradiction].
    cbn [ambientOk] in *.
    destruct Hr as (R1 & R2 & R3). destruct Hf as (F1 & F2 & F3).
    destruct Hw as (W1 & W2 & W3). destruct Hm as (M1 & M2 & M3).
    exists rain, forest, wind, music.
    repeat split; auto.
  - intros Hq d. apply triggerThunder_dropped. rewrite Hg.
    destruct Hq as [->|Hv]; [lra|].
    destruct (isAudioPlaying (settings w)); [|lra].
    apply clamp_volume_range. exact Hv.
Qed.

Lemma X13_witness :
  isInitialized (audio mutedWorld) = true /\
  forall d : Q, triggerThunder d mutedWorld = mutedWorld.
Proof.
  pose proof (X13_ambient_mix_follows_the_settings mutedWorld
                mutedWorld_Reachable) as H.
  cbv zeta in H. split; [apply H|].
  apply H. left. vm_compute. reflexivity.
Defined.

(** *** Strikes while the audio is off or quiet *)

Lemma count_snoc {A : Type} (f : A -> bool) (l : list A) (x : A) :
  count f (l ++ [x]) = (count f l + if f x then 1 else 0)%nat.
Proof.
  unfold count. rewrite filter_app, length_app. cbn.
  destruct (f x); reflexivity.
Qed.

Lemma doFlash_counts (b : Q) (w : World) :
  count isThunderPlay (timers (doFlash b w)) = count isThunderPlay (timers w) /\
  count isThunderCallEv (trace (doFlash b w)) = count isThunderCallEv (trace w).
Proof.
  rewrite doFlash_timers, count_snoc. cbn. split; [lia|reflexivity].
Qed.

Lemma triggerLightningEvent_no_thunder (s : AppSettings) (w : World) :
  isAudioPlaying s = false \/ globalVolumeScalar (audio w) <= 0.05 ->
  count isThunderPlay (timers (triggerLightningEvent s w))
  = count isThunderPlay (timers w) /\
  (isAudioPlaying s = false ->
   count isThunderCallEv (trace (triggerLightningEvent s w))
   = count isThunderCallEv (trace w)).
Proof.
  intros Hq.
  unfold triggerLightningEvent, random; cbv beta iota zeta.
  destruct (gtb _ 0.8); [split; reflexivity|].
  set (b := flashBrightness _).
  match goal with
  | |- context [triggerThunder ?d (emit _ ?W)] => set (w4 := W); set (d0 := d)
  end.
  assert (H4 : count isThunderPlay (timers w4) = count isThunderPlay (timers w)
               /\ count isThunderCallEv (trace w4)
                  = count isThunderCallEv (trace w)
               /\ audio w4 = audio w).
  { unfold w4. destruct (gtb _ 0.7).
    - unfold setTimeout.
      cbn [snd timers trace audio withTimers withRandomPos].
      rewrite count_snoc. cbn [isThunderPlay callback].
      match goal with
      | |- context [doFlash b ?X] =>
          destruct (doFlash_counts b X) as [-> ->]
      end.
      split; [rewrite Nat.add_0_r; reflexivity|split; reflexivity].
    - match goal with
      | |- context [doFlash b ?X] =>
          destruct (doFlash_counts b X) as [-> ->]
      end.
      repeat split. }
  clearbody w4. destruct H4 as (A1 & A2 & A3).
  destruct (isAudioPlaying s) eqn:Ea.
  - destruct Hq as [Hq|Hq]; [discriminate|].
    rewrite triggerThunder_dropped by (cbn [audio emit]; rewrite A3; exact Hq).
    split; [exact A1|]. intros H. discriminate.
  - split; [exact A1|]. intros _. exact A2.
Qed.

Lemma scheduleLightning_counts (s : AppSettings) (w : World) :
  count isThunderPlay (timers (scheduleLightning s w))
  = count isThunderPlay (timers w) /\
  trace (scheduleLightning s w) = trace w.
Proof.
  destruct (scheduleLightning_cases s w) as [[_ ->]|[_ ->]];
    [split; reflexivity|].
  cbn [timers trace withLightningLoopRef withTimers withRandomPos].
  rewrite count_snoc. cbn. split; [lia|reflexivity].
Qed.

(** X14. While the audio is switched off, or the volume setting is at
    most 0.05, no thunder is scheduled: in every world the page can reach
    under such settings, firing the timer that is due adds no thunder
    playback to the pending timers, whatever the strike; and with the
    audio off [triggerThunder] is not even called. *)
Theorem X14_no_thunder_is_scheduled_while_off_or_quiet (w w' : World) :
  Reachable w ->
  isAudioPlaying (settings w) = false \/ audioVolume (settings w) <= 0.05 ->
  step FireTimer w = Some w' ->
  (thunderPlaysPending w' <= thunderPlaysPending w)%nat /\
  (isAudioPlaying (settings w) = false -> thunderCalls w' = thunderCalls w).
Proof.
  intros HR Hq Hstep.
  pose proof (Reachable_Inv w HR) as (_ & _ & HL & _).
  destruct (Reachable_Mixed w HR) as (_ & Hg & _).
  assert (Hquiet : isAudioPlaying (settings w) = false \/
                   globalVolumeScalar (audio w) <= 0.05).
  { destruct Hq as [Hq|Hq]; [left; exact Hq|].
    destruct (isAudioPlaying (settings w)); [right|left; reflexivity].
    rewrite Hg. apply clamp_volume_range. exact Hq. }
  cbn [step] in Hstep.
  destruct (earliest (timers w)) as [t|] eqn:Et; [|discriminate].
  destruct (leb (due t) (now w)); [|discriminate].
  injection Hstep as <-. apply earliest_In in Et.
  unfold thunderPlaysPending, thunderCalls.
  set (w1 := clearTimeout (timerId t) w).
  assert (H1 : (count isThunderPlay (timers w1)
                <= count isThunderPlay (timers w))%nat)
    by apply count_filter_le.
  assert (T1 : trace w1 = trace w) by reflexivity.
  destruct (callback t) as [s|b| |i v r] eqn:Ecb; cbn [runCallback].
  - assert (Hloop : In t (loopTimers w)).
    { unfold loopTimers. apply filter_In. split; [exact Et|].
      unfold isLoop. rewrite Ecb. reflexivity. }
    unfold LoopInv in HL. rewrite Forall_forall in HL.
    destruct (HL t Hloop) as [_ Hs]. rewrite Ecb in Hs.
    destruct Hs as (_ & S2 & _).
    destruct (scheduleLightning_counts s (triggerLightningEvent s w1))
      as [-> ->].
    destruct (triggerLightningEvent_no_thunder s w1) as [-> C2].
    { rewrite S2. exact Hquiet. }
    split; [exact H1|]. intros Hoff. rewrite C2, T1 by congruence.
    reflexivity.
  - destruct (doFlash_counts b w1) as [-> ->]. rewrite T1.
    split; [exact H1|reflexivity].
  - split; [exact H1|reflexivity].
  - destruct (thunderPlayback_timers i v r w1) as (-> & _).
    split; [exact H1|]. intros _. unfold thunderPlayback.
    destruct (nth_error _ i); [destruct (_ && _)|]; reflexivity.
Qed.

Lemma mutedStrikeWorld_Reachable : Reachable mutedStrikeWorld.
Proof.
  apply runFrom_Reachable.
  - unfold struckDraws. repeat constructor; lra.
  - vm_compute. discriminate.
Qed.

(** With the storm at 50 percent and the audio off, the strike of the
    timer due at 20050 ms flashes and schedules no thunder. *)
Lemma X14_witness :
  (thunderPlaysPending afterMutedStrike
   <= thunderPlaysPending mutedStrikeWorld)%nat /\
  thunderCalls afterMutedStrike = thunderCalls mutedStrikeWorld.
Proof.
  assert (H : (thunderPlaysPending afterMutedStrike
               <= thunderPlaysPending mutedStrikeWorld)%nat /\
              (isAudioPlaying (settings mutedStrikeWorld) = false ->
               thunderCalls afterMutedStrike
               = thunderCalls mutedStrikeWorld)).
  { refine (X14_no_thunder_is_scheduled_while_off_or_quiet
              mutedStrikeWorld afterMutedStrike
              mutedStrikeWorld_Reachable _ _).
    - left. vm_compute. reflexivity.
    - vm_compute. reflexivity. }
  split; [apply H|]. apply H. vm_compute. reflexivity.
Defined.

End PageMore.

(** ** The note card: resizing, dragging, storage *)

Module EditorProps.
Import String LocalStorage Editor PageFacts.
Local Open Scope Q_scope.

Lemma ltb_true (a b : Q) : ltb a b = true <-> a < b.
Proof. apply gtb_true. Qed.

Lemma ltb_false (a b : Q) : ltb a b = false <-> b <= a.
Proof. apply gtb_false. Qed.

(** Replace every comparison of the goal by the inequality it decides. *)
Ltac decide_comparisons :=
  repeat match goal with
  | |- context [Page.gtb ?a ?b] =>
      let E := fresh "E" in
      destruct (Page.gtb a b) eqn:E;
      [apply gtb_true in E|apply gtb_false in E]
  | |- context [ltb ?a ?b] =>
      let E := fresh "E" in
      destruct (ltb a b) eqn:E;
      [apply ltb_true in E|apply ltb_false in E]
  end.

Lemma Qmin_cases (a b : Q) :
  (a <= b /\ Qmin a b = a) \/ (b < a /\ Qmin a b = b).
Proof.
  unfold Qmin, GenericMinMax.gmin.
  destruct (a ?= b) eqn:E.
  - left. split; [apply Qeq_alt in E; rewrite E; apply Qle_refl|reflexivity].
  - left. split; [apply Qlt_alt in E; apply Qlt_le_weak, E|reflexivity].
  - right. split; [apply Qgt_alt in E; exact E|reflexivity].
Qed.

Lemma Qmax_cases (a b : Q) :
  (a < b /\ Qmax a b = b) \/ (b <= a /\ Qmax a b = a).
Proof.
  unfold Qmax, GenericMinMax.gmax.
  destruct (a ?= b) eqn:E.
  - right. split; [apply Qeq_alt in E; rewrite E; apply Qle_refl|reflexivity].
  - left. split; [apply Qlt_alt in E; exact E|reflexivity].
  - right. split; [apply Qgt_alt in E; apply Qlt_le_weak, E|reflexivity].
Qed.

(** Replace [Qmin a b] and [Qmax a b] by the operand they return. *)
Ltac decide_minmax :=
  repeat match goal with
  | |- context [Qmin ?a ?b] =>
      let H := fresh "M" in
      let E := fresh "E" in
      destruct (Qmin_cases a b) as [[H E]|[H E]]; rewrite !E in *
  | |- context [Qmax ?a ?b] =>
      let H := fresh "M" in
      let E := fresh "E" in
      destruct (Qmax_cases a b) as [[H E]|[H E]]; rewrite !E in *
  end.

(** Name every half [a / 2] of the goal, with its defining equation. *)
Ltac name_halves :=
  repeat match goal with
  | |- context [?a / 2] =>
      let h := fresh "h" in
      let Hh := fresh "Hh" in
      assert (Hh : a / 2 * 2 == a) by field;
      set (h := a / 2) in *; clearbody h
  end.

(** X15. After [handleResize] the card lies inside the window.  On a
    desktop window (at least 768 wide) the card is at most as large as
    before and as the window less 40 by 100, it keeps 20 to the left and
    right edges and 20 to the bottom, and its top is at 60 or lower (50
    for the main card while it is kept centred).  On a mobile window of
    height at least 150 the card is at most 450 by 500, horizontally
    inside the window, with its top at 60 or lower and its bottom inside
    the window. *)
Theorem X15_resize_keeps_the_card_inside_the_window
  (id : string) (moved : bool) (win : Window)
  (dims : Dimensions) (prev : Position) :
  let d := fst (handleResize id moved win dims prev) in
  let p := snd (handleResize id moved win dims prev) in
  (768 <= innerWidth win ->
   width d <= width dims /\ width d <= innerWidth win - 40 /\
   height d <= height dims /\ height d <= innerHeight win - 100 /\
   20 <= x p /\ x p + width d <= innerWidth win - 20 /\
   50 <= y p /\ y p + height d <= innerHeight win - 20 /\
   (String.eqb id "main" && negb moved = false -> 60 <= y p)) /\
  (0 <= innerWidth win -> innerWidth win < 768 -> 150 <= innerHeight win ->
   width d <= 450 /\ height d <= 500 /\
   0 <= x p /\ x p + width d <= innerWidth win /\
   60 <= y p /\ y p + height d <= innerHeight win).
Proof.
  cbv zeta. unfold handleResize, isMobile; cbv zeta.
  split.
  - intros Hw. apply ltb_false in Hw. rewrite Hw. cbn [fst snd width height x y].
    destruct (String.eqb id "main" && negb moved);
      cbn [x y]; decide_comparisons; decide_minmax;
      repeat split;
      try match goal with
          | |- _ = false -> _ => intros Hf; try discriminate Hf
          end;
      name_halves; lra.
  - intros H0 Hw Hh. apply ltb_true in Hw. rewrite Hw.
    cbn [fst snd width height x y].
    decide_comparisons; decide_minmax; repeat split; name_halves; lra.
Qed.

(** A note dragged off a 1024 x 768 screen is brought back by the next
    resize event. *)
Lemma X15_witness :
  20 <= x (snd (handleResize "note" true
                  {| innerWidth := 1024; innerHeight := 768 |}
                  {| width := 450; height := 500 |}
                  {| x := 2000; y := -30 |})) /\
  60 <= y (snd (handleResize "note" true
                  {| innerWidth := 1024; innerHeight := 768 |}
                  {| width := 450; height := 500 |}
                  {| x := 2000; y := -30 |})).
Proof.
  pose proof (proj1 (X15_resize_keeps_the_card_inside_the_window
                       "note" true
                       {| innerWidth := 1024; innerHeight := 768 |}
                       {| width := 450; height := 500 |}
                       {| x := 2000; y := -30 |})) as H.
  cbv zeta in H. cbn [innerWidth] in H.
  assert (Hw : 768 <= 1024) by lra.
  destruct (H Hw) as (_ & _ & _ & _ & Hx & _ & _ & _ & Hy).
  split; [exact Hx|apply Hy; reflexivity].
Defined.

Lemma Qmin_absorb (a b : Q) : Qmin (Qmin a b) b = Qmin a b.
Proof.
  destruct (Qmin_cases a b) as [[H E]|[H E]]; rewrite E.
  - exact E.
  - destruct (Qmin_cases b b) as [[_ E']|[_ E']]; exact E'.
Qed.

(** Decide the comparisons of the goal from the inside out. *)
Ltac decide_inner_comparisons :=
  repeat match goal with
  | |- context [Page.gtb ?a ?b] =>
      lazymatch a with
      | context [if _ then _ else _] => fail
      | _ =>
          let E := fresh "E" in
          destruct (Page.gtb a b) eqn:E;
          [apply gtb_true in E|apply gtb_false in E]
      end
  | |- context [ltb ?a ?b] =>
      lazymatch a with
      | context [if _ then _ else _] => fail
      | _ =>
          let E := fresh "E" in
          destruct (ltb a b) eqn:E;
          [apply ltb_true in E|apply ltb_false in E]
      end
  end.

Lemma resize_position_stable
  (id : string) (moved : bool) (win : Window)
  (dims : Dimensions) (prev : Position) :
  snd (handleResize id moved win dims
         (snd (handleResize id moved win dims prev)))
  = snd (handleResize id moved win dims prev).
Proof.
  unfold handleResize; cbv zeta. cbn [snd].
  set (nw := if isMobile win then _ else Qmin (width dims) _).
  set (nh := if isMobile win then _ else Qmin (height dims) _).
  clearbody nw nh.
  destruct (isMobile win); [|destruct (String.eqb id "main" && negb moved)];
    cbn [x y]; try reflexivity; f_equal;
    decide_inner_comparisons; first [reflexivity|exfalso; lra].
Qed.

Lemma resize_depends_on_fitted_size
  (id : string) (moved : bool) (win : Window)
  (d d' : Dimensions) (p : Position) :
  fst (handleResize id moved win d p) = fst (handleResize id moved win d' p) ->
  handleResize id moved win d p = handleResize id moved win d' p.
Proof.
  unfold handleResize; cbv zeta; cbn [fst].
  set (nw := if isMobile win then _ else Qmin (width d) _).
  set (nh := if isMobile win then _ else Qmin (height d) _).
  set (nw' := if isMobile win then _ else Qmin (width d') _).
  set (nh' := if isMobile win then _ else Qmin (height d') _).
  clearbody nw nh nw' nh'.
  intros H. injection H as -> ->. reflexivity.
Qed.

(** X16. A resize event that finds the window as the previous one left it
    changes nothing: applying [handleResize] to the position it has
    produced, with the dimensions it closes over or with the ones it has
    produced, gives the same dimensions and the same position again. *)
Theorem X16_resize_is_idempotent
  (id : string) (moved : bool) (win : Window)
  (dims : Dimensions) (prev : Position) :
  let r := handleResize id moved win dims prev in
  handleResize id moved win dims (snd r) = r /\
  handleResize id moved win (fst r) (snd r) = r.
Proof.
  cbv zeta.
  assert (H1 : handleResize id moved win dims
                 (snd (handleResize id moved win dims prev))
               = handleResize id moved win dims prev).
  { apply injective_projections; [reflexivity|].
    apply resize_position_stable. }
  split; [exact H1|].
  rewrite <- H1 at 3.
  apply resize_depends_on_fitted_size.
  unfold handleResize; cbv zeta. cbn [fst width height].
  destruct (isMobile win); [reflexivity|].
  rewrite !Qmin_absorb. reflexivity.
Qed.

(** X17. While the card is being resized by its handle, [handleMove]
    never makes it smaller than 300 by 200 and leaves its position alone;
    in a window of at least 320 by 220 the card is at most the window less
    20 in each direction; and while the pointer is between those limits
    the width and the height are the pointer's distances from the card's
    top-left corner. *)
Theorem X17_drag_resize_respects_the_size_limits
  (win : Window) (rect : Position) (clientX clientY : Q) (c : Card) :
  isResizing c = true ->
  let c' := handleMove win rect clientX clientY c in
  300 <= width (dimensions c') /\ 200 <= height (dimensions c') /\
  position c' = position c /\
  (320 <= innerWidth win -> width (dimensions c') <= innerWidth win - 20) /\
  (220 <= innerHeight win -> height (dimensions c') <= innerHeight win - 20) /\
  (300 <= clientX - x rect -> clientX - x rect <= innerWidth win - 20 ->
   width (dimensions c') == clientX - x rect) /\
  (200 <= clientY - y rect -> clientY - y rect <= innerHeight win - 20 ->
   height (dimensions c') == clientY - y rect).
Proof.
  intros Hr; cbv zeta. unfold handleMove. rewrite Hr.
  cbn [dimensions position width height].
  decide_minmax; repeat split; try intros; lra.
Qed.

(** The handle pulled up and to the left of the minimum size. *)
Lemma X17_witness :
  300 <= width (dimensions
                  (handleMove {| innerWidth := 1024; innerHeight := 768 |}
                     {| x := 100; y := 100 |} 120 90
                     (startResize
                        {| dimensions := {| width := 450; height := 500 |};
                           position := {| x := 100; y := 100 |};
                           hasMoved := false; isResizing := false;
                           isDragging := false;
                           dragOffset := {| x := 0; y := 0 |} |}))) /\
  200 <= height (dimensions
                   (handleMove {| innerWidth := 1024; innerHeight := 768 |}
                      {| x := 100; y := 100 |} 120 90
                      (startResize
                         {| dimensions := {| width := 450; height := 500 |};
                            position := {| x := 100; y := 100 |};
                            hasMoved := false; isResizing := false;
                            isDragging := false;
                            dragOffset := {| x := 0; y := 0 |} |}))).
Proof.
  pose proof (X17_drag_resize_respects_the_size_limits
                {| innerWidth := 1024; innerHeight := 768 |}
                {| x := 100; y := 100 |} 120 90
                (startResize
                   {| dimensions := {| width := 450; height := 500 |};
                      position := {| x := 100; y := 100 |};
                      hasMoved := false; isResizing := false;
                      isDragging := false;
                      dragOffset := {| x := 0; y := 0 |} |}) eq_refl) as H.
  cbv zeta in H. split; apply H.
Defined.

(** X18. Dragging moves the card with the pointer and nothing limits it:
    after [startDrag] at one pointer position and [handleMove] to another,
    the card has moved by exactly the pointer's displacement (so moving
    the pointer back restores the position, and every position can be
    reached), its size is unchanged, and the card counts as moved by hand,
    so that a resize no longer centres it. *)
Theorem X18_dragging_follows_the_pointer
  (win : Window) (rect : Position) (startX startY clientX clientY : Q)
  (c : Card) :
  isResizing c = false ->
  let c' := handleMove win rect clientX clientY (startDrag startX startY c) in
  x (position c') == x (position c) + (clientX - startX) /\
  y (position c') == y (position c) + (clientY - startY) /\
  dimensions c' = dimensions c /\
  hasMoved c' = true /\
  (forall id : string,
     isMobile win = false ->
     snd (handleResize id (hasMoved c') win (dimensions c') (position c'))
     = snd (handleResize "note" true win (dimensions c') (position c'))).
Proof.
  intros Hr; cbv zeta. unfold handleMove, startDrag.
  cbn [isResizing isDragging dimensions position hasMoved dragOffset x y].
  rewrite Hr.
  cbn [isResizing isDragging dimensions position hasMoved dragOffset x y].
  split; [ring|]. split; [ring|]. split; [reflexivity|].
  split; [reflexivity|].
  intros id Hm. unfold handleResize; cbv zeta. rewrite Hm.
  cbn [negb]. rewrite andb_false_r. reflexivity.
Qed.

Lemma X18_witness :
  x (position
       (handleMove {| innerWidth := 1024; innerHeight := 768 |}
          {| x := 100; y := 100 |} 700 80
          (startDrag 300 110
             {| dimensions := {| width := 450; height := 500 |};
                position := {| x := 100; y := 100 |};
                hasMoved := false; isResizing := false;
                isDragging := false;
                dragOffset := {| x := 0; y := 0 |} |})))
  == 100 + (700 - 300).
Proof.
  refine (proj1 (X18_dragging_follows_the_pointer
                   {| innerWidth := 1024; innerHeight := 768 |}
                   {| x := 100; y := 100 |} 300 110 700 80
                   {| dimensions := {| width := 450; height := 500 |};
                      position := {| x := 100; y := 100 |};
                      hasMoved := false; isResizing := false;
                      isDragging := false;
                      dragOffset := {| x := 0; y := 0 |} |} _)).
  reflexivity.
Defined.

(** *** Storage *)

Lemma append_inj_l (p s t : string) : (p ++ s = p ++ t)%string -> s = t.
Proof.
  induction p as [|c p IH]; cbn; intros H; [exact H|].
  injection H as H. apply IH, H.
Qed.

Lemma length_append (s t : string) :
  String.length (s ++ t) = (String.length s + String.length t)%nat.
Proof. induction s as [|c s IH]; cbn; [reflexivity|rewrite IH; reflexivity]. Qed.

(** Different notes are stored under different keys. *)
Lemma contentKey_inj (id1 id2 : string) :
  contentKey id1 = contentKey id2 -> id1 = id2.
Proof.
  unfold contentKey, storageKey.
  destruct (String.eqb id1 "main") eqn:E1;
    destruct (String.eqb id2 "main") eqn:E2; intros H.
  - apply String.eqb_eq in E1, E2. congruence.
  - exfalso. apply (f_equal String.length) in H.
    rewrite length_append in H. cbn in H. lia.
  - exfalso. apply (f_equal String.length) in H.
    rewrite length_append in H. cbn in H. lia.
  - apply append_inj_l in H. exact H.
Qed.

Lemma eqb_contentKey (id1 id2 : string) :
  String.eqb (contentKey id1) (contentKey id2) = String.eqb id1 id2.
Proof.
  destruct (String.eqb id1 id2) eqn:E.
  - apply String.eqb_eq in E. subst. apply String.eqb_refl.
  - apply String.eqb_neq. intros H. apply contentKey_inj in H.
    apply String.eqb_neq in E. contradiction.
Qed.

(** X19. The text of a note survives a reload, note by note: once
    [saveText] has stored a text for a note, the initialiser of [text]
    returns exactly that text for that note (the empty text included),
    whatever the initial text and the typewriter mode, and marks it as
    loaded from storage; notes with another id read what they read
    before; and without a stored value the initialiser starts from the
    empty text in typewriter mode and from the initial text otherwise. *)
Theorem X19_saved_text_is_read_back
  (id other text initialText : string) (typewriterMode : bool)
  (store : Storage) :
  initialTextState id typewriterMode initialText (saveText id text store)
  = (text, true) /\
  (other <> id ->
   initialTextState other typewriterMode initialText (saveText id text store)
   = initialTextState other typewriterMode initialText store) /\
  (getItem (contentKey id) store = None ->
   initialTextState id typewriterMode initialText store
   = (if typewriterMode then EmptyString else initialText, false)).
Proof.
  unfold initialTextState, saveText, getItem, setItem.
  split; [rewrite String.eqb_refl; reflexivity|]. split.
  - intros Hne. rewrite eqb_contentKey.
    apply String.eqb_neq in Hne. rewrite Hne. reflexivity.
  - intros ->. destruct typewriterMode; reflexivity.
Qed.

End EditorProps.

(** ** The notes of [App] *)

Module NotesProps.
Import String LocalStorage Notes PageFacts.
Local Open Scope Q_scope.

(** X20. A new note is spawned on screen: [addNote] never places it left
    of 20 or above 50; in a window wide enough for a card and its margins
    (and at least 250 high) the note's left edge is at most the window
    width less the card width and 20, and its top at most the height less
    200; a requested position inside those limits is taken as it is.  The
    note gets the id [Date.now()] gave and no text, the notes already
    there are left as they are, and the new note comes last. *)
Theorem X20_new_note_is_spawned_on_screen
  (seen : Z) (win : Editor.Window) (stamp : string) (px py : Q)
  (st : NotesState) :
  exists n : NoteData,
    notes (addNote seen win stamp px py st) = notes st ++ [n] /\
    id n = stamp /\ text n = None /\
    20 <= x n /\ 50 <= y n /\
    (cardWidth win + 40 <= Editor.innerWidth win ->
     x n + cardWidth win + 20 <= Editor.innerWidth win) /\
    (250 <= Editor.innerHeight win -> y n + 200 <= Editor.innerHeight win) /\
    (20 <= px -> px + cardWidth win + 20 <= Editor.innerWidth win ->
     x n == px) /\
    (50 <= py -> py + 200 <= Editor.innerHeight win -> y n == py).
Proof.
  eexists. split; [reflexivity|]. cbn [id text x y].
  split; [reflexivity|]. split; [reflexivity|].
  set (cw := cardWidth win). clearbody cw.
  destruct (EditorProps.Qmin_cases px (Editor.innerWidth win - (cw + 20)))
    as [[A ->]|[A ->]];
    destruct (EditorProps.Qmin_cases py (Editor.innerHeight win - 200))
      as [[B ->]|[B ->]];
    repeat match goal with
    | |- context [Qmax ?a ?b] =>
        let M := fresh "M" in
        let E := fresh "E" in
        destruct (EditorProps.Qmax_cases a b) as [[M E]|[M E]]; rewrite !E
    end;
    repeat split; try intros; lra.
Qed.

Lemma Layered_raise (ns : list NoteData) (a b : Z) :
  (a <= b)%Z ->
  Forall (fun n => (zIndex n <= a)%Z) ns ->
  Forall (fun n => (zIndex n <= b)%Z) ns.
Proof. intros Hab. apply Forall_impl. intros n Hn. lia. Qed.

(** X21. Focusing a note puts it on top.  When no note lies above [topZ]
    and the closure sees the current [topZ], [bringToFront] gives every
    note with the focused id the new [topZ] as its z-index, strictly
    above every other note; it changes no id, position or text, creates
    and removes no note, and again no note lies above [topZ]. *)
Theorem X21_focused_note_is_on_top
  (seen : Z) (target : string) (st : NotesState) :
  UiTerms.Layered st -> seen = topZ st ->
  let st' := bringToFront seen target st in
  UiTerms.Layered st' /\
  map (fun n => (id n, x n, y n, text n)) (notes st')
  = map (fun n => (id n, x n, y n, text n)) (notes st) /\
  (forall n : NoteData,
     In n (notes st') -> id n = target -> zIndex n = topZ st') /\
  (forall n : NoteData,
     In n (notes st') -> id n <> target ->
     In n (notes st) /\ (zIndex n < topZ st')%Z).
Proof.
  intros HL ->; cbv zeta. unfold UiTerms.Layered, bringToFront in *.
  cbn [notes topZ]. set (k := topZ st) in *. clearbody k.
  induction (notes st) as [|n ns IH]; cbn [map].
  - split; [constructor|]. split; [reflexivity|].
    split; intros n [].
  - inversion HL as [|n0 ns0 Hn Hns]; subst.
    destruct (IH Hns) as (I1 & I2 & I3 & I4).
    split; [|split; [|split]].
    + constructor; [|exact I1].
      destruct (String.eqb (id n) target); cbn [zIndex]; lia.
    + rewrite I2. f_equal. destruct (String.eqb (id n) target); reflexivity.
    + intros m [<-|Hm] Hid; [|apply I3; assumption].
      destruct (String.eqb (id n) target) eqn:E; [reflexivity|].
      apply String.eqb_neq in E. contradiction.
    + intros m [<-|Hm] Hid.
      * destruct (String.eqb (id n) target) eqn:E.
        -- apply String.eqb_eq in E. cbn [id] in Hid. contradiction.
        -- split; [left; reflexivity|lia].
      * destruct (I4 m Hm Hid) as [J1 J2]. split; [right; exact J1|exact J2].
Qed.

Lemma initialNotes_Layered (win : Editor.Window) (store : Storage) :
  UiTerms.Layered (initialNotes win store).
Proof.
  unfold UiTerms.Layered; cbn [initialNotes notes topZ].
  constructor; [cbn [zIndex]; lia|constructor].
Qed.

Lemma X21_witness :
  UiTerms.Layered
    (bringToFront 1 "main"
       (initialNotes
          {| Editor.innerWidth := 1024; Editor.innerHeight := 768 |}
          emptyStorage)).
Proof.
  refine (proj1 (X21_focused_note_is_on_top 1 "main"
                   (initialNotes
                      {| Editor.innerWidth := 1024; Editor.innerHeight := 768 |}
                      emptyStorage) _ eq_refl)).
  apply initialNotes_Layered.
Defined.

(** X22. The notes stay layered, and a new note is created on top: the
    notes [App] starts with have no note above [topZ]; [addNote],
    [bringToFront] (run by a closure that has seen a [topZ] not above the
    current one) and [deleteNote] keep it so; and when the closure of
    [addNote] sees the current [topZ] the new note lies strictly above
    every note that was there. *)
Theorem X22_notes_stay_layered_and_new_notes_come_on_top
  (seen : Z) (win : Editor.Window) (stamp target : string) (px py : Q)
  (st : NotesState) (store : Storage) :
  UiTerms.Layered st -> (seen <= topZ st)%Z ->
  UiTerms.Layered (initialNotes win store) /\
  UiTerms.Layered (addNote seen win stamp px py st) /\
  UiTerms.Layered (bringToFront seen target st) /\
  UiTerms.Layered (fst (deleteNote target st store)) /\
  (seen = topZ st ->
   forall n : NoteData,
     In n (notes st) ->
     (zIndex n < zIndex (last (notes (addNote seen win stamp px py st)) n))%Z).
Proof.
  intros HL Hs. unfold UiTerms.Layered in *.
  split; [apply initialNotes_Layered|].
  split; [|split; [|split]].
  - cbn [addNote notes topZ]. apply Forall_app. split.
    + apply (Layered_raise _ (topZ st)); [lia|exact HL].
    + constructor; [cbn [zIndex]; lia|constructor].
  - cbn [bringToFront notes topZ]. apply Forall_map.
    revert HL. apply Forall_impl. intros n Hn.
    destruct (String.eqb (id n) target); cbn [zIndex]; lia.
  - unfold deleteNote; cbn [fst notes topZ].
    rewrite Forall_forall in *. intros n Hn. apply filter_In in Hn.
    apply HL, Hn.
  - intros -> n Hn. cbn [addNote notes]. rewrite last_last. cbn [zIndex].
    rewrite Forall_forall in HL. specialize (HL n Hn). lia.
Qed.

Lemma X22_witness :
  UiTerms.Layered
    (addNote 1 {| Editor.innerWidth := 1024; Editor.innerHeight := 768 |}
       "1700000000000" 600 100
       (initialNotes
          {| Editor.innerWidth := 1024; Editor.innerHeight := 768 |}
          emptyStorage)).
Proof.
  refine (proj1 (proj2
            (X22_notes_stay_layered_and_new_notes_come_on_top
               1 {| Editor.innerWidth := 1024; Editor.innerHeight := 768 |}
               "1700000000000" "main" 600 100
               (initialNotes
                  {| Editor.innerWidth := 1024; Editor.innerHeight := 768 |}
                  emptyStorage)
               emptyStorage _ _))).
  - apply initialNotes_Layered.
  - cbn. lia.
Defined.

(** X23. Deleting a note forgets its text and nothing else: [deleteNote]
    removes the notes with the given id and keeps the others, in their
    order and unchanged; it removes the very storage key the note's
    editor reads and writes, so that a note created later under that id
    starts from its initial text; the stored text of every other note
    is still read back. *)
Theorem X23_deleting_a_note_forgets_its_text_only
  (target other initialText : string) (typewriterMode : bool)
  (st : NotesState) (store : Storage) :
  let st' := fst (deleteNote target st store) in
  let store' := snd (deleteNote target st store) in
  (forall n : NoteData,
     In n (notes st') <-> In n (notes st) /\ id n <> target) /\
  topZ st' = topZ st /\
  getItem (Editor.contentKey target) store' = None /\
  Editor.initialTextState target typewriterMode initialText store'
  = (if typewriterMode then EmptyString else initialText, false) /\
  (other <> target ->
   Editor.initialTextState other typewriterMode initialText store'
   = Editor.initialTextState other typewriterMode initialText store).
Proof.
  cbv zeta. unfold deleteNote; cbn [fst snd notes topZ].
  assert (Hkey : (if String.eqb target "main"
                  then removeItem "rainy-thoughts-content" store
                  else removeItem ("rainy-thoughts-content-" ++ target) store)
                 = removeItem (Editor.contentKey target) store).
  { unfold Editor.contentKey, Editor.storageKey.
    destruct (String.eqb target "main"); reflexivity. }
  rewrite Hkey.
  split; [|split; [reflexivity|]].
  - intros n. rewrite filter_In. split; intros [H1 H2]; split; try exact H1.
    + apply negb_true_iff, String.eqb_neq in H2. exact H2.
    + apply negb_true_iff, String.eqb_neq. exact H2.
  - unfold Editor.initialTextState, getItem, removeItem.
    rewrite String.eqb_refl.
    split; [reflexivity|]. split; [destruct typewriterMode; reflexivity|].
    intros Hne. rewrite EditorProps.eqb_contentKey.
    apply String.eqb_neq in Hne. rewrite Hne. reflexivity.
Qed.

End NotesProps.

(** ** Prompts and generated scenes *)

Module GeminiProps.
Import String Gemini PromptBanner.





(** X25. A prompt equal to the one shown before is not shown again:
    when the banner of a prompt is hidden, [handlePrompt] with the same
    text leaves it hidden.  Without a configured client every spark
    returns the same text, so once the banner of the first spark has
    timed out the banner is hidden and no later spark changes
    anything. *)
Theorem X25_an_equal_prompt_is_not_shown_again
  (r1 r2 : Awaited (option string)) (st : State) :
  isGenerating st = false ->
  let st1 := promptTimeout (handleSpark false r1 st) in
  bannerVisible st1 = false /\
  handleSpark false r2 st1 = st1 /\
  (forall (prompt : string) (st0 : State),
     aiPrompt st0 = Some prompt -> showPrompt st0 = false ->
     bannerVisible (handlePrompt prompt st0) = false).
Proof.
  intros Hg; cbv zeta. split; [|split].
  - unfold bannerVisible, promptTimeout. cbn [showEditor showPrompt aiPrompt].
    rewrite andb_false_r. reflexivity.
  - unfold handleSpark. rewrite Hg. cbn [generateWritingPrompt negb].
    unfold promptTimeout, handlePrompt.
    cbn [aiPrompt showEditor showPrompt isGenerating samePrompt].
    rewrite Hg, String.eqb_refl. cbn [negb andb].
    destruct (showEditor st); reflexivity.
  - intros prompt st0 Hp Hs. unfold bannerVisible, handlePrompt.
    cbn [showEditor showPrompt aiPrompt].
    rewrite Hp, Hs. cbn [samePrompt]. rewrite String.eqb_refl.
    cbn [negb andb]. rewrite andb_false_r. reflexivity.
Qed.

(** On the freshly loaded page, without a client: the second spark after
    the time-out of the first changes nothing. *)
Lemma X25_witness :
  handleSpark false (Resolved None)
    (promptTimeout (handleSpark false Rejected atLoad))
  = promptTimeout (handleSpark false Rejected atLoad).
Proof.
  refine (proj1 (proj2 (X25_an_equal_prompt_is_not_shown_again
                          Rejected (Resolved None) atLoad eq_refl))).
Defined.

Lemma firstInline_nonempty (parts : list Part) (u : string) :
  firstInline parts = Some u -> u <> EmptyString.
Proof.
  induction parts as [|p ps IH]; cbn; [discriminate|].
  destruct (inlineData p) as [d|]; [|exact IH].
  intros H. injection H as <-. discriminate.
Qed.

Lemma firstInline_first (pre rest : list Part) (d : InlineData) :
  Forall (fun p => inlineData p = None) pre ->
  firstInline (pre ++ {| inlineData := Some d |} :: rest)
  = Some ("data:" ++ mimeType d ++ ";base64," ++ data d)%string.
Proof.
  induction 1 as [|p ps Hp _ IH]; cbn; [reflexivity|].
  rewrite Hp. exact IH.
Qed.

Lemma firstInline_none (parts : list Part) :
  Forall (fun p => inlineData p = None) parts -> firstInline parts = None.
Proof.
  induction 1 as [|p ps Hp _ IH]; cbn; [reflexivity|].
  rewrite Hp. exact IH.
Qed.

(** X26. A generated scene replaces the background only when an image
    came back.  For every draw in [[0, 1)] the scene prompt is one of the
    five of [SCENE_PROMPTS].  [generateStudyBackground] returns [null]
    without a configured client, when the request fails, and when no part
    of the response carries inline data; otherwise it returns the data
    URL [data:<mimeType>;base64,<data>] of the first part that does.
    [generateNewScene] then sets the background to that URL, and leaves
    the background as it is when the result is [null] or while another
    generation is running. *)
Theorem X26_a_failed_scene_generation_keeps_the_background
  (configured : bool) (response : Awaited (option (list Part)))
  (r : Q) (bg : option string) :
  (0 <= r -> r < 1 ->
   exists p : string, randomPrompt r = Some p /\ In p SCENE_PROMPTS)%Q /\
  (configured = false \/ response = Rejected \/ response = Resolved None ->
   generateStudyBackground configured response = None) /\
  (forall (pre rest : list Part) (d : InlineData),
     configured = true ->
     response = Resolved (Some (pre ++ {| inlineData := Some d |} :: rest)) ->
     Forall (fun p => inlineData p = None) pre ->
     generateStudyBackground configured response
     = Some ("data:" ++ mimeType d ++ ";base64," ++ data d)%string) /\
  (forall parts : list Part,
     response = Resolved (Some parts) ->
     Forall (fun p => inlineData p = None) parts ->
     generateStudyBackground configured response = None) /\
  generateNewScene false (generateStudyBackground configured response) bg
  = match generateStudyBackground configured response with
    | Some u => Some u
    | None => bg
    end /\
  generateNewScene true (generateStudyBackground configured response) bg = bg.
Proof.
  split; [|split; [|split; [|split; [|split]]]].
  - intros R0 R1. unfold randomPrompt.
    change (inject_Z (Z.of_nat (List.length SCENE_PROMPTS))) with (inject_Z 5).
    assert (L : (0 <= Qfloor (r * inject_Z 5))%Z).
    { change 0%Z with (Qfloor (inject_Z 0)). apply Qfloor_resp_le.
      change (inject_Z 0) with 0%Q. change (inject_Z 5) with 5%Q. lra. }
    assert (U : (Qfloor (r * inject_Z 5) < 5)%Z).
    { rewrite Zlt_Qlt. eapply Qle_lt_trans; [apply Qfloor_le|].
      change (inject_Z 5) with 5%Q. lra. }
    set (i := Qfloor (r * inject_Z 5)) in *. clearbody i.
    assert (Hi : (i = 0 \/ i = 1 \/ i = 2 \/ i = 3 \/ i = 4)%Z) by lia.
    destruct Hi as [E | [E | [E | [E | E]]]]; rewrite E;
      (eexists; split; [reflexivity|]);
      unfold SCENE_PROMPTS; cbn [In];
      repeat (first [left; reflexivity|right]).
  - intros [H | [H | H]]; rewrite H; unfold generateStudyBackground;
      destruct configured; reflexivity.
  - intros pre rest d -> -> Hpre. cbn. apply firstInline_first, Hpre.
  - intros parts -> Hparts. unfold generateStudyBackground.
    destruct configured; cbn [negb]; [|reflexivity].
    apply firstInline_none, Hparts.
  - unfold generateNewScene.
    destruct (generateStudyBackground configured response) as [u|] eqn:E;
      [|reflexivity].
    assert (Hu : u <> EmptyString).
    { unfold generateStudyBackground in E.
      destruct configured; cbn [negb] in E; [|discriminate].
      destruct response as [[parts|]|]; try discriminate.
      apply (firstInline_nonempty parts u E). }
    apply String.eqb_neq in Hu. rewrite Hu. reflexivity.
  - reflexivity.
Qed.

Lemma X26_witness :
  exists p : string, randomPrompt 0.73 = Some p /\ In p SCENE_PROMPTS.
Proof.
  refine (proj1 (X26_a_failed_scene_generation_keeps_the_background
                   false Rejected 0.73 None) _ _); lra.
Defined.

End GeminiProps.

(** ** Loading one image at a time *)

Module TexturePatience.
Import TextureLoad UiTerms TextureLoadProps.
Local Open Scope Q_scope.

Lemma sameUrl_true (a b : option Url) : sameUrl a b = true <-> a = b.
Proof.
  destruct a as [x|]; destruct b as [y|]; cbn; split; intros H;
    try discriminate; try reflexivity.
  - apply Nat.eqb_eq in H. subst. reflexivity.
  - injection H as ->. apply Nat.eqb_refl.
Qed.

(** X27. When the user waits for each image to load before choosing
    again, the screen always shows what is selected.  Starting from a
    state in which nothing is loading and the texture is the one of the
    selected image (as after the mount), selecting an image, or none, and
    letting the load that this starts finish leads again to such a state,
    with the new selection; selecting the image that is already selected
    starts no load; selecting none shows no texture at once; and a loaded
    image with a size sets [imgAspect] to width over height. *)
Theorem X27_waiting_for_each_load_shows_the_selection
  (sel : option Url) (img : option (Q * Q)) (st : State) :
  Settled st ->
  Settled mounted /\
  (exists st' : State,
     selectAndWait sel img st = Some st' /\
     Settled st' /\ backgroundUrl st' = sel /\
     (sel = None -> texture st' = None) /\
     (forall (u : Url) (w h : Q),
        sel = Some u -> backgroundUrl st <> Some u -> img = Some (w, h) ->
        texture st' = Some {| sourceUrl := u; image := img |} /\
        imgAspect st' = w / h)) /\
  (sel = backgroundUrl st -> inFlight (setBackgroundUrl sel st) = []).
Proof.
  intros (Hfl & Hshow).
  split; [split; reflexivity|].
  unfold selectAndWait, setBackgroundUrl; cbv zeta.
  destruct (sameUrl (backgroundUrl st) sel) eqn:E.
  - apply sameUrl_true in E. subst sel. cbn [inFlight]. rewrite Hfl.
    split; [|intros _; reflexivity].
    eexists. split; [reflexivity|]. cbn [backgroundUrl texture inFlight].
    split; [split; [reflexivity|exact Hshow]|].
    split; [reflexivity|]. split.
    + intros H0. rewrite H0 in Hshow. exact Hshow.
    + intros u w h Hu Hne. congruence.
  - assert (Hne : backgroundUrl st <> sel).
    { intros H0. apply sameUrl_true in H0. congruence. }
    split; [|intros H0; congruence].
    destruct sel as [u|]; unfold textureEffect;
      cbn [backgroundUrl texture inFlight imgAspect].
    + rewrite Hfl. cbn [app].
      unfold loadCompletes, isInFlight; cbn [inFlight existsb].
      rewrite Nat.eqb_refl. cbn [orb removeFirst].
      rewrite Nat.eqb_refl.
      eexists. split; [reflexivity|].
      unfold onLoad; cbn [backgroundUrl texture inFlight imgAspect image].
      split; [split; [reflexivity|eexists; split; reflexivity]|].
      split; [reflexivity|]. split; [discriminate|].
      intros u' w h Hu _ ->. injection Hu as <-. split; reflexivity.
    + rewrite Hfl.
      eexists. split; [reflexivity|].
      cbn [backgroundUrl texture inFlight].
      split; [split; reflexivity|]. split; [reflexivity|].
      split; [reflexivity|]. intros u w h Hu. discriminate.
Qed.

(** Image 3 is chosen on the freshly mounted component and loads. *)
Lemma X27_witness :
  exists st' : State,
    selectAndWait (Some 3%nat) (Some (1600, 900)) mounted = Some st' /\
    Settled st' /\ backgroundUrl st' = Some 3%nat /\
    (Some 3%nat = None -> texture st' = None) /\
    (forall (u : Url) (w h : Q),
       Some 3%nat = Some u -> backgroundUrl mounted <> Some u ->
       Some (1600, 900) = Some (w, h) ->
       texture st'
       = Some {| sourceUrl := u; image := Some (1600, 900) |} /\
       imgAspect st' = w / h).
Proof.
  refine (proj1 (proj2 (X27_waiting_for_each_load_shows_the_selection
                          (Some 3%nat) (Some (1600, 900)) mounted _))).
  split; reflexivity.
Defined.

End TexturePatience.

(** ** Sliders, the word counter, the place of the main note *)

Module ControlsProps.
Import Controls.
Local Open Scope Q_scope.

(** X28. Every slider writes its own setting and no other, and keeps it
    in range: for a value of the range input between its [min] and
    [max], [onChange] leaves the other settings as they are and the
    written setting lies in the range [src/types.ts] documents for it
    (in [[0, 1]] for the volume, which has no documented range), with
    one exception: the Refraction slider writes values from 0 to 2, and
    at its maximum the setting is 2, outside the documented 0 to 1.5.
    The defaults of [App] lie in the documented ranges. *)
Theorem X28_sliders_keep_the_settings_in_range
  (s : Slider) (v : Q) (prev : Settings) :
  min s <= v -> v <= max s ->
  (forall g : Field, g <> field s -> onChange s v prev g = prev g) /\
  (s <> Refraction -> withinDocumented (field s) (onChange s v prev (field s))) /\
  (s = Volume ->
   0 <= onChange s v prev audioVolume /\ onChange s v prev audioVolume <= 1) /\
  (s = Refraction ->
   0 <= onChange s v prev refraction /\ onChange s v prev refraction <= 2) /\
  onChange Refraction (max Refraction) prev refraction == 2 /\
  ~ withinDocumented refraction
      (onChange Refraction (max Refraction) prev refraction) /\
  (forall f : Field, withinDocumented f (defaults f)).
Proof.
  intros Hlo Hhi.
  split; [|split; [|split; [|split; [|split; [|split]]]]].
  - intros g Hg. destruct s; destruct g; try reflexivity;
      exfalso; apply Hg; reflexivity.
  - intros Hs. destruct s; try (exfalso; apply Hs; reflexivity);
      unfold withinDocumented, onChange, updateSettings;
      cbn [field documented Field_eqb min max] in *;
      split; try (apply Qle_shift_div_l; [reflexivity|]);
      try (apply Qle_shift_div_r; [reflexivity|]); lra.
  - intros ->. unfold onChange, updateSettings;
      cbn [field Field_eqb min max] in *.
    split; [apply Qle_shift_div_l|apply Qle_shift_div_r];
      try reflexivity; lra.
  - intros ->. unfold onChange, updateSettings;
      cbn [field Field_eqb min max] in *.
    split; [apply Qle_shift_div_l|apply Qle_shift_div_r];
      try reflexivity; lra.
  - reflexivity.
  - unfold withinDocumented, onChange, updateSettings;
      cbn [field documented Field_eqb max].
    intros [_ H]. revert H. apply Qlt_not_le. reflexivity.
  - intros f. destruct f; unfold withinDocumented;
      cbn [documented defaults]; try exact I; split; lra.
Qed.

Lemma X28_witness :
  onChange Storm 40 defaults rainIntensity = defaults rainIntensity.
Proof.
  refine (proj1 (X28_sliders_keep_the_settings_in_range Storm 40 defaults
                   _ _) rainIntensity _);
    [cbn; lra|cbn; lra|discriminate].
Defined.

End ControlsProps.

Module WordCountProps.
Import WordCount.

Lemma count_splitFrom (char : Type) (isSpace : char -> bool)
  (text : list char) :
  (forall cur : list char,
     cur <> [] ->
     length (filter (fun w => Nat.ltb 0 (length w))
               (splitFrom char isSpace cur false text))
     = S (wordStarts char isSpace false text)) /\
  (forall inRun : bool,
     length (filter (fun w => Nat.ltb 0 (length w))
               (splitFrom char isSpace [] inRun text))
     = wordStarts char isSpace true text).
Proof.
  induction text as [|c rest [IHa IHb]]; cbn [splitFrom wordStarts].
  - split.
    + intros cur Hcur. cbn [filter]. rewrite length_rev.
      destruct cur; [contradiction|reflexivity].
    + intros _. reflexivity.
  - split.
    + intros cur Hcur. destruct (isSpace c).
      * cbn [filter]. rewrite length_rev.
        destruct cur as [|c0 cur]; [contradiction|].
        cbn [length Nat.ltb Nat.leb]. cbn [length]. rewrite IHb. reflexivity.
      * rewrite IHa by discriminate. reflexivity.
    + intros inRun. destruct (isSpace c).
      * destruct inRun; [apply IHb|]. cbn. apply IHb.
      * rewrite IHa by discriminate. reflexivity.
Qed.

Lemma wordStarts_app (char : Type) (isSpace : char -> bool)
  (a b : list char) (sp : char) (p : bool) :
  isSpace sp = true ->
  wordStarts char isSpace p (a ++ sp :: b)
  = (wordStarts char isSpace p a + wordStarts char isSpace true b)%nat.
Proof.
  intros Hsp. revert p. induction a as [|c a IH]; intros p; cbn.
  - rewrite Hsp. reflexivity.
  - destruct (isSpace c); [apply IH|]. rewrite IH. lia.
Qed.

Lemma wordStarts_bound (char : Type) (isSpace : char -> bool)
  (a : list char) (p : bool) :
  (2 * wordStarts char isSpace p a
   <= length a + (if p then 1 else 0))%nat.
Proof.
  revert p. induction a as [|c a IH]; intros p; cbn [wordStarts length].
  - destruct p; lia.
  - destruct (isSpace c).
    + specialize (IH true). cbn in IH. destruct p; lia.
    + specialize (IH false). cbn in IH. destruct p; lia.
Qed.

(** X29. The word counter counts the words: for every text, and whatever
    characters count as white space, the number the card shows is the
    number of places where a word starts (a character that is not white
    space, at the start of the text or after white space).  Hence the
    count of two texts joined by a white-space character is the sum of
    their counts, a text of white space only (the empty text included)
    has 0 words, and a text of [n] characters has at most [(n + 1) / 2]
    words. *)
Theorem X29_word_count_counts_the_words
  (char : Type) (isSpace : char -> bool) (a b : list char) (sp : char) :
  isSpace sp = true ->
  wordCount char isSpace a = wordStarts char isSpace true a /\
  wordCount char isSpace (a ++ sp :: b)
  = (wordCount char isSpace a + wordCount char isSpace b)%nat /\
  (Forall (fun c => isSpace c = true) a -> wordCount char isSpace a = 0%nat) /\
  (2 * wordCount char isSpace a <= length a + 1)%nat.
Proof.
  intros Hsp.
  assert (E : forall t : list char,
            wordCount char isSpace t = wordStarts char isSpace true t).
  { intros t. apply (proj2 (count_splitFrom char isSpace t) false). }
  split; [apply E|]. rewrite !E.
  split; [apply wordStarts_app; exact Hsp|]. split.
  - induction 1 as [|c t Hc _ IH]; cbn; [reflexivity|].
    rewrite Hc. exact IH.
  - apply (wordStarts_bound char isSpace a true).
Qed.

(** With the blank as the only white space: two words around two
    blanks. *)
Lemma X29_witness :
  wordCount nat (Nat.eqb 0) ([1; 2] ++ 0 :: [0; 3])%nat
  = (wordCount nat (Nat.eqb 0) [1; 2] + wordCount nat (Nat.eqb 0) [0; 3])%nat.
Proof.
  refine (proj1 (proj2 (X29_word_count_counts_the_words
                          nat (Nat.eqb 0) [1; 2]%nat [0; 3]%nat 0%nat _))).
  reflexivity.
Defined.

End WordCountProps.

Module PlacementProps.
Import String LocalStorage Editor PageFacts.
Local Open Scope Q_scope.

(** X30. The main note starts in the middle of the window and stays
    there until it is moved.  The position [App] gives its first note is
    the one the card would choose itself; with the initial dimensions the
    centre of the card is then the centre of the window, on mobile and
    desktop windows alike.  On a desktop window every resize event that
    finds the main card not moved by hand puts its centre on the centre
    of the window again, whatever its size and position were; on a mobile
    window every card is centred horizontally by every resize event. *)
Theorem X30_main_note_starts_and_stays_centred
  (win : Window) (store : Storage) (id : string) (moved : bool)
  (dims : Dimensions) (prev : Position) :
  (exists main : Notes.NoteData,
     Notes.notes (Notes.initialNotes win store) = [main] /\
     Notes.id main = "main"%string /\
     initialPosition win (Some (Notes.x main)) (Some (Notes.y main))
     = initialPosition win None None) /\
  x (initialPosition win None None) + width (initialDimensions win) / 2
  == innerWidth win / 2 /\
  y (initialPosition win None None) + height (initialDimensions win) / 2
  == innerHeight win / 2 /\
  (isMobile win = false ->
   x (snd (handleResize "main" false win dims prev))
   + width (fst (handleResize "main" false win dims prev)) / 2
   == innerWidth win / 2 /\
   y (snd (handleResize "main" false win dims prev))
   + height (fst (handleResize "main" false win dims prev)) / 2
   == innerHeight win / 2) /\
  (isMobile win = true ->
   x (snd (handleResize id moved win dims prev))
   + width (fst (handleResize id moved win dims prev)) / 2
   == innerWidth win / 2).
Proof.
  split; [|split; [|split; [|split]]].
  - eexists. split; [reflexivity|]. split; [reflexivity|].
    unfold initialPosition, Notes.cardWidth, Notes.cardHeight;
      cbn [Notes.x Notes.y nullish].
    destruct (isMobile win); reflexivity.
  - unfold initialPosition, initialDimensions; cbv zeta.
    destruct (isMobile win); cbn [x width nullish]; field.
  - unfold initialPosition, initialDimensions; cbv zeta.
    destruct (isMobile win); cbn [y height nullish]; field.
  - intros Hm. unfold handleResize; cbv zeta. rewrite Hm.
    cbn [fst snd x y width height String.eqb Ascii.eqb Bool.eqb negb andb].
    split; field.
  - intros Hm. unfold handleResize; cbv zeta. rewrite Hm.
    cbn [fst snd x width]. field.
Qed.

End PlacementProps.
